(** * nodeprobe: registry, merge engine, polling scheduler, retention

    A shallow embedding of the core of the nodeprobe daemon
    (internal/app, internal/pkg/sqlite, internal/pkg/http) together with
    the properties its design document states about it.

    Conventions.
    - Go's [error] is [option string]: [None] is [nil], [Some msg] is an
      error carrying [msg].
    - [time.Time] values are integers ([Z]); every call of [time.Now()] is
      an explicit [now] argument of the function that makes it.
    - The SQLite driver can fail at any statement.  The outcome of each
      statement is read from a tape carried by the state: [Some msg] makes
      the statement fail with [msg] and leaves the tables alone, [None]
      (or an exhausted tape) lets it run.
    - [map[string]*Node] is a [gmap string Node].  The pointers stored in
      the map are written through explicitly wherever the Go code mutates
      a cached node in place. *)

From Stdlib Require Import ZArith List Lia.
From stdpp Require Import base option list gmap strings sorting.
From Equations Require Import Equations.

Open Scope Z_scope.
Open Scope string_scope.

(** ** internal/domain/models.go *)

Record Node := mkNode {
  ID : string;
  FQDN : string;
  IP : string;
  DiscoveredBy : string;
  FirstSeen : Z;
  LastSeen : Z;
  IsActive : bool
}.

Record PollResult := mkPollResult {
  pr_ID : Z;
  pr_NodeID : string;
  pr_PollTime : Z;
  pr_Success : bool;
  pr_ResponseMs : Z;
  pr_Error : string;
  pr_PathMTU : Z
}.

Record SeedNode := mkSeedNode { seed_FQDN : string; seed_IP : string }.

Record SeedConfig := mkSeedConfig { seed_Nodes : list SeedNode }.

Record NetworkSnapshot := mkNetworkSnapshot {
  snap_Timestamp : Z;
  snap_NodeID : string;
  snap_Nodes : list Node
}.

Record NodeInfo := mkNodeInfo {
  ni_ID : string;
  ni_FQDN : string;
  ni_IP : string;
  ni_Nodes : list Node
}.

Definition MaxDatabaseSizeMB : Z := 10.

(** Field assignments [node.F = v]. *)
Definition set_FQDN (v : string) (n : Node) : Node :=
  mkNode (ID n) v (IP n) (DiscoveredBy n) (FirstSeen n) (LastSeen n) (IsActive n).
Definition set_IP (v : string) (n : Node) : Node :=
  mkNode (ID n) (FQDN n) v (DiscoveredBy n) (FirstSeen n) (LastSeen n) (IsActive n).
Definition set_FirstSeen (v : Z) (n : Node) : Node :=
  mkNode (ID n) (FQDN n) (IP n) (DiscoveredBy n) v (LastSeen n) (IsActive n).
Definition set_LastSeen (v : Z) (n : Node) : Node :=
  mkNode (ID n) (FQDN n) (IP n) (DiscoveredBy n) (FirstSeen n) v (IsActive n).
Definition set_IsActive (v : bool) (n : Node) : Node :=
  mkNode (ID n) (FQDN n) (IP n) (DiscoveredBy n) (FirstSeen n) (LastSeen n) v.

(** A fallible result carrying a value, [(T, error)] in Go. *)
Inductive result (A : Type) : Type :=
| Ok (a : A)
| Err (msg : string).
Arguments Ok {A} a.
Arguments Err {A} msg.

(** ** internal/pkg/config/service.go *)

Record ConfigService := mkConfig { nodeID : string }.

Definition GetNodeID (c : ConfigService) : result string := Ok (nodeID c).

(** ** The node service and its repository (reporting_service.go,
       sqlite/repository.go) *)

Record NodeService := mkNS {
  nodeRepo : gmap string Node;        (* the [nodes] table, keyed by [id] *)
  configSvc : ConfigService;
  knownNodes : gmap string Node;      (* the in-memory cache *)
  faults : list (option string)       (* outcome of the next SQL statements *)
}.

Definition with_repo (ns : NodeService) (r : gmap string Node) : NodeService :=
  mkNS r (configSvc ns) (knownNodes ns) (faults ns).
Definition with_known (ns : NodeService) (k : gmap string Node) : NodeService :=
  mkNS (nodeRepo ns) (configSvc ns) k (faults ns).

(** One SQL statement reaches the driver: read its outcome off the tape. *)
Definition sql (ns : NodeService) : option string * NodeService :=
  match faults ns with
  | [] => (None, ns)
  | f :: t => (f, mkNS (nodeRepo ns) (configSvc ns) (knownNodes ns) t)
  end.

(** [SELECT ... FROM nodes WHERE id = ?]; no row is [nil, nil]. *)
Definition GetNode (ns : NodeService) (id : string)
  : result (option Node) * NodeService :=
  let '(f, ns) := sql ns in
  match f with
  | Some e => (Err ("failed to get node: " ++ e), ns)
  | None => (Ok (nodeRepo ns !! id), ns)
  end.

(** [INSERT INTO nodes ...]; [id] is the primary key, so a second row with
    the same id is refused. *)
Definition CreateNode (ns : NodeService) (node : Node)
  : option string * NodeService :=
  let '(f, ns) := sql ns in
  match f with
  | Some e => (Some ("failed to create node: " ++ e), ns)
  | None =>
      match nodeRepo ns !! ID node with
      | Some _ => (Some "failed to create node: UNIQUE constraint failed: nodes.id", ns)
      | None => (None, with_repo ns (<[ID node := node]> (nodeRepo ns)))
      end
  end.

(** [UPDATE nodes SET ... WHERE id = ?]; without a matching row nothing is
    written and no error is raised. *)
Definition UpdateNode (ns : NodeService) (node : Node)
  : option string * NodeService :=
  let '(f, ns) := sql ns in
  match f with
  | Some e => (Some ("failed to update node: " ++ e), ns)
  | None =>
      match nodeRepo ns !! ID node with
      | Some _ => (None, with_repo ns (<[ID node := node]> (nodeRepo ns)))
      | None => (None, ns)
      end
  end.

(** [addOrUpdateNode] receives a pointer.  The second component of the
    result is the content of [*node] when the function returns: the
    assignment [node.FirstSeen = existingNode.FirstSeen] is visible to the
    caller whether or not the statement that follows succeeds. *)
Definition addOrUpdateNode (ns : NodeService) (node : Node)
  : option string * Node * NodeService :=
  let '(r, ns) := GetNode ns (ID node) in
  match r with
  | Err e => (Some ("failed to check existing node: " ++ e), node, ns)
  | Ok None =>
      let '(e, ns) := CreateNode ns node in
      match e with
      | Some e => (Some ("failed to create node: " ++ e), node, ns)
      | None => (None, node, with_known ns (<[ID node := node]> (knownNodes ns)))
      end
  | Ok (Some existingNode) =>
      let node := set_FirstSeen (FirstSeen existingNode) node in
      let '(e, ns) := UpdateNode ns node in
      match e with
      | Some e => (Some ("failed to update node: " ++ e), node, ns)
      | None => (None, node, with_known ns (<[ID node := node]> (knownNodes ns)))
      end
  end.

(** The body of the loop of [MergeNodeInfo] for one reported node.
    [existingNode] is the pointer held by the cache under [ID node]: the
    assignments to its fields, and the one [addOrUpdateNode] makes, are
    writes to the cached entry. *)
Definition mergeNode (now : Z) (myNodeID reporter : string)
    (ns : NodeService) (node : Node) : NodeService :=
  if decide (ID node = myNodeID) then ns
  else
    match knownNodes ns !! ID node with
    | None =>
        let newNode := mkNode (ID node) (FQDN node) (IP node) reporter now now true in
        let '(_, _, ns) := addOrUpdateNode ns newNode in ns
    | Some existingNode =>
        let existingNode :=
          if decide (FQDN existingNode = FQDN node) then existingNode
          else set_FQDN (FQDN node) existingNode in
        let existingNode :=
          if decide (IP existingNode = IP node) then existingNode
          else set_IP (IP node) existingNode in
        let existingNode := set_LastSeen now existingNode in
        let ns := with_known ns (<[ID node := existingNode]> (knownNodes ns)) in
        let '(_, existingNode, ns) := addOrUpdateNode ns existingNode in
        with_known ns (<[ID node := existingNode]> (knownNodes ns))
    end.

Definition MergeNodeInfo (ns : NodeService) (now : Z)
    (nodeInfo : option NodeInfo) (discoveredBy : string)
  : option string * NodeService :=
  match nodeInfo with
  | None => (Some "nodeInfo cannot be nil", ns)
  | Some nodeInfo =>
      match GetNodeID (configSvc ns) with
      | Err e => (Some ("failed to get own node ID: " ++ e), ns)
      | Ok myNodeID =>
          let ns :=
            if decide (ni_ID nodeInfo = myNodeID) then ns
            else
              let '(_, _, ns) :=
                addOrUpdateNode ns
                  (mkNode (ni_ID nodeInfo) (ni_FQDN nodeInfo) (ni_IP nodeInfo)
                          discoveredBy now now true) in
              ns in
          (None, foldl (mergeNode now myNodeID (ni_ID nodeInfo)) ns (ni_Nodes nodeInfo))
      end
  end.

(** The merge [handleReport] runs for a snapshot pushed to [/report]. *)
Definition mergeReport (ns : NodeService) (now : Z) (snapshot : NetworkSnapshot)
  : option string * NodeService :=
  MergeNodeInfo ns now
    (Some (mkNodeInfo (snap_NodeID snapshot) "" "" (snap_Nodes snapshot))) "report".

(** [UpdateNodeStatus]: the flag is set on the cached node before the
    statement is issued. *)
Definition UpdateNodeStatus (ns : NodeService) (nodeID : string) (isActive : bool)
  : option string * NodeService :=
  match knownNodes ns !! nodeID with
  | None => (Some ("node " ++ nodeID ++ " not found"), ns)
  | Some node =>
      let node := set_IsActive isActive node in
      let ns := with_known ns (<[nodeID := node]> (knownNodes ns)) in
      let '(e, ns) := UpdateNode ns node in
      match e with
      | Some e => (Some ("failed to update node status in database: " ++ e), ns)
      | None => (None, ns)
      end
  end.

(** [fmt.Sprintf("seed-%s-%s", fqdn, ip)]. *)
Definition seedID (s : SeedNode) : string :=
  "seed-" ++ seed_FQDN s ++ "-" ++ seed_IP s.

Definition loadSeedNode (now : Z) (myNodeID : string)
    (ns : NodeService) (seedNode : SeedNode) : NodeService :=
  let nodeID := seedID seedNode in
  if decide (nodeID = myNodeID) then ns
  else
    match knownNodes ns !! nodeID with
    | Some _ => ns
    | None =>
        let newNode :=
          mkNode nodeID (seed_FQDN seedNode) (seed_IP seedNode) "seed" now now true in
        let '(_, _, ns) := addOrUpdateNode ns newNode in ns
    end.

(** [loadSeedNodes]; [seedConfig] is what [LoadSeedConfig] returned. *)
Definition loadSeedNodes (ns : NodeService) (now : Z)
    (seedConfig : result (option SeedConfig)) : option string * NodeService :=
  match seedConfig with
  | Err e => (Some ("failed to load seed config: " ++ e), ns)
  | Ok None => (None, ns)
  | Ok (Some cfg) =>
      match seed_Nodes cfg with
      | [] => (None, ns)
      | _ =>
          match GetNodeID (configSvc ns) with
          | Err e => (Some ("failed to get own node ID: " ++ e), ns)
          | Ok myNodeID => (None, foldl (loadSeedNode now myNodeID) ns (seed_Nodes cfg))
          end
      end
  end.

(** Go iterates a map in an order the runtime picks anew for every [range]
    statement.  [order] is that pick: the keys of the map, each once. *)
Definition iteration_order (m : gmap string Node) (order : list string) : Prop :=
  NoDup order ∧ (list_to_set order : gset string) = dom m.

Definition range_map (m : gmap string Node) (order : list string) : list Node :=
  omap (λ k, m !! k) order.

Definition GetActiveNodes (ns : NodeService) (order : list string) : list Node :=
  filter (λ n, IsActive n = true) (range_map (knownNodes ns) order).

Definition GetKnownNodes (ns : NodeService) (order : list string) : list Node :=
  range_map (knownNodes ns) order.

(** [Initialize]: load the cache from the rows of the [nodes] table (as
    [GetAllNodes] returned them), then the seed nodes.  A failure of
    [loadSeedNodes] is logged only.  [GetAllNodes] orders the rows by
    [first_seen]; no two rows share an id, so the cache built does not
    depend on the order. *)
Definition Initialize (ns : NodeService) (now : Z)
    (seedConfig : result (option SeedConfig)) : option string * NodeService :=
  let '(f, ns) := sql ns in
  match f with
  | Some e => (Some ("failed to load existing nodes: failed to query nodes: " ++ e), ns)
  | None =>
      let nodes := (map_to_list (nodeRepo ns)).*2 in
      let ns := with_known ns (foldl (λ m n, <[ID n := n]> m) (knownNodes ns) nodes) in
      let '(_, ns) := loadSeedNodes ns now seedConfig in
      (None, ns)
  end.

(** ** internal/pkg/http/client.go: path discovery *)

Definition mtuSizes : list Z := [1500; 1472; 1460; 1400; 1300; 1200; 1000; 800; 576].

(** [testMTUSize] dials the host and writes [mtu - 40] bytes: what happens
    is up to the network, so the outcome per size is a parameter.  [lo]
    and [hi] are the source's [min] and [max]; the sizes tried stay within
    [576, 1500], far from the limits of [int]. *)
Equations? binarySearchMTU (testMTUSize : Z → bool) (lo hi : Z)
  : Z * option string by wf (Z.to_nat (hi - lo)) lt :=
  binarySearchMTU testMTUSize lo hi with decide (lo >= hi)%Z := {
    | left _ => (lo, None)
    | right _ =>
        if testMTUSize (Z.quot (lo + hi) 2)
        then binarySearchMTU testMTUSize (Z.quot (lo + hi) 2 + 1) hi
        else binarySearchMTU testMTUSize lo (Z.quot (lo + hi) 2 - 1) }.
Proof.
  all: pose proof (Z.quot_rem' (lo + hi) 2);
       pose proof (Z.rem_bound_abs (lo + hi) 2); lia.
Qed.

Definition discoverPathMTU (testMTUSize : Z → bool) : Z * option string :=
  match List.find testMTUSize mtuSizes with
  | Some mtu => (mtu, None)
  | None => binarySearchMTU testMTUSize 576 1500
  end.

Definition HasPrefix (s p : string) : bool := String.prefix p s.

Definition TrimPrefix (s p : string) : string :=
  if HasPrefix s p
  then String.substring (String.length p) (String.length s - String.length p)%nat s
  else s.

(** [TestPathMTU]: cut the host out of the URL, then discover.
    [testMTUSize host mtu] is the network's answer for that host. *)
Definition TestPathMTU (testMTUSize : string → Z → bool) (nodeURL : string)
  : Z * option string :=
  let nodeURL := if HasPrefix nodeURL "https://" then nodeURL else "https://" ++ nodeURL in
  let host := TrimPrefix nodeURL "https://" in
  let host :=
    match String.index 0 "/" host with
    | Some idx => String.substring 0 idx host
    | None => host
    end in
  let host :=
    match String.index 0 ":" host with
    | None => host ++ ":443"
    | Some _ => host
    end in
  match discoverPathMTU (testMTUSize host) with
  | (_, Some e) => (0, Some ("failed to discover path MTU: " ++ e))
  | (mtu, None) => (mtu, None)
  end.

(** ** internal/pkg/sqlite/repository.go: the poll history *)

(** The [poll_results] table with its AUTOINCREMENT counter, the size of
    the database file as [os.Stat] reports it, and the outcomes of the next
    fallible calls ([os.Stat], [ExecContext], [RowsAffected]). *)
Record PollRepo := mkPollRepo {
  poll_results : list PollResult;
  sqlite_sequence : Z;
  file_bytes : Z;
  poll_faults : list (option string)
}.

(** How the storage engine sizes the file: after an INSERT, after a DELETE
    that removed [k] rows, after VACUUM.  The engine is a collaborator of
    the repository, not part of it. *)
Record Pager := mkPager {
  size_after_insert : Z → Z;
  size_after_delete : Z → nat → Z;
  size_after_vacuum : Z → list PollResult → Z
}.

Definition poll_sql (r : PollRepo) : option string * PollRepo :=
  match poll_faults r with
  | [] => (None, r)
  | f :: t => (f, mkPollRepo (poll_results r) (sqlite_sequence r) (file_bytes r) t)
  end.

(** [INSERT INTO poll_results ...]: the row id is the next value of the
    AUTOINCREMENT counter.  (SQLite does not enforce the foreign key unless
    asked to; the repository never asks.) *)
Definition CreatePollResult (pg : Pager) (r : PollRepo) (result : PollResult)
  : option string * PollRepo :=
  let '(f, r) := poll_sql r in
  match f with
  | Some e => (Some ("failed to create poll result: " ++ e), r)
  | None =>
      let id := sqlite_sequence r + 1 in
      let row := mkPollResult id (pr_NodeID result) (pr_PollTime result)
                   (pr_Success result) (pr_ResponseMs result) (pr_Error result)
                   (pr_PathMTU result) in
      (None, mkPollRepo (poll_results r ++ [row])%list id
               (size_after_insert pg (file_bytes r)) (poll_faults r))
  end.

Definition GetDatabaseSize (r : PollRepo) : result Z * PollRepo :=
  let '(f, r) := poll_sql r in
  match f with
  | Some e => (Err ("failed to get database file info: " ++ e), r)
  | None => (Ok (file_bytes r), r)
  end.

Definition poll_time_le (a b : PollResult) : Prop := (pr_PollTime a ≤ pr_PollTime b)%Z.

#[global] Instance poll_time_le_dec a b : Decision (poll_time_le a b).
Proof. unfold poll_time_le. apply _. Defined.

(** [DELETE FROM poll_results WHERE id IN (SELECT id FROM poll_results
    ORDER BY poll_time ASC LIMIT 1000)]: the rows that stay and the number
    of rows affected.  Rows with equal [poll_time] come in the order the
    sort leaves them; SQL leaves that order open. *)
Definition deleteOldestBatch (rows : list PollResult) : list PollResult * Z :=
  let ids := pr_ID <$> take 1000 (merge_sort poll_time_le rows) in
  let rest := filter (λ r, pr_ID r ∉ ids) rows in
  (rest, Z.of_nat (length rows - length rest)).

(** [int64(maxSizeMB * 1024 * 1024)] on 64-bit [int]. *)
Definition wrap64 (z : Z) : Z := (z + 2 ^ 63) mod 2 ^ 64 - 2 ^ 63.

(** The [for currentSize > maxSizeBytes] loop.  Every turn that does not
    leave the loop removes a row, so [fuel] above the number of rows is
    never used up; [None] is "out of fuel". *)
Fixpoint cleanupLoop (pg : Pager) (fuel : nat) (r : PollRepo)
    (currentSize maxSizeBytes : Z) : option (option string * PollRepo) :=
  match fuel with
  | O => None
  | S fuel =>
      if decide (currentSize > maxSizeBytes)%Z then
        let '(f, r) := poll_sql r in
        match f with
        | Some e => Some (Some ("failed to cleanup old results: " ++ e), r)
        | None =>
            let '(rest, rowsAffected) := deleteOldestBatch (poll_results r) in
            let r := mkPollRepo rest (sqlite_sequence r)
                       (size_after_delete pg (file_bytes r) (Z.to_nat rowsAffected))
                       (poll_faults r) in
            let '(f, r) := poll_sql r in
            match f with
            | Some e => Some (Some ("failed to get rows affected: " ++ e), r)
            | None =>
                if decide (rowsAffected = 0) then Some (None, r)
                else
                  let '(sz, r) := GetDatabaseSize r in
                  match sz with
                  | Err e => Some (Some e, r)
                  | Ok currentSize => cleanupLoop pg fuel r currentSize maxSizeBytes
                  end
            end
        end
      else Some (None, r)
  end.

Definition CleanupOldResults (pg : Pager) (r : PollRepo) (maxSizeMB : Z)
  : option (option string * PollRepo) :=
  let '(sz, r) := GetDatabaseSize r in
  match sz with
  | Err e => Some (Some e, r)
  | Ok currentSize =>
      let maxSizeBytes := wrap64 (wrap64 (wrap64 (maxSizeMB * 1024) * 1024)) in
      if decide (currentSize <= maxSizeBytes)%Z then Some (None, r)
      else
        match cleanupLoop pg (S (length (poll_results r))) r currentSize maxSizeBytes with
        | None => None
        | Some (Some e, r) => Some (Some e, r)
        | Some (None, r) =>
            let '(f, r) := poll_sql r in
            match f with
            | Some e => Some (Some ("failed to vacuum database: " ++ e), r)
            | None =>
                Some (None, mkPollRepo (poll_results r) (sqlite_sequence r)
                              (size_after_vacuum pg (file_bytes r) (poll_results r))
                              (poll_faults r))
            end
        end
  end.

(** ** internal/app/polling_service.go *)

Record PollingService := mkPS {
  nodeService : NodeService;
  pollRepo : PollRepo;
  nodeIndex : Z;
  firstPolls : gmap string bool
}.

(** What one tick meets outside the process: the order in which the
    runtime ranges over the registry, the clock readings, and the answers
    of the network. *)
Record Tick := mkTick {
  range_order : list string;
  startTime : Z;
  endTime : Z;
  mergeTime : Z;
  net_testMTUSize : string → Z → bool;
  net_GetNodeInfo : string → result NodeInfo
}.

Definition set_PathMTU (v : Z) (p : PollResult) : PollResult :=
  mkPollResult (pr_ID p) (pr_NodeID p) (pr_PollTime p) (pr_Success p)
    (pr_ResponseMs p) (pr_Error p) v.

(** Where [PollNode] sends the probe. *)
Definition nodeURL (node : Node) : string :=
  if decide (FQDN node = "" ∨ FQDN node = "unknown")
  then "https://" ++ IP node ++ ":443"
  else "https://" ++ FQDN node ++ ":443".

Definition PollNode (ps : PollingService) (t : Tick) (node : Node)
  : PollResult * option string * PollingService :=
  let result := mkPollResult 0 (ID node) (startTime t) false 0 "" 0 in
  let nodeURL := nodeURL node in
  let isFirstPoll := negb (default false (firstPolls ps !! ID node)) in
  let fp := if isFirstPoll then <[ID node := true]> (firstPolls ps) else firstPolls ps in
  let result :=
    if isFirstPoll then
      match TestPathMTU (net_testMTUSize t) nodeURL with
      | (mtu, None) => set_PathMTU mtu result
      | (_, Some _) => result
      end
    else result in
  let responseMs := endTime t - startTime t in
  match net_GetNodeInfo t nodeURL with
  | Err e =>
      (mkPollResult (pr_ID result) (pr_NodeID result) (pr_PollTime result) false
         responseMs e (pr_PathMTU result),
       None,
       mkPS (nodeService ps) (pollRepo ps) (nodeIndex ps) fp)
  | Ok nodeInfo =>
      let '(_, ns) := MergeNodeInfo (nodeService ps) (mergeTime t) (Some nodeInfo) (ID node) in
      (mkPollResult (pr_ID result) (pr_NodeID result) (pr_PollTime result) true
         responseMs (pr_Error result) (pr_PathMTU result),
       None,
       mkPS ns (pollRepo ps) (nodeIndex ps) fp)
  end.

(** The rotation of [pollNextNode]: clamp the cursor, take it, advance it.
    The cursor taken is below [len(filteredNodes)], so the increment cannot
    overflow. *)
Definition rotate (nodeIndex : Z) (len : nat) : Z * Z :=
  let nodeIndex := if decide (nodeIndex >= Z.of_nat len)%Z then 0 else nodeIndex in
  (nodeIndex, nodeIndex + 1).

(** The node a tick selects, if any. *)
Definition filteredNodes (ps : PollingService) (order : list string) : list Node :=
  filter (λ n, ID n ≠ nodeID (configSvc (nodeService ps)))
         (GetActiveNodes (nodeService ps) order).

Definition pollNextNode (pg : Pager) (ps : PollingService) (t : Tick)
  : option string * PollingService :=
  match GetActiveNodes (nodeService ps) (range_order t) with
  | [] => (None, ps)
  | nodes =>
      match GetNodeID (configSvc (nodeService ps)) with
      | Err e => (Some ("failed to get own node ID: " ++ e), ps)
      | Ok myNodeID =>
          match filter (λ n, ID n ≠ myNodeID) nodes with
          | [] => (None, ps)
          | filtered =>
              let '(nodeToPolI, next) := rotate (nodeIndex ps) (length filtered) in
              let ps := mkPS (nodeService ps) (pollRepo ps) next (firstPolls ps) in
              match filtered !! Z.to_nat nodeToPolI with
              | None => (Some "panic: index out of range", ps)
              | Some nodeToPoll =>
                  let '(result, err, ps) := PollNode ps t nodeToPoll in
                  match err with
                  | Some _ => (None, ps)
                  | None =>
                      let '(_, repo) := CreatePollResult pg (pollRepo ps) result in
                      let '(_, ns) :=
                        UpdateNodeStatus (nodeService ps) (ID nodeToPoll) (pr_Success result) in
                      (None, mkPS ns repo (nodeIndex ps) (firstPolls ps))
                  end
              end
          end
      end
  end.

(** The nodes probed so far, oldest first, as the poll history records
    them. *)
Definition probed (ps : PollingService) : list string :=
  pr_NodeID <$> poll_results (pollRepo ps).

(** ** States, operations and observations used by the properties *)

(** Every cached node is filed under its own id.  [Initialize] and
    [addOrUpdateNode] are the only writers of [knownNodes] and both file a
    node under [node.ID]; the embedding of the in-place writes relies on
    it. *)
Definition registry_wf (ns : NodeService) : Prop :=
  ∀ k n, knownNodes ns !! k = Some n → ID n = k.

(** Cache and table agree on who exists and on [first_seen]. *)
Definition consistent (ns : NodeService) : Prop :=
  ∀ k n, knownNodes ns !! k = Some n →
         ∃ r, nodeRepo ns !! k = Some r ∧ FirstSeen r = FirstSeen n.

(** The operations that write the registry. *)
Inductive op : Type :=
| OpMerge (now : Z) (nodeInfo : option NodeInfo) (discoveredBy : string)
| OpSeeds (now : Z) (seedConfig : result (option SeedConfig))
| OpUpsert (node : Node)
| OpStatus (nodeID : string) (isActive : bool).

Definition apply_op (ns : NodeService) (o : op) : NodeService :=
  match o with
  | OpMerge now nodeInfo discoveredBy => (MergeNodeInfo ns now nodeInfo discoveredBy).2
  | OpSeeds now seedConfig => (loadSeedNodes ns now seedConfig).2
  | OpUpsert node => (addOrUpdateNode ns node).2
  | OpStatus nodeID isActive => (UpdateNodeStatus ns nodeID isActive).2
  end.

Definition run (ops : list op) (ns : NodeService) : NodeService :=
  foldl apply_op ns ops.

(** Merges, seed loads and liveness flips: what the background protocol
    does to the registry. *)
Definition protocol_op (o : op) : Prop :=
  match o with
  | OpUpsert _ => False
  | _ => True
  end.

(** The registry invariant behind the [first_seen] property; [o] names
    an id to follow and the timestamp recorded when its row was created,
    or nothing. *)
Definition created_at (o : option (string * Z)) (ns : NodeService) : Prop :=
  registry_wf ns ∧ consistent ns ∧
  match o with
  | None => True
  | Some (id, t) => ∃ n, knownNodes ns !! id = Some n ∧ FirstSeen n = t
  end.

(** The node written for a known id: locators of the report, fresh
    [last_seen], the rest as cached. *)
Definition drifted (now : Z) (x e : Node) : Node :=
  mkNode (ID e) (FQDN x) (IP x) (DiscoveredBy e) (FirstSeen e) now (IsActive e).

(** Self-exclusion: the registry of the process whose id is [self] has no
    entry under [self]. *)
Definition self_excluded (self : string) (ns : NodeService) : Prop :=
  registry_wf ns ∧ nodeID (configSvc ns) = self ∧ knownNodes ns !! self = None.

(** *** One key at a time

    With the driver healthy, a merge acts on each id independently: what
    happens to the cache entry and the table row of [k] depends only on
    these two and on the reported nodes whose id is [k]. *)

Definition view (k : string) (ns : NodeService) : option Node * option Node :=
  (knownNodes ns !! k, nodeRepo ns !! k).

Definition key_upsert (n : Node) (s : option Node * option Node)
  : option Node * option Node :=
  let n' := match s.2 with
            | Some ex => set_FirstSeen (FirstSeen ex) n
            | None => n
            end in
  (Some n', Some n').

Definition key_merge (now : Z) (rep : string) (x : Node)
    (s : option Node * option Node) : option Node * option Node :=
  match s.1 with
  | None => key_upsert (mkNode (ID x) (FQDN x) (IP x) rep now now true) s
  | Some e => key_upsert (drifted now x e) s
  end.

Definition key_step (k self : string) (now : Z) (rep : string)
    (s : option Node * option Node) (x : Node) : option Node * option Node :=
  if decide (ID x = k ∧ ID x ≠ self) then key_merge now rep x s else s.

(** The last reported node that the loop processes for [k]. *)
Fixpoint lastMatch (k self : string) (xs : list Node) : option Node :=
  match xs with
  | [] => None
  | x :: xs =>
      match lastMatch k self xs with
      | Some y => Some y
      | None => if decide (ID x = k ∧ ID x ≠ self) then Some x else None
      end
  end.

(** The ids a merge of [info] writes. *)
Definition touched (self : string) (info : NodeInfo) (k : string) : Prop :=
  k ≠ self ∧ (k = ni_ID info ∨ k ∈ ID <$> ni_Nodes info).

#[global] Instance touched_dec self info k : Decision (touched self info k).
Proof. unfold touched. apply _. Defined.

(** [m2] is [m1] with [last_seen] set to [now] on the ids in [T], and
    nothing else changed. *)
Definition refreshed (now : Z) (T : string → Prop) `{∀ k, Decision (T k)}
    (m1 m2 : gmap string Node) : Prop :=
  ∀ k, m2 !! k = if decide (T k) then set_LastSeen now <$> m1 !! k else m1 !! k.

(** A write-through fails when the driver refuses the lookup or, the lookup
    having passed, the INSERT or UPDATE. *)
Definition write_through_fails (ns : NodeService) : Prop :=
  match faults ns with
  | Some _ :: _ => True
  | None :: Some _ :: _ => True
  | _ => False
  end.

(** *** A small registry to run the operations on *)

Definition ex_cfg : ConfigService := mkConfig "me".

Definition ex_P : Node := mkNode "p" "p.example.com" "10.0.0.2" "seed" 1 1 true.

Definition ex_Q : Node := mkNode "q1" "q.example.com" "10.0.0.3" "" 0 0 false.

(** One peer, learnt from the seed list at time 1; healthy driver. *)
Definition ex_ns : NodeService := mkNS {["p" := ex_P]} ex_cfg {["p" := ex_P]} [].

(** The same registry in front of a driver that fails now and then. *)
Definition ex_ns_flaky : NodeService :=
  mkNS {["p" := ex_P]} ex_cfg {["p" := ex_P]}
       [None; Some "disk I/O error"; None; None; Some "database is locked"].

(** The same registry when the next INSERT is going to fail. *)
Definition ex_ns_failing : NodeService :=
  mkNS {["p" := ex_P]} ex_cfg {["p" := ex_P]} [None; Some "disk I/O error"].

(** What [p] answers to a probe: itself, a peer [q1], and the prober. *)
Definition ex_info : NodeInfo :=
  mkNodeInfo "p" "p.example.com" "10.0.0.9"
    [ex_Q; mkNode "me" "me.example.com" "10.0.0.1" "seed" 0 0 true].

Definition ex_ops : list op :=
  [ OpMerge 5 (Some ex_info) "p";
    OpUpsert (mkNode "p" "p2.example.com" "10.0.0.7" "report" 7 7 true);
    OpSeeds 8 (Ok (Some (mkSeedConfig [mkSeedNode "a.example.com" "10.0.0.1"])));
    OpStatus "p" false;
    OpMerge 9 (Some ex_info) "report" ].

(** *** A polling service to run ticks on *)

(** An engine that keeps freed pages in the file until VACUUM. *)
Definition ex_pager : Pager :=
  mkPager (λ sz, sz + 64)%Z (λ sz _, sz)
          (λ sz rows, Z.min sz (4096 + 64 * Z.of_nat (length rows)))%Z.

Definition ex_repo : PollRepo := mkPollRepo [] 0 8192 [].

Definition ex_ps : PollingService := mkPS ex_ns ex_repo 0 ∅.

(** A tick during which nothing gets through to any host. *)
Definition ex_tick_down : Tick :=
  mkTick ["p"] 100 130 130 (λ _ _, false)
         (λ _, Err "failed to make request: dial tcp 10.0.0.2:443: i/o timeout").

(** A history of three probes in a file above the budget. *)
Definition ex_repo_full : PollRepo :=
  mkPollRepo [mkPollResult 1 "p" 30 true 12 "" 1500;
              mkPollResult 2 "p" 10 false 30000 "timeout" 0;
              mkPollResult 3 "p" 20 true 15 "" 0]
             3 (11 * 1024 * 1024) [].

(** The cursors [n] consecutive ticks take over a list of [len] peers,
    starting from [nodeIndex]. *)
Fixpoint picks (n : nat) (nodeIndex : Z) (len : nat) : list Z :=
  match n with
  | O => []
  | S n => (rotate nodeIndex len).1 :: picks n (rotate nodeIndex len).2 len
  end.

(** Two active peers, [a] and [b], and what they answer to a probe. *)
Definition ex_A : Node := mkNode "a" "a.example.com" "10.0.0.1" "seed" 1 1 true.

Definition ex_B : Node := mkNode "b" "b.example.com" "10.0.0.2" "seed" 2 2 true.

Definition ex_ps2 : PollingService :=
  mkPS (mkNS {["a" := ex_A; "b" := ex_B]} ex_cfg {["a" := ex_A; "b" := ex_B]} [])
       ex_repo 0 ∅.

Definition ex_answer (url : string) : result NodeInfo :=
  if decide (url = "https://b.example.com:443")
  then Ok (mkNodeInfo "b" "b.example.com" "10.0.0.2" [])
  else Ok (mkNodeInfo "a" "a.example.com" "10.0.0.1" []).

(** Two ticks on a healthy network; the runtime ranges over the registry
    as [a, b] during the first and as [b, a] during the second. *)
Definition ex_tick1 : Tick := mkTick ["a"; "b"] 100 110 110 (λ _ _, true) ex_answer.

Definition ex_tick2 : Tick := mkTick ["b"; "a"] 200 210 210 (λ _ _, true) ex_answer.

(** Who is registered, and who is active. *)
Definition liveness (ps : PollingService) : gmap string bool :=
  IsActive <$> knownNodes (nodeService ps).

(** The cursor after [n] ticks over a list of [len] peers. *)
Fixpoint cursor (n : nat) (nodeIndex : Z) (len : nat) : Z :=
  match n with
  | O => nodeIndex
  | S n => cursor n (rotate nodeIndex len).2 len
  end.

(** ** Further operations of the node service *)

(** [GetNodeByID]: a copy of the cached node, or an error. *)
Definition GetNodeByID (ns : NodeService) (nodeID : string) : result Node :=
  match knownNodes ns !! nodeID with
  | None => Err ("node " ++ nodeID ++ " not found")
  | Some node => Ok node
  end.

(** [DiscoverNodes]: collect copies of the active nodes, then write each
    copy to the table with [last_seen = now].  The cache is only read.
    [order] is the order of the [range] over the registry; a failing
    UPDATE is logged and the loop goes on. *)
Definition refreshRow (now : Z) (ns : NodeService) (node : Node) : NodeService :=
  (UpdateNode ns (set_LastSeen now node)).2.

Definition DiscoverNodes (ns : NodeService) (order : list string) (now : Z)
  : option string * NodeService :=
  let activeNodes := GetActiveNodes ns order in
  (None, foldl (refreshRow now) ns activeNodes).

(** The registry never shrinks: [ns'] knows every id [ns] knows, in the
    cache and in the table. *)
Definition grows (ns ns' : NodeService) : Prop :=
  dom (knownNodes ns) ⊆ dom (knownNodes ns') ∧ dom (nodeRepo ns) ⊆ dom (nodeRepo ns').

(** The first seed entry of a list that is given the id [k]. *)
Fixpoint firstSeed (k : string) (seeds : list SeedNode) : option SeedNode :=
  match seeds with
  | [] => None
  | s :: seeds => if decide (seedID s = k) then Some s else firstSeed k seeds
  end.




(** A seed file with two entries, the second one twice. *)
Definition ex_seeds : SeedConfig :=
  mkSeedConfig [mkSeedNode "a.example.com" "10.0.0.1";
                mkSeedNode "b.example.com" "10.0.0.2";
                mkSeedNode "b.example.com" "10.0.0.2"].

(** A service just constructed over a table that already has [p]:
    [NewNodeService] starts with an empty cache. *)
Definition ex_ns_fresh : NodeService := mkNS {["p" := ex_P]} ex_cfg ∅ [].

(** A polling service whose registry is empty. *)
Definition ex_ps_empty : PollingService :=
  mkPS (mkNS ∅ ex_cfg ∅ []) ex_repo 0 ∅.

(** A tick over the registry of [ex_ps2] during which [a] does not answer. *)
Definition ex_tick_a_down : Tick :=
  mkTick ["a"; "b"] 100 30100 30100 (λ _ _, true)
         (λ _, Err "failed to make request: context deadline exceeded").

(** Whether the probe of a tick got its answer from [node]. *)
Definition probe_ok (t : Tick) (node : Node) : bool :=
  match net_GetNodeInfo t (nodeURL node) with
  | Ok _ => true
  | Err _ => false
  end.

(** Consecutive ticks, and the runs during which every tick computes the
    same list of eligible peers: the same ids in the same order. *)
Fixpoint run_ticks (pg : Pager) (ps : PollingService) (ts : list Tick) : PollingService :=
  match ts with
  | [] => ps
  | t :: ts => run_ticks pg (pollNextNode pg ps t).2 ts
  end.

Fixpoint same_peers (pg : Pager) (ids : list string) (ps : PollingService)
    (ts : list Tick) : Prop :=
  match ts with
  | [] => True
  | t :: ts =>
      ID <$> filteredNodes ps (range_order t) = ids ∧
      same_peers pg ids (pollNextNode pg ps t).2 ts
  end.

Definition ex_tick3 : Tick := mkTick ["a"; "b"] 200 210 210 (λ _ _, true) ex_answer.

(** Row ids of the history: distinct, and none above the AUTOINCREMENT
    counter. *)
Definition history_ids_fresh (r : PollRepo) : Prop :=
  NoDup (pr_ID <$> poll_results r) ∧
  Forall (λ row, (pr_ID row <= sqlite_sequence r)%Z) (poll_results r).

(** [int64(maxSizeMB * 1024 * 1024)], the budget of [CleanupOldResults]. *)
Definition maxSizeBytes (maxSizeMB : Z) : Z :=
  wrap64 (wrap64 (wrap64 (maxSizeMB * 1024) * 1024)).

(** ** internal/app/reporting_service.go: the reporting service *)

Record ReportingConfig := mkReportingConfig {
  ServerFQDN : string;
  ServerIP : string
}.

(** Where [SendReport] pushes the snapshot. *)
Definition reportingURL (c : ReportingConfig) : string :=
  if decide (ServerFQDN c = "" ∨ ServerFQDN c = "unknown")
  then "https://" ++ ServerIP c ++ ":443"
  else "https://" ++ ServerFQDN c ++ ":443".

(** [SendReport].  [reportingConfig] is what [LoadReportingConfig]
    returned and [nodeInfo] what [GetNodeInfo] returned; [send] is
    [SendNetworkSnapshot], the network.  Beside the error, the request
    made, if one was made. *)
Definition SendReport (reportingConfig : result (option ReportingConfig))
    (nodeInfo : result NodeInfo) (ns : NodeService) (order : list string) (now : Z)
    (send : string → NetworkSnapshot → option string)
  : option string * option (string * NetworkSnapshot) :=
  match reportingConfig with
  | Err e => (Some ("failed to load reporting config: " ++ e), None)
  | Ok None => (None, None)
  | Ok (Some reportingConfig) =>
      match nodeInfo with
      | Err e => (Some ("failed to get node info: " ++ e), None)
      | Ok nodeInfo =>
          let nodes := GetKnownNodes ns order in
          let snapshot := mkNetworkSnapshot now (ni_ID nodeInfo) nodes in
          let reportingURL := reportingURL reportingConfig in
          match send reportingURL snapshot with
          | Some e =>
              (Some ("failed to send network snapshot: " ++ e),
               Some (reportingURL, snapshot))
          | None => (None, Some (reportingURL, snapshot))
          end
      end
  end.

(** ** The web server: [/report] *)

Record WebServer := mkWS {
  ws_nodeService : NodeService;
  receivedReports : list NetworkSnapshot
}.

(** A request to [/report]: its method, and what decoding its body as a
    [NetworkSnapshot] gives ([None] when the decoder fails). *)
Record Request := mkRequest {
  req_Method : string;
  req_Body : option NetworkSnapshot
}.

(** [handleReport]: the status written and the server afterwards.  A
    failed merge is logged only. *)
Definition handleReport (ws : WebServer) (r : Request) (now : Z) : Z * WebServer :=
  if decide (req_Method r ≠ "POST") then (405, ws)
  else
    match req_Body r with
    | None => (400, ws)
    | Some snapshot =>
        let reports := (receivedReports ws ++ [snapshot])%list in
        let reports :=
          if decide (100 < length reports)%nat then drop 1 reports else reports in
        let '(_, ns) := mergeReport (ws_nodeService ws) now snapshot in
        (200, mkWS ns reports)
    end.

(** Requests served one after the other, each with the time of its merge. *)
Definition serve (ws : WebServer) (reqs : list (Request * Z)) : WebServer :=
  foldl (λ ws rq, (handleReport ws rq.1 rq.2).2) ws reqs.

(** The snapshots of the requests that [handleReport] accepts. *)
Definition accepted (reqs : list (Request * Z)) : list NetworkSnapshot :=
  omap (λ rq, if decide (req_Method rq.1 ≠ "POST") then None else req_Body rq.1) reqs.

(** ** [Start] and [Stop] of the polling and the reporting service

    Both services guard their loop with the same two fields: [running],
    and [stopChan], which [Stop] closes.  [loops] counts the loop
    goroutines started. *)
Record Lifecycle := mkLifecycle {
  running : bool;
  stopChan_closed : bool;
  loops : nat
}.

(** [NewPollingService], [NewReportingService]. *)
Definition NewLifecycle : Lifecycle := mkLifecycle false false 0.

Inductive outcome : Type :=
  | Returns (err : option string)
  | Panics (msg : string).

Definition Start (name : string) (l : Lifecycle) : outcome * Lifecycle :=
  if running l then (Returns (Some (name ++ " is already running")), l)
  else (Returns None, mkLifecycle true (stopChan_closed l) (S (loops l))).

(** [close] of a closed channel panics; [running] is already false then. *)
Definition Stop (name : string) (l : Lifecycle) : outcome * Lifecycle :=
  if negb (running l) then (Returns (Some (name ++ " is not running")), l)
  else if stopChan_closed l
       then (Panics "close of closed channel", mkLifecycle false true (loops l))
       else (Returns None, mkLifecycle false true (loops l)).

Inductive call : Type := CallStart | CallStop.

Definition do_call (name : string) (l : Lifecycle) (c : call) : outcome * Lifecycle :=
  match c with
  | CallStart => Start name l
  | CallStop => Stop name l
  end.

(** The outcomes of a sequence of calls; a panic ends it. *)
Fixpoint calls (name : string) (l : Lifecycle) (cs : list call) : list (call * outcome) :=
  match cs with
  | [] => []
  | c :: cs =>
      let '(o, l') := do_call name l c in
      match o with
      | Panics _ => [(c, o)]
      | Returns _ => (c, o) :: calls name l' cs
      end
  end.

(** A sender that knows [a] and [b], and the server it reports to. *)
Definition ex_sender : NodeService :=
  mkNS {["a" := ex_A; "b" := ex_B]} (mkConfig "s") {["a" := ex_A; "b" := ex_B]} [].

Definition ex_ws : WebServer := mkWS ex_ns [].

Definition ex_reporting : ReportingConfig := mkReportingConfig "" "10.0.0.9".

Definition ex_snapshot : NetworkSnapshot := mkNetworkSnapshot 50 "s" [ex_A; ex_B].

(** A [Stop] that returned [nil]. *)
Definition clean_stop (co : call * outcome) : bool :=
  match co with
  | (CallStop, Returns None) => true
  | _ => false
  end.

(** A tick during which no peer that answers claims the id [k] as its
    own. *)
Definition no_answer_from (k : string) (t : Tick) : Prop :=
  ∀ url info, net_GetNodeInfo t url = Ok info → ni_ID info ≠ k.

(** [a] is active, [b] is marked inactive; [a] answers every probe and
    lists [b] as a node it knows. *)
Definition ex_ps_b_down : PollingService :=
  mkPS (mkNS {["a" := ex_A; "b" := set_IsActive false ex_B]} ex_cfg
             {["a" := ex_A; "b" := set_IsActive false ex_B]} [])
       ex_repo 0 ∅.

Definition ex_tick_a_lists_b : Tick :=
  mkTick ["a"; "b"] 100 110 110 (λ _ _, true)
         (λ _, Ok (mkNodeInfo "a" "a.example.com" "10.0.0.1" [ex_B])).

(** A peer that answers with a node the registry has not heard of. *)
Definition ex_C : Node := mkNode "c" "c.example.com" "10.0.0.4" "a" 5 5 true.

Definition ex_tick_a_lists_c : Tick :=
  mkTick ["a"; "b"] 100 110 110 (λ _ _, true)
         (λ _, Ok (mkNodeInfo "a" "a.example.com" "10.0.0.1" [ex_C])).

(** * Properties *)

(** ** Record bookkeeping *)

Lemma set_FQDN_same n f : FQDN n = f → set_FQDN f n = n.
Proof. destruct n; simpl; intros ->; reflexivity. Qed.

Lemma set_IP_same n i : IP n = i → set_IP i n = n.
Proof. destruct n; simpl; intros ->; reflexivity. Qed.

Lemma set_FirstSeen_same n t : FirstSeen n = t → set_FirstSeen t n = n.
Proof. destruct n; simpl; intros ->; reflexivity. Qed.

(** The three guarded assignments of the merge loop amount to plain ones. *)
Lemma drift_assign (e x : Node) (now : Z) :
  set_LastSeen now
    (if decide (IP (if decide (FQDN e = FQDN x) then e else set_FQDN (FQDN x) e) = IP x)
     then (if decide (FQDN e = FQDN x) then e else set_FQDN (FQDN x) e)
     else set_IP (IP x) (if decide (FQDN e = FQDN x) then e else set_FQDN (FQDN x) e))
  = mkNode (ID e) (FQDN x) (IP x) (DiscoveredBy e) (FirstSeen e) now (IsActive e).
Proof.
  destruct e; simpl. repeat case_decide; simpl in *; subst; reflexivity.
Qed.

Lemma mergeNode_eq now self rep ns x :
  mergeNode now self rep ns x =
  if decide (ID x = self) then ns
  else match knownNodes ns !! ID x with
       | None => (addOrUpdateNode ns (mkNode (ID x) (FQDN x) (IP x) rep now now true)).2
       | Some e =>
           let r := addOrUpdateNode
                      (with_known ns (<[ID x := drifted now x e]> (knownNodes ns)))
                      (drifted now x e) in
           with_known r.2 (<[ID x := r.1.2]> (knownNodes r.2))
       end.
Proof.
  unfold mergeNode. case_decide; [done|].
  destruct (knownNodes ns !! ID x) as [e|]; cbv zeta.
  - rewrite drift_assign. fold (drifted now x e).
    by destruct (addOrUpdateNode _ _) as [[? ?] ?].
  - by destruct (addOrUpdateNode _ _) as [[? ?] ?].
Qed.

(** ** The repository and [addOrUpdateNode] *)

(** Everything a call of [addOrUpdateNode] can do.  On success cache and
    table hold the node under its id, with the table's [first_seen] if
    the row was there; on failure neither is written. *)
Lemma addOrUpdateNode_cases ns n e n' ns' :
  addOrUpdateNode ns n = (e, n', ns') →
  configSvc ns' = configSvc ns ∧
  ID n' = ID n ∧
  (n' = n ∨ ∃ ex, nodeRepo ns !! ID n = Some ex ∧ n' = set_FirstSeen (FirstSeen ex) n) ∧
  ((e = None ∧
    n' = match nodeRepo ns !! ID n with
         | Some ex => set_FirstSeen (FirstSeen ex) n
         | None => n
         end ∧
    knownNodes ns' = <[ID n := n']> (knownNodes ns) ∧
    nodeRepo ns' = <[ID n := n']> (nodeRepo ns))
   ∨ (is_Some e ∧ knownNodes ns' = knownNodes ns ∧ nodeRepo ns' = nodeRepo ns)).
Proof.
  unfold addOrUpdateNode, GetNode, CreateNode, UpdateNode, sql.
  destruct ns as [d c k fs]; simpl.
  destruct fs as [|[m|] fs]; simpl;
    destruct (d !! ID n) as [ex|] eqn:Hd; simpl;
    try (destruct fs as [|[m'|] fs]; simpl; rewrite ?Hd; simpl);
    intros [= <- <- <-]; simpl; rewrite ?Hd; naive_solver.
Qed.

Lemma UpdateNode_cases ns n e ns' :
  UpdateNode ns n = (e, ns') →
  configSvc ns' = configSvc ns ∧ knownNodes ns' = knownNodes ns ∧
  ((e = None ∧ is_Some (nodeRepo ns !! ID n) ∧ nodeRepo ns' = <[ID n := n]> (nodeRepo ns))
   ∨ nodeRepo ns' = nodeRepo ns).
Proof.
  unfold UpdateNode, sql. destruct ns as [d c k fs]; simpl.
  destruct fs as [|[m|] fs]; simpl;
    destruct (d !! ID n) eqn:Hd; simpl; intros [= <- <-]; simpl; naive_solver.
Qed.

(** Both conditions can be checked by computation on a given registry. *)
Lemma registry_wf_check ns :
  bool_decide (map_Forall (λ k n, ID n = k) (knownNodes ns)) = true → registry_wf ns.
Proof. intros H. apply bool_decide_eq_true in H. exact H. Qed.

Lemma consistent_check ns :
  bool_decide (map_Forall
                 (λ k n, FirstSeen <$> nodeRepo ns !! k = Some (FirstSeen n))
                 (knownNodes ns)) = true →
  consistent ns.
Proof.
  intros H. apply bool_decide_eq_true in H. intros k n Hk.
  specialize (H k n Hk). simpl in H.
  destruct (nodeRepo ns !! k) as [r|]; [|done].
  exists r. split; [done|]. by injection H.
Qed.

(** ** [first_seen] is written once *)

Section FirstSeen.
Variable o : option (string * Z).

(** An in-place write to a cached node that keeps its id and agrees with
    the table on [first_seen]. *)
Lemma created_at_write ns k m :
  created_at o ns → ID m = k →
  (∃ r, nodeRepo ns !! k = Some r ∧ FirstSeen r = FirstSeen m) →
  created_at o (with_known ns (<[k := m]> (knownNodes ns))).
Proof.
  intros (Hwf & Hco & Htr) Hk (r & Hr & Hrm).
  unfold created_at, registry_wf, consistent. simpl. split; [|split].
  - intros k' n'. rewrite lookup_insert. case_decide; [naive_solver|apply Hwf].
  - intros k' n'. rewrite lookup_insert. case_decide; [naive_solver|apply Hco].
  - destruct o as [[id t]|]; [|done]. destruct Htr as (n & Hn & Ht).
    rewrite lookup_insert. case_decide; [|eauto].
    subst k. destruct (Hco _ _ Hn) as (r' & Hr' & Hrt).
    exists m. split; [done|]. congruence.
Qed.

Lemma created_at_upsert ns node e node' ns' :
  created_at o ns → addOrUpdateNode ns node = (e, node', ns') →
  created_at o ns'.
Proof.
  intros (Hwf & Hco & Htr) H.
  apply addOrUpdateNode_cases in H as (_ & Hid & _ & [(-> & Hn' & Hk & Hd)|(_ & Hk & Hd)]).
  - split; [|split].
    + intros k' m. rewrite Hk, lookup_insert. case_decide; [naive_solver|apply Hwf].
    + intros k' m. rewrite Hk, Hd, !lookup_insert.
      case_decide; [naive_solver|apply Hco].
    + destruct o as [[id t]|]; [|done]. destruct Htr as (n & Hn & Ht).
      rewrite Hk, lookup_insert. case_decide as Hc; [|eauto].
      exists node'. split; [done|].
      destruct (Hco _ _ Hn) as (r & Hr & Hrt).
      rewrite Hc, Hr in Hn'. subst node'. simpl. congruence.
  - split; [|split].
    + intros k' m. rewrite Hk. apply Hwf.
    + intros k' m. rewrite Hk, Hd. apply Hco.
    + by rewrite Hk.
Qed.

Lemma created_at_mergeNode now self rep ns x :
  created_at o ns → created_at o (mergeNode now self rep ns x).
Proof.
  intros HJ. rewrite mergeNode_eq. case_decide; [done|].
  destruct (knownNodes ns !! ID x) as [ex|] eqn:Hx.
  - set (e1 := drifted now x ex).
    assert (He1 : ID e1 = ID x ∧ FirstSeen e1 = FirstSeen ex).
    { simpl. destruct HJ as (Hwf & _). split; [by apply Hwf|done]. }
    destruct He1 as [Hid Hfs].
    assert (HJ1 : created_at o (with_known ns (<[ID x := e1]> (knownNodes ns)))).
    { apply created_at_write; [done..|].
      destruct HJ as (_ & Hco & _). destruct (Hco _ _ Hx) as (r & ? & ?).
      exists r. split; [done|congruence]. }
    destruct (addOrUpdateNode _ e1) as [[e e2] ns2] eqn:Hup. cbv zeta. simpl.
    pose proof (created_at_upsert _ _ _ _ _ HJ1 Hup) as HJ2.
    apply addOrUpdateNode_cases in Hup as (_ & Hid2 & Hrel & Hcases).
    apply created_at_write; [done|congruence|].
    destruct HJ1 as (_ & Hco1 & _).
    destruct (Hco1 (ID x) e1) as (r & Hr & Hrt); [simpl; by rewrite lookup_insert_eq|].
    simpl in Hr.
    destruct Hcases as [(_ & He2 & _ & Hd)|(_ & _ & Hd)]; rewrite Hd.
    + exists e2. rewrite <-Hid, lookup_insert_eq. done.
    + exists r. split; [done|].
      destruct Hrel as [->|(r' & Hr' & ->)]; [done|].
      simpl in *. congruence.
  - destruct (addOrUpdateNode _ _) as [[e e2] ns2] eqn:Hup.
    eapply created_at_upsert; eauto.
Qed.

Lemma created_at_fold {A} (f : NodeService → A → NodeService) l :
  (∀ ns a, created_at o ns → created_at o (f ns a)) →
  ∀ ns, created_at o ns → created_at o (foldl f ns l).
Proof. intros Hf. induction l; simpl; eauto. Qed.

Lemma created_at_Merge ns now info by_ :
  created_at o ns → created_at o (MergeNodeInfo ns now info by_).2.
Proof.
  intros HJ. unfold MergeNodeInfo, GetNodeID. destruct info as [info|]; [|done].
  simpl. apply created_at_fold; [intros; by apply created_at_mergeNode|].
  case_decide; [done|].
  destruct (addOrUpdateNode _ _) as [[e e2] ns2] eqn:Hup.
  eapply created_at_upsert; eauto.
Qed.

Lemma created_at_loadSeedNodes ns now cfg :
  created_at o ns → created_at o (loadSeedNodes ns now cfg).2.
Proof.
  intros HJ. unfold loadSeedNodes, GetNodeID.
  destruct cfg as [[cfg|]|]; try done.
  destruct (seed_Nodes cfg) as [|s l] eqn:Hs; [done|]. cbn [snd].
  apply created_at_fold; [|done].
  intros ns0 sd H0. unfold loadSeedNode. case_decide; [done|].
  destruct (knownNodes ns0 !! seedID sd); [done|].
  destruct (addOrUpdateNode _ _) as [[e e2] ns2] eqn:Hup.
  eapply created_at_upsert; eauto.
Qed.

Lemma created_at_UpdateNodeStatus ns k b :
  created_at o ns → created_at o (UpdateNodeStatus ns k b).2.
Proof.
  intros HJ. unfold UpdateNodeStatus.
  destruct (knownNodes ns !! k) as [n|] eqn:Hk; [|done].
  assert (Hidn : ID n = k) by (destruct HJ as (Hwf & _); by apply Hwf).
  assert (HJ1 : created_at o
                  (with_known ns (<[k := set_IsActive b n]> (knownNodes ns)))).
  { destruct HJ as (Hwf & Hco & ?).
    apply created_at_write; [done|simpl; by apply Hwf|].
    destruct (Hco _ _ Hk) as (r & ? & ?). by exists r. }
  destruct (UpdateNode _ _) as [e ns2] eqn:Hup.
  assert (created_at o ns2) as HJ2.
  { apply UpdateNode_cases in Hup as (_ & Hkn & Hd).
    destruct HJ1 as (Hwf & Hco & Htr).
    split; [|split].
    - intros k' m. rewrite Hkn. apply Hwf.
    - intros k' m. rewrite Hkn. intros Hm.
      destruct (Hco _ _ Hm) as (r & Hr & Hrt).
      destruct Hd as [(_ & _ & ->)| ->]; [|eauto].
      rewrite lookup_insert. case_decide as Hc; [|eauto].
      simpl in Hc. subst k'. simpl in Hm. rewrite lookup_insert in Hm.
      simpl in Hidn. rewrite decide_True in Hm by done. naive_solver.
    - by rewrite Hkn. }
  by destruct e.
Qed.

Lemma created_at_run ops ns :
  created_at o ns → created_at o (run ops ns).
Proof.
  unfold run. apply created_at_fold. intros ns0 [] H0; simpl.
  - by apply created_at_Merge.
  - by apply created_at_loadSeedNodes.
  - destruct (addOrUpdateNode ns0 node) as [[e e2] ns2] eqn:Hup.
    eapply created_at_upsert; eauto.
  - by apply created_at_UpdateNodeStatus.
Qed.
End FirstSeen.

(** C1. For a node id present in the registry, any sequence of merges,
    seed loads, direct upserts and liveness flips, with the driver failing
    wherever it likes, leaves [first_seen] as it was, in the cache and in
    the table.  The registry is one the service builds: every node filed
    under its id, cache and table agreeing on [first_seen]. *)
Theorem first_seen_never_changes
    (ns : NodeService) (id : string) (n : Node) (ops : list op) :
  registry_wf ns → consistent ns → knownNodes ns !! id = Some n →
  (∃ n', knownNodes (run ops ns) !! id = Some n' ∧ FirstSeen n' = FirstSeen n) ∧
  (∃ r', nodeRepo (run ops ns) !! id = Some r' ∧ FirstSeen r' = FirstSeen n).
Proof.
  intros Hwf Hco Hn.
  assert (H : created_at (Some (id, FirstSeen n)) (run ops ns)).
  { apply created_at_run. unfold created_at. eauto. }
  destruct H as (_ & Hco' & n' & Hn' & Ht). split; [eauto|].
  destruct (Hco' _ _ Hn') as (r & Hr & Hrt). exists r. split; [done|congruence].
Qed.

Lemma first_seen_never_changes_witness :
  registry_wf ex_ns_flaky ∧ consistent ex_ns_flaky ∧
  knownNodes ex_ns_flaky !! "p" = Some ex_P ∧
  (∃ n', knownNodes (run ex_ops ex_ns_flaky) !! "p" = Some n' ∧ FirstSeen n' = 1) ∧
  (∃ r', nodeRepo (run ex_ops ex_ns_flaky) !! "p" = Some r' ∧ FirstSeen r' = 1).
Proof.
  assert (Hwf : registry_wf ex_ns_flaky) by (apply registry_wf_check; vm_compute; reflexivity).
  assert (Hco : consistent ex_ns_flaky) by (apply consistent_check; vm_compute; reflexivity).
  assert (Hp : knownNodes ex_ns_flaky !! "p" = Some ex_P) by (vm_compute; reflexivity).
  split; [exact Hwf|]. split; [exact Hco|]. split; [exact Hp|].
  exact (first_seen_never_changes ex_ns_flaky "p" ex_P ex_ops Hwf Hco Hp).
Defined.

(** ** Start-up *)

Lemma load_lookup (l : list Node) (m : gmap string Node) k n :
  foldl (λ m n, <[ID n := n]> m) m l !! k = Some n →
  (n ∈ l ∧ ID n = k) ∨ m !! k = Some n.
Proof.
  revert m. induction l as [|a l IH]; intros m; simpl; [by right|].
  intros [[? ?]|H]%IH.
  - left. split; [by right|done].
  - rewrite lookup_insert in H. case_decide.
    + injection H as <-. left. split; [by left|done].
    + by right.
Qed.

(** [Initialize] on a fresh service builds a registry that files every
    node under its id and agrees with the table, provided the rows of the
    table carry their own key as id, as every row written by [CreateNode]
    and [UpdateNode] does. *)
Lemma Initialize_registry ns now seedConfig :
  map_Forall (λ k n, ID n = k) (nodeRepo ns) → knownNodes ns = ∅ →
  registry_wf (Initialize ns now seedConfig).2 ∧
  consistent (Initialize ns now seedConfig).2.
Proof.
  intros Hrows Hempty. unfold Initialize.
  destruct (sql ns) as [f ns1] eqn:Hsql.
  assert (Hns1 : nodeRepo ns1 = nodeRepo ns ∧ knownNodes ns1 = knownNodes ns).
  { unfold sql in Hsql. destruct (faults ns); injection Hsql as <- <-; done. }
  destruct Hns1 as [Hd Hk].
  destruct f as [msg|]; simpl.
  { unfold registry_wf, consistent. rewrite Hk, Hempty.
    split; intros k n; by rewrite lookup_empty. }
  set (ns2 := with_known ns1 _).
  assert (H2 : created_at None ns2).
  { assert (Hin : ∀ k n, knownNodes ns2 !! k = Some n → nodeRepo ns !! k = Some n).
    { intros k n Hn. simpl in Hn. apply load_lookup in Hn as [[Hn <-]|Hn].
      - apply list_elem_of_fmap in Hn as ([k' n'] & -> & Hn).
        apply elem_of_map_to_list in Hn. rewrite Hd in Hn.
        by rewrite <-(Hrows _ _ Hn) in Hn.
      - by rewrite Hk, Hempty, lookup_empty in Hn. }
    split; [|split; [|done]].
    - intros k n Hn. apply Hin in Hn. by apply Hrows in Hn.
    - intros k n Hn. apply Hin in Hn. exists n. simpl. by rewrite Hd. }
  pose proof (created_at_loadSeedNodes None ns2 now seedConfig H2) as (? & ? & _).
  by destruct (loadSeedNodes ns2 now seedConfig).
Qed.

(** ** Self-exclusion *)

Section SelfExclusion.
Variable self : string.

Lemma self_excluded_write ns k m :
  self_excluded self ns → ID m = k → k ≠ self →
  self_excluded self (with_known ns (<[k := m]> (knownNodes ns))).
Proof.
  intros (Hwf & Hc & Hs) Hk Hne. unfold self_excluded, registry_wf. simpl.
  split; [|split; [done|by rewrite lookup_insert_ne]].
  intros k' n'. rewrite lookup_insert. case_decide; [naive_solver|apply Hwf].
Qed.

Lemma self_excluded_upsert ns node e node' ns' :
  self_excluded self ns → ID node ≠ self →
  addOrUpdateNode ns node = (e, node', ns') → self_excluded self ns'.
Proof.
  intros (Hwf & Hc & Hs) Hne H.
  apply addOrUpdateNode_cases in H as (Hcfg & Hid & _ & [(_ & _ & Hk & _)|(_ & Hk & _)]);
    unfold self_excluded, registry_wf; rewrite Hcfg, Hk.
  - split; [|split; [done|by rewrite lookup_insert_ne]].
    intros k' m. rewrite lookup_insert. case_decide; [naive_solver|apply Hwf].
  - done.
Qed.

Lemma self_excluded_mergeNode now rep ns x :
  self_excluded self ns → self_excluded self (mergeNode now self rep ns x).
Proof.
  intros HK. rewrite mergeNode_eq. case_decide as Hne; [done|].
  destruct (knownNodes ns !! ID x) as [ex|] eqn:Hx.
  - assert (Hid : ID (drifted now x ex) = ID x).
    { destruct HK as (Hwf & _). simpl. by apply Hwf. }
    destruct (addOrUpdateNode _ _) as [[e e2] ns2] eqn:Hup. cbv zeta. simpl.
    apply self_excluded_write; [|  |done].
    + eapply self_excluded_upsert; [|  |exact Hup].
      * by apply self_excluded_write.
      * congruence.
    + apply addOrUpdateNode_cases in Hup as (_ & ? & _). congruence.
  - destruct (addOrUpdateNode _ _) as [[e e2] ns2] eqn:Hup.
    eapply self_excluded_upsert; [exact HK| |exact Hup]; done.
Qed.

Lemma self_excluded_fold {A} (f : NodeService → A → NodeService) l :
  (∀ ns a, self_excluded self ns → self_excluded self (f ns a)) →
  ∀ ns, self_excluded self ns → self_excluded self (foldl f ns l).
Proof. intros Hf. induction l; simpl; eauto. Qed.

Lemma self_excluded_Merge ns now info by_ :
  self_excluded self ns → self_excluded self (MergeNodeInfo ns now info by_).2.
Proof.
  intros HK. unfold MergeNodeInfo, GetNodeID. destruct info as [info|]; [|done].
  assert (Hs : nodeID (configSvc ns) = self) by apply HK. rewrite Hs.
  simpl. apply self_excluded_fold; [intros; by apply self_excluded_mergeNode|].
  case_decide; [done|].
  destruct (addOrUpdateNode _ _) as [[e e2] ns2] eqn:Hup.
  eapply self_excluded_upsert; [eassumption| |exact Hup]; done.
Qed.

Lemma self_excluded_loadSeedNodes ns now cfg :
  self_excluded self ns → self_excluded self (loadSeedNodes ns now cfg).2.
Proof.
  intros HK. unfold loadSeedNodes, GetNodeID.
  destruct cfg as [[cfg|]|]; try done.
  destruct (seed_Nodes cfg) as [|s l] eqn:Hs; [done|]. cbn [snd].
  assert (Hself : nodeID (configSvc ns) = self) by apply HK. rewrite Hself.
  apply self_excluded_fold; [|done].
  intros ns0 sd H0. unfold loadSeedNode. case_decide; [done|].
  destruct (knownNodes ns0 !! seedID sd); [done|].
  destruct (addOrUpdateNode _ _) as [[e e2] ns2] eqn:Hup.
  eapply self_excluded_upsert; [eassumption| |exact Hup]; done.
Qed.

Lemma self_excluded_UpdateNodeStatus ns k b :
  self_excluded self ns → self_excluded self (UpdateNodeStatus ns k b).2.
Proof.
  intros HK. unfold UpdateNodeStatus.
  destruct (knownNodes ns !! k) as [n|] eqn:Hk; [|done].
  assert (k ≠ self) by (destruct HK as (_ & _ & ?); congruence).
  assert (ID n = k) by (destruct HK as (Hwf & _); by apply Hwf).
  destruct (UpdateNode _ _) as [e ns2] eqn:Hup.
  assert (self_excluded self ns2) as HJ2.
  { apply UpdateNode_cases in Hup as (Hc & Hkn & _).
    unfold self_excluded, registry_wf. rewrite Hc, Hkn.
    by apply self_excluded_write. }
  by destruct e.
Qed.

Lemma self_excluded_run ops ns :
  Forall protocol_op ops →
  self_excluded self ns → self_excluded self (run ops ns).
Proof.
  unfold run. revert ns.
  induction ops as [|o ops IH]; intros ns Hops HK; [done|].
  apply Forall_cons in Hops as [Ho Hops]. simpl. apply IH; [done|].
  destruct o; simpl in *.
  - by apply self_excluded_Merge.
  - by apply self_excluded_loadSeedNodes.
  - done.
  - by apply self_excluded_UpdateNodeStatus.
Qed.
End SelfExclusion.

(** C6. A registry that files every node under its id and has no entry
    under the process's own id still has none after any sequence of
    merges, seed loads and liveness flips, whatever the driver does. *)
Theorem own_id_never_registered (ns : NodeService) (ops : list op) :
  registry_wf ns → knownNodes ns !! nodeID (configSvc ns) = None →
  Forall protocol_op ops →
  knownNodes (run ops ns) !! nodeID (configSvc ns) = None.
Proof.
  intros Hwf Hs Hops.
  apply (self_excluded_run (nodeID (configSvc ns)) ops ns Hops).
  unfold self_excluded. eauto.
Qed.

Lemma own_id_never_registered_witness :
  registry_wf ex_ns_flaky ∧ knownNodes ex_ns_flaky !! "me" = None ∧
  Forall protocol_op [OpMerge 5 (Some ex_info) "p"; OpStatus "p" false] ∧
  knownNodes (run [OpMerge 5 (Some ex_info) "p"; OpStatus "p" false] ex_ns_flaky)
    !! "me" = None.
Proof.
  assert (Hwf : registry_wf ex_ns_flaky) by (apply registry_wf_check; vm_compute; reflexivity).
  assert (Hs : knownNodes ex_ns_flaky !! nodeID (configSvc ex_ns_flaky) = None)
    by (vm_compute; reflexivity).
  assert (Hops : Forall protocol_op [OpMerge 5 (Some ex_info) "p"; OpStatus "p" false])
    by (repeat constructor).
  split; [exact Hwf|]. split; [exact Hs|]. split; [exact Hops|].
  exact (own_id_never_registered ex_ns_flaky _ Hwf Hs Hops).
Defined.

(** ** Merging with a healthy driver: one key at a time *)

Lemma addOrUpdateNode_healthy ns n :
  faults ns = [] →
  ∃ n' ns', addOrUpdateNode ns n = (None, n', ns') ∧
    faults ns' = [] ∧ configSvc ns' = configSvc ns ∧ ID n' = ID n ∧
    knownNodes ns' = <[ID n := n']> (knownNodes ns) ∧
    ∀ k, view k ns' = if decide (k = ID n) then key_upsert n (view k ns) else view k ns.
Proof.
  destruct ns as [d c m fs]; simpl; intros ->.
  unfold addOrUpdateNode, GetNode, CreateNode, UpdateNode, sql; simpl.
  destruct (d !! ID n) as [ex|] eqn:Hd; simpl; rewrite ?Hd; simpl;
    eexists _, _; (split; [reflexivity|]); simpl; repeat split;
    intros k; unfold view, key_upsert; simpl; rewrite !lookup_insert;
    repeat case_decide; subst; rewrite ?Hd; simpl; congruence.
Qed.

Lemma mergeNode_healthy now self rep ns x :
  registry_wf ns → faults ns = [] →
  let ns' := mergeNode now self rep ns x in
  registry_wf ns' ∧ faults ns' = [] ∧ configSvc ns' = configSvc ns ∧
  ∀ k, view k ns' = key_step k self now rep (view k ns) x.
Proof.
  intros Hwf Hf. cbv zeta. rewrite mergeNode_eq. unfold key_step.
  case_decide as Hs.
  { repeat split; try done. intros k. by rewrite decide_False by tauto. }
  destruct (knownNodes ns !! ID x) as [e|] eqn:Hx.
  - pose proof (Hwf _ _ Hx) as Hid.
    set (ns0 := with_known ns (<[ID x := drifted now x e]> (knownNodes ns))).
    destruct (addOrUpdateNode_healthy ns0 (drifted now x e) Hf)
      as (n' & ns' & Hup & Hf' & Hc' & Hid' & Hk' & Hv).
    rewrite Hup. cbv zeta. cbn [fst snd]. simpl in Hid', Hk'.
    assert (Hsame : with_known ns' (<[ID x := n']> (knownNodes ns')) = ns').
    { destruct ns' as [d' c' m' f']; unfold with_known; simpl in *.
      f_equal. rewrite Hk', Hid, insert_insert_eq. done. }
    rewrite Hsame. repeat split; try done.
    + intros k' m. rewrite Hk', lookup_insert. case_decide; [|simpl].
      * intros [= <-]. simpl in *. congruence.
      * rewrite lookup_insert. case_decide; [naive_solver|apply Hwf].
    + intros k. rewrite Hv. simpl. rewrite Hid.
      unfold key_merge, key_upsert, view; simpl.
      destruct (decide (k = ID x)) as [->|Hk].
      * rewrite decide_True by done. by rewrite Hx.
      * rewrite decide_False by (intros [? ?]; congruence). by rewrite lookup_insert_ne.
  - destruct (addOrUpdateNode_healthy ns (mkNode (ID x) (FQDN x) (IP x) rep now now true) Hf)
      as (n' & ns' & Hup & Hf' & Hc' & Hid' & Hk' & Hv).
    rewrite Hup. cbn [snd]. simpl in Hid', Hk'. repeat split; try done.
    + intros k' m. rewrite Hk', lookup_insert. case_decide; [naive_solver|apply Hwf].
    + intros k. rewrite Hv. simpl.
      unfold key_merge, view; simpl.
      destruct (decide (k = ID x)) as [->|Hk].
      * rewrite decide_True by done. by rewrite Hx.
      * by rewrite decide_False by (intros [? ?]; congruence).
Qed.

Lemma merge_fold_healthy now self rep xs ns :
  registry_wf ns → faults ns = [] →
  let ns' := foldl (mergeNode now self rep) ns xs in
  registry_wf ns' ∧ faults ns' = [] ∧ configSvc ns' = configSvc ns ∧
  ∀ k, view k ns' = foldl (key_step k self now rep) (view k ns) xs.
Proof.
  revert ns. induction xs as [|x xs IH]; intros ns Hwf Hf; simpl; [done|].
  destruct (mergeNode_healthy now self rep ns x Hwf Hf) as (Hwf1 & Hf1 & Hc1 & Hv1).
  destruct (IH _ Hwf1 Hf1) as (Hwf2 & Hf2 & Hc2 & Hv2).
  repeat split; try done; [congruence|].
  intros k. by rewrite Hv2, Hv1.
Qed.

(** The whole merge, seen from key [k]. *)
Lemma MergeNodeInfo_healthy ns now info by_ :
  registry_wf ns → faults ns = [] →
  let ns' := (MergeNodeInfo ns now (Some info) by_).2 in
  registry_wf ns' ∧ faults ns' = [] ∧ configSvc ns' = configSvc ns ∧
  ∀ k, view k ns' =
       foldl (key_step k (nodeID (configSvc ns)) now (ni_ID info))
         (if decide (k = ni_ID info ∧ ni_ID info ≠ nodeID (configSvc ns))
          then key_upsert (mkNode (ni_ID info) (ni_FQDN info) (ni_IP info) by_ now now true)
                          (view k ns)
          else view k ns)
         (ni_Nodes info).
Proof.
  intros Hwf Hf. unfold MergeNodeInfo, GetNodeID. cbv zeta. cbn [snd].
  case_decide as Hs.
  - destruct (merge_fold_healthy now (nodeID (configSvc ns)) (ni_ID info)
                (ni_Nodes info) ns Hwf Hf) as (? & ? & ? & Hv).
    repeat split; try done. intros k. rewrite Hv.
    by rewrite decide_False by tauto.
  - destruct (addOrUpdateNode_healthy ns
                (mkNode (ni_ID info) (ni_FQDN info) (ni_IP info) by_ now now true) Hf)
      as (n' & ns' & Hup & Hf' & Hc' & Hid' & Hk' & Hv').
    rewrite Hup. simpl in Hid', Hk'.
    assert (Hwf' : registry_wf ns').
    { intros k' m. rewrite Hk', lookup_insert. case_decide; [naive_solver|apply Hwf]. }
    destruct (merge_fold_healthy now (nodeID (configSvc ns)) (ni_ID info)
                (ni_Nodes info) ns' Hwf' Hf') as (? & ? & ? & Hv).
    repeat split; try done; [congruence|]. intros k. rewrite Hv, Hv'. simpl.
    destruct (decide (k = ni_ID info)) as [->|Hk].
    + by rewrite !decide_True by done.
    + by rewrite !decide_False by tauto.
Qed.

Section OneKey.
Variables (k self rep : string).

Lemma lastMatch_None xs :
  lastMatch k self xs = None ↔ ¬ (k ≠ self ∧ k ∈ ID <$> xs).
Proof.
  induction xs as [|x xs IH]; simpl.
  - split; [|done]. intros _ [_ H]. by apply elem_of_nil in H.
  - rewrite elem_of_cons. destruct (lastMatch k self xs) as [y|].
    + split; [done|]. intros H. exfalso. apply H.
      destruct (decide (k ≠ self ∧ k ∈ ID <$> xs)) as [?|Hn]; [tauto|].
      apply IH in Hn. done.
    + destruct IH as [IH _]. specialize (IH eq_refl).
      case_decide as Hx; split; try done.
      * intros H. exfalso. apply H. destruct Hx as [<- ?]. tauto.
      * intros _ [? [->|?]]; tauto.
Qed.

Lemma fold_untouched now xs s :
  lastMatch k self xs = None → foldl (key_step k self now rep) s xs = s.
Proof.
  revert s. induction xs as [|x xs IH]; intros s; simpl; [done|].
  destruct (lastMatch k self xs); [done|].
  case_decide as Hx; [done|]. intros _.
  rewrite IH by done. unfold key_step. by rewrite decide_False.
Qed.

(** Once cache and table hold the same node, the loop only moves the
    locators and [last_seen]. *)
Lemma fold_agreeing now xs e :
  foldl (key_step k self now rep) (Some e, Some e) xs =
  match lastMatch k self xs with
  | None => (Some e, Some e)
  | Some y => (Some (drifted now y e), Some (drifted now y e))
  end.
Proof.
  revert e. induction xs as [|x xs IH]; intros e; simpl; [done|].
  unfold key_step at 2. case_decide as Hx.
  - unfold key_merge, key_upsert. simpl.
    rewrite IH. by destruct (lastMatch k self xs).
  - rewrite IH. by destruct (lastMatch k self xs).
Qed.

Lemma key_merge_lands now x s :
  ∃ b, key_merge now rep x s = (Some b, Some b) ∧
       FQDN b = FQDN x ∧ IP b = IP x ∧ LastSeen b = now.
Proof.
  destruct s as [[e|] [r|]]; unfold key_merge, key_upsert; simpl;
    eexists; (split; [reflexivity|]); done.
Qed.

Lemma fold_lands now xs s y :
  lastMatch k self xs = Some y →
  ∃ n, foldl (key_step k self now rep) s xs = (Some n, Some n) ∧
       FQDN n = FQDN y ∧ IP n = IP y ∧ LastSeen n = now.
Proof.
  revert s. induction xs as [|x xs IH]; intros s; simpl; [done|].
  destruct (lastMatch k self xs) as [y'|] eqn:Hl.
  - intros [= ->]. by apply IH.
  - case_decide as Hx; [|done]. intros [= ->].
    unfold key_step at 2. rewrite decide_True by done.
    destruct (key_merge_lands now y s) as (b & -> & ?).
    rewrite fold_agreeing, Hl. eauto.
Qed.

(** Merging the same report again from where the first merge ended:
    the same entry, with the later [last_seen]. *)
Lemma key_idempotent now1 now2 (src : bool) (fq ip by_ : string) xs s0 :
  let pre now s :=
    if src then key_upsert (mkNode k fq ip by_ now now true) s else s in
  let s1 := foldl (key_step k self now1 rep) (pre now1 s0) xs in
  let s2 := foldl (key_step k self now2 rep) (pre now2 s1) xs in
  if decide (src = true ∨ is_Some (lastMatch k self xs))
  then s2 = (set_LastSeen now2 <$> s1.1, set_LastSeen now2 <$> s1.2)
  else s1 = s0 ∧ s2 = s1.
Proof.
  cbv zeta. destruct src.
  - rewrite decide_True by tauto.
    destruct s0 as [c0 [r0|]]; unfold key_upsert; simpl;
      destruct (lastMatch k self xs) as [y|] eqn:Hl;
      repeat (rewrite fold_agreeing, Hl; simpl); reflexivity.
  - destruct (lastMatch k self xs) as [y|] eqn:Hl.
    + rewrite decide_True by eauto.
      destruct (fold_lands now1 xs s0 y Hl) as (n & -> & Hf & Hi & Hn).
      rewrite fold_agreeing, Hl. simpl.
      destruct n; simpl in *; subst; reflexivity.
    + rewrite decide_False by (intros [?|[? ?]]; done).
      by rewrite !fold_untouched.
Qed.
End OneKey.

(** C2. Applying the merge engine twice to the same report (same
    [sourceID], same own id) leaves the registry, cache and table alike, as
    one application left it, except that [last_seen] of the ids the merge
    writes carries the time of the later application.  The driver is
    healthy throughout and the registry files every node under its id. *)
Theorem merge_twice_same_registry
    (ns : NodeService) (now1 now2 : Z) (info : NodeInfo) (sourceID : string) :
  registry_wf ns → faults ns = [] →
  let ns1 := (MergeNodeInfo ns now1 (Some info) sourceID).2 in
  let ns2 := (MergeNodeInfo ns1 now2 (Some info) sourceID).2 in
  refreshed now2 (touched (nodeID (configSvc ns)) info) (knownNodes ns1) (knownNodes ns2) ∧
  refreshed now2 (touched (nodeID (configSvc ns)) info) (nodeRepo ns1) (nodeRepo ns2).
Proof.
  intros Hwf Hf ns1 ns2.
  destruct (MergeNodeInfo_healthy ns now1 info sourceID Hwf Hf) as (Hwf1 & Hf1 & Hc1 & Hv1).
  destruct (MergeNodeInfo_healthy ns1 now2 info sourceID Hwf1 Hf1) as (_ & _ & _ & Hv2).
  fold ns1 in Hc1, Hv1. fold ns2 in Hv2. rewrite Hc1 in Hv2.
  set (self := nodeID (configSvc ns)) in *.
  assert (Hview : ∀ k,
    view k ns2 = if decide (touched self info k)
                 then (set_LastSeen now2 <$> (view k ns1).1,
                       set_LastSeen now2 <$> (view k ns1).2)
                 else view k ns1).
  { intros k.
    pose proof (key_idempotent k self (ni_ID info) now1 now2
                  (bool_decide (k = ni_ID info ∧ ni_ID info ≠ self))
                  (ni_FQDN info) (ni_IP info) sourceID (ni_Nodes info) (view k ns)) as Hk.
    cbv beta zeta in Hk.
    assert (Hpre : ∀ now s,
      (if bool_decide (k = ni_ID info ∧ ni_ID info ≠ self)
       then key_upsert (mkNode k (ni_FQDN info) (ni_IP info) sourceID now now true) s
       else s) =
      (if decide (k = ni_ID info ∧ ni_ID info ≠ self)
       then key_upsert (mkNode (ni_ID info) (ni_FQDN info) (ni_IP info) sourceID now now true) s
       else s)).
    { intros now s.
      destruct (decide (k = ni_ID info ∧ ni_ID info ≠ self)) as [[Hki ?]|Hn].
      - rewrite bool_decide_eq_true_2 by done. by rewrite Hki.
      - by rewrite bool_decide_eq_false_2. }
    rewrite !Hpre, <-Hv1 in Hk. rewrite <-Hv2 in Hk.
    assert (Htouch : touched self info k ↔
              bool_decide (k = ni_ID info ∧ ni_ID info ≠ self) = true
              ∨ is_Some (lastMatch k self (ni_Nodes info))).
    { unfold touched. rewrite bool_decide_eq_true.
      rewrite <-not_eq_None_Some, lastMatch_None.
      destruct (decide (k ≠ self ∧ k ∈ ID <$> ni_Nodes info)); split;
        intros; try tauto.
      - left. intuition congruence.
      - intuition congruence. }
    clear Hpre. destruct (decide (touched self info k)) as [Ht|Ht].
    - by rewrite decide_True in Hk by tauto.
    - rewrite decide_False in Hk by tauto. by destruct Hk as [_ ->]. }
  split; intros k; specialize (Hview k); unfold view in Hview; simpl in Hview;
    case_decide; congruence.
Qed.

Lemma merge_twice_same_registry_witness :
  registry_wf ex_ns ∧ faults ex_ns = [] ∧
  let ns1 := (MergeNodeInfo ex_ns 5 (Some ex_info) "p").2 in
  let ns2 := (MergeNodeInfo ns1 9 (Some ex_info) "p").2 in
  refreshed 9 (touched "me" ex_info) (knownNodes ns1) (knownNodes ns2) ∧
  refreshed 9 (touched "me" ex_info) (nodeRepo ns1) (nodeRepo ns2).
Proof.
  assert (Hwf : registry_wf ex_ns) by (apply registry_wf_check; vm_compute; reflexivity).
  split; [exact Hwf|]. split; [reflexivity|].
  exact (merge_twice_same_registry ex_ns 5 9 ex_info "p" Hwf eq_refl).
Defined.

(** With a healthy driver the reporting node is upserted whenever it is
    not the process itself, known or not: its [discovered_by] becomes the
    [sourceID] of this merge. *)
Lemma reporter_always_upserted ns now info sourceID :
  registry_wf ns → faults ns = [] → ni_ID info ≠ nodeID (configSvc ns) →
  ∃ n, knownNodes (MergeNodeInfo ns now (Some info) sourceID).2 !! ni_ID info = Some n ∧
       DiscoveredBy n = sourceID ∧ IsActive n = true.
Proof.
  intros Hwf Hf Hne.
  destruct (MergeNodeInfo_healthy ns now info sourceID Hwf Hf) as (_ & _ & _ & Hv).
  specialize (Hv (ni_ID info)). rewrite decide_True in Hv by done.
  unfold key_upsert in Hv. rewrite fold_agreeing in Hv.
  apply (f_equal fst) in Hv. unfold view in Hv at 1. cbn [fst] in Hv.
  rewrite Hv.
  destruct (lastMatch _ _ _), ((view (ni_ID info) ns).2);
    eexists; (split; [reflexivity|]); done.
Qed.

(** C3, at a known reporting node.  [p] is in the registry with
    [discovered_by = "seed"]; merging the answer [p] gave to a probe
    (so [sourceID] is ["p"]) rewrites the provenance of [p] to ["p"]. *)
Lemma known_reporter_provenance_overwritten :
  knownNodes ex_ns !! "p" = Some ex_P ∧
  DiscoveredBy ex_P = "seed" ∧
  DiscoveredBy <$> knownNodes (MergeNodeInfo ex_ns 5 (Some ex_info) "p").2 !! "p"
    = Some "p" ∧
  DiscoveredBy <$> nodeRepo (MergeNodeInfo ex_ns 5 (Some ex_info) "p").2 !! "p"
    = Some "p".
Proof. vm_compute. repeat split; reflexivity. Qed.

(** C5 as stated fails: the INSERT of a new node is refused, the caller
    gets the error, and the cache has no entry for the node. *)
Lemma failed_upsert_cache_not_updated :
  write_through_fails ex_ns_failing ∧
  (addOrUpdateNode ex_ns_failing ex_Q).1.1
    = Some "failed to create node: failed to create node: disk I/O error" ∧
  knownNodes (addOrUpdateNode ex_ns_failing ex_Q).2 !! ID ex_Q = None.
Proof. vm_compute. repeat split; reflexivity. Qed.

(** C5, amended.  An upsert whose write-through fails returns an error and
    writes neither the cache nor the table. *)
Theorem failed_upsert_returns_error_and_writes_nothing
    (ns : NodeService) (node : Node) :
  write_through_fails ns →
  is_Some (addOrUpdateNode ns node).1.1 ∧
  knownNodes (addOrUpdateNode ns node).2 = knownNodes ns ∧
  nodeRepo (addOrUpdateNode ns node).2 = nodeRepo ns.
Proof.
  unfold write_through_fails, addOrUpdateNode, GetNode, CreateNode, UpdateNode, sql.
  destruct ns as [d c k fs]; simpl.
  destruct fs as [|[m|] [|[m'|] fs]]; simpl; try done;
    destruct (d !! ID node); simpl; eauto.
Qed.

Lemma failed_upsert_returns_error_and_writes_nothing_witness :
  write_through_fails ex_ns_failing ∧
  is_Some (addOrUpdateNode ex_ns_failing ex_Q).1.1 ∧
  knownNodes (addOrUpdateNode ex_ns_failing ex_Q).2 = knownNodes ex_ns_failing ∧
  nodeRepo (addOrUpdateNode ex_ns_failing ex_Q).2 = nodeRepo ex_ns_failing.
Proof.
  assert (H : write_through_fails ex_ns_failing) by (simpl; exact I).
  split; [exact H|].
  exact (failed_upsert_returns_error_and_writes_nothing ex_ns_failing ex_Q H).
Defined.

(** C9 as stated fails: flipping the liveness of [p], last seen at time 1,
    leaves its [last_seen] at 1 in the cache and in the table;
    [UpdateNodeStatus] does not read the clock. *)
Lemma liveness_flip_keeps_last_seen :
  LastSeen <$> knownNodes ex_ns !! "p" = Some 1 ∧
  (UpdateNodeStatus ex_ns "p" false).1 = None ∧
  IsActive <$> knownNodes (UpdateNodeStatus ex_ns "p" false).2 !! "p" = Some false ∧
  LastSeen <$> knownNodes (UpdateNodeStatus ex_ns "p" false).2 !! "p" = Some 1 ∧
  LastSeen <$> nodeRepo (UpdateNodeStatus ex_ns "p" false).2 !! "p" = Some 1.
Proof. vm_compute. repeat split; reflexivity. Qed.

(** C9, amended.  For an unknown id the flip fails with the not-found
    error and changes nothing.  For a known id the cached node gets
    [is_active = b] and keeps every other field, [last_seen] included. *)
Theorem liveness_flip (ns : NodeService) (id : string) (b : bool) :
  match knownNodes ns !! id with
  | None => UpdateNodeStatus ns id b = (Some ("node " ++ id ++ " not found"), ns)
  | Some n =>
      knownNodes (UpdateNodeStatus ns id b).2 = <[id := set_IsActive b n]> (knownNodes ns) ∧
      LastSeen (set_IsActive b n) = LastSeen n ∧
      IsActive (set_IsActive b n) = b
  end.
Proof.
  unfold UpdateNodeStatus. destruct (knownNodes ns !! id) as [n|] eqn:Hn; [|done].
  split; [|done].
  destruct (UpdateNode _ _) as [e ns'] eqn:Hup.
  apply UpdateNode_cases in Hup as (_ & Hk & _). by destruct e.
Qed.

(** ** Path discovery *)

Lemma find_first {A} (f : A → bool) (l : list A) (x : A) :
  List.find f l = Some x →
  ∃ pre post, l = (pre ++ x :: post)%list ∧ f x = true ∧ Forall (λ y, f y = false) pre.
Proof.
  induction l as [|a l IH]; simpl; [done|].
  destruct (f a) eqn:Ha.
  - intros [= ->]. exists [], l. by repeat split.
  - intros (pre & post & -> & Hx & Hpre)%IH.
    exists (a :: pre), post. repeat split; [done|]. by constructor.
Qed.

Lemma find_none {A} (f : A → bool) (l : list A) :
  List.find f l = None ↔ Forall (λ y, f y = false) l.
Proof.
  induction l as [|a l IH]; simpl; [by split|].
  destruct (f a) eqn:Ha.
  - split; [done|]. intros H. apply Forall_cons in H as [? _]. congruence.
  - rewrite IH. split; [by constructor|]. by intros [_ ?]%Forall_cons.
Qed.

(** The binary search never reports an error and stays between its
    bounds. *)
Lemma binarySearchMTU_bounds test lo hi :
  (0 <= lo)%Z →
  (binarySearchMTU test lo hi).2 = None ∧
  (lo <= (binarySearchMTU test lo hi).1 <= Z.max lo hi)%Z.
Proof.
  funelim (binarySearchMTU test lo hi); intros Hlo.
  - simpl. split; [done|lia].
  - pose proof (Z.quot_rem' (lo + hi) 2).
    pose proof (Z.rem_bound_pos (lo + hi) 2).
    destruct (testMTUSize _).
    + destruct H as [? ?]; [lia|]. split; [done|lia].
    + destruct H0 as [? ?]; [lia|]. split; [done|lia].
Qed.

(** When nothing gets through, the search walks down to its lower bound
    and returns it, without an error. *)
Lemma binarySearchMTU_all_fail test lo hi :
  (∀ m, test m = false) → (binarySearchMTU test lo hi).1 = lo ∧
                           (binarySearchMTU test lo hi).2 = None.
Proof.
  intros Hall. funelim (binarySearchMTU test lo hi).
  - done.
  - rewrite Hall. by apply H0.
Qed.

(** The fixed candidates are tried in the order 1500, 1472, ..., 576 and
    the first that gets through is returned. *)
Lemma discoverPathMTU_first_candidate test mtu :
  List.find test mtuSizes = Some mtu →
  discoverPathMTU test = (mtu, None) ∧
  ∃ pre post, mtuSizes = (pre ++ mtu :: post)%list ∧ test mtu = true ∧
              Forall (λ m, test m = false) pre.
Proof.
  intros H. unfold discoverPathMTU. rewrite H. split; [done|]. by apply find_first.
Qed.

(** If every fixed candidate fails, the answer is that of the binary
    search between 576 and 1500, which lies between 576 and 1500. *)
Lemma discoverPathMTU_fallback test :
  Forall (λ m, test m = false) mtuSizes →
  discoverPathMTU test = binarySearchMTU test 576 1500 ∧
  (discoverPathMTU test).2 = None ∧
  (576 <= (discoverPathMTU test).1 <= 1500)%Z.
Proof.
  intros H. apply find_none in H. unfold discoverPathMTU. rewrite H.
  split; [done|]. destruct (binarySearchMTU_bounds test 576 1500); [lia|]. split; [done|lia].
Qed.

(** Path discovery never fails: [TestPathMTU] returns a size with a [nil]
    error for every network. *)
Lemma discoverPathMTU_never_fails test : (discoverPathMTU test).2 = None.
Proof.
  unfold discoverPathMTU. destruct (List.find test mtuSizes); [done|].
  destruct (binarySearchMTU_bounds test 576 1500); [lia|done].
Qed.

Lemma discoverPathMTU_unreachable test :
  (∀ m, test m = false) → discoverPathMTU test = (576, None)%Z.
Proof.
  intros Hall. unfold discoverPathMTU.
  replace (List.find test mtuSizes) with (@None Z).
  - destruct (binarySearchMTU_all_fail test 576 1500 Hall) as [H1 H2].
    destruct (binarySearchMTU test 576 1500); simpl in *; congruence.
  - symmetry. apply find_none. unfold mtuSizes. repeat constructor; apply Hall.
Qed.

(** C7, at an unreachable peer.  No payload size gets through to [p] and
    the probe itself times out, yet path discovery answers 576 without an
    error and the first poll of [p] records 576 as its path MTU. *)
Lemma unreachable_peer_path_mtu_recorded :
  (∀ host mtu, net_testMTUSize ex_tick_down host mtu = false) ∧
  firstPolls ex_ps !! ID ex_P = None ∧
  TestPathMTU (net_testMTUSize ex_tick_down) (nodeURL ex_P) = (576, None)%Z ∧
  pr_Success (PollNode ex_ps ex_tick_down ex_P).1.1 = false ∧
  pr_PathMTU (PollNode ex_ps ex_tick_down ex_P).1.1 = 576%Z.
Proof.
  split; [done|]. split; [done|].
  assert (H : TestPathMTU (net_testMTUSize ex_tick_down) (nodeURL ex_P) = (576, None)%Z).
  { unfold TestPathMTU. rewrite discoverPathMTU_unreachable; done. }
  split; [exact H|]. unfold PollNode. rewrite H. split; reflexivity.
Qed.

(** ** Polling *)

(** C10. Whatever the probe meets, [PollNode] returns a [nil] error.  A
    failed probe shows in the result only: [Success] is false and [Error]
    is the text of the failure; a probe that got its answer has [Success]
    true. *)
Theorem PollNode_never_returns_error (ps : PollingService) (t : Tick) (node : Node) :
  (PollNode ps t node).1.2 = None ∧
  match net_GetNodeInfo t (nodeURL node) with
  | Err e => pr_Success (PollNode ps t node).1.1 = false ∧
             pr_Error (PollNode ps t node).1.1 = e
  | Ok _ => pr_Success (PollNode ps t node).1.1 = true
  end.
Proof.
  unfold PollNode.
  destruct (net_GetNodeInfo t (nodeURL node)) as [info|e]; [|done].
  by destruct (MergeNodeInfo _ _ _ _) as [? ?].
Qed.

(** ** Retention *)

#[local] Instance poll_time_le_trans : Transitive poll_time_le.
Proof. unfold poll_time_le. intros x y z. lia. Qed.

#[local] Instance poll_time_le_total : Total poll_time_le.
Proof. unfold poll_time_le. intros x y. lia. Qed.

Lemma batch_rest_length rows :
  (length (deleteOldestBatch rows).1 ≤ length rows)%nat.
Proof. apply length_filter. Qed.

(** An empty batch means an empty table. *)
Lemma batch_zero rows : (deleteOldestBatch rows).2 = 0%Z → rows = [].
Proof.
  unfold deleteOldestBatch. simpl. intros H0.
  destruct (decide (rows = [])) as [|Hne]; [done|exfalso].
  pose proof (merge_sort_Permutation poll_time_le rows) as Hperm.
  destruct (merge_sort poll_time_le rows) as [|s0 l'] eqn:Hs.
  { by apply Permutation_nil in Hperm. }
  assert (Hin : s0 ∈ rows) by (rewrite <-Hperm; by left).
  pose proof (length_filter_lt
                (λ r, pr_ID r ∉ pr_ID <$> take 1000 (s0 :: l')) rows s0 Hin) as Hlt.
  simpl in Hlt. specialize (Hlt ltac:(intros Hn; apply Hn; by left)).
  simpl in H0. lia.
Qed.

Lemma NoDup_fmap_inj_on {A B} (f : A → B) (l : list A) x y :
  NoDup (f <$> l) → x ∈ l → y ∈ l → f x = f y → x = y.
Proof.
  induction l as [|a l IH]; simpl; [by intros _ ?%elem_of_nil|].
  intros [Hn Hnd]%NoDup_cons [->|Hx]%elem_of_cons [->|Hy]%elem_of_cons Hf; auto.
  - exfalso. apply Hn. rewrite Hf. by apply list_elem_of_fmap_2.
  - exfalso. apply Hn. rewrite <-Hf. by apply list_elem_of_fmap_2.
Qed.

Section Batch.
Variable rows : list PollResult.
Hypothesis ids_unique : NoDup (pr_ID <$> rows).

(** At most 1000 rows go in one statement. *)
Lemma batch_at_most_1000 : (0 <= (deleteOldestBatch rows).2 <= 1000)%Z.
Proof.
  unfold deleteOldestBatch. simpl. split; [lia|].
  set (ids := pr_ID <$> take 1000 (merge_sort poll_time_le rows)).
  pose proof (filter_app_complement (λ r, pr_ID r ∉ ids) rows) as Hc.
  apply Permutation_length in Hc. rewrite length_app in Hc.
  set (gone := filter (λ r, ¬ (pr_ID r ∉ ids)) rows) in *.
  assert (Hg : (length gone ≤ 1000)%nat).
  { rewrite <-(length_fmap pr_ID gone).
    transitivity (length ids).
    - apply submseteq_length, NoDup_submseteq.
      + eapply sublist_NoDup; [exact ids_unique|apply fmap_sublist, sublist_filter].
      + intros i (r & -> & Hr)%list_elem_of_fmap.
        apply list_elem_of_filter in Hr as [Hr _].
        by destruct (decide (pr_ID r ∈ ids)).
    - unfold ids. rewrite length_fmap, length_take. lia. }
  lia.
Qed.

(** The rows that go are the oldest: none of them is younger than a row
    that stays. *)
Lemma batch_oldest_first d r :
  d ∈ rows → d ∉ (deleteOldestBatch rows).1 → r ∈ (deleteOldestBatch rows).1 →
  (pr_PollTime d <= pr_PollTime r)%Z.
Proof.
  unfold deleteOldestBatch. simpl.
  set (sorted := merge_sort poll_time_le rows).
  set (ids := pr_ID <$> take 1000 sorted).
  intros Hd Hdr Hr.
  assert (Hperm : sorted ≡ₚ rows) by apply merge_sort_Permutation.
  assert (Hss : StronglySorted poll_time_le sorted)
    by apply (StronglySorted_merge_sort _).
  rewrite <-(take_drop 1000 sorted) in Hperm, Hss.
  assert (Hd' : d ∈ take 1000 sorted).
  { assert (Hi : pr_ID d ∈ ids).
    { destruct (decide (pr_ID d ∈ ids)) as [|Hn]; [done|].
      exfalso. apply Hdr. by apply list_elem_of_filter. }
    apply list_elem_of_fmap in Hi as (d' & Hid & Hd').
    assert (d' ∈ rows).
    { rewrite <-Hperm. apply elem_of_app. by left. }
    assert (d = d'); [|by subst].
    apply (NoDup_fmap_inj_on pr_ID rows); done. }
  assert (Hr' : r ∈ drop 1000 sorted).
  { apply list_elem_of_filter in Hr as [Hn Hr].
    rewrite <-Hperm in Hr. apply elem_of_app in Hr as [Hr|Hr]; [|done].
    exfalso. apply Hn. unfold ids. by apply list_elem_of_fmap_2. }
  by apply (StronglySorted_app_1_elem_of poll_time_le _ _ d r Hss).
Qed.

Lemma batch_rest_unique : NoDup (pr_ID <$> (deleteOldestBatch rows).1).
Proof.
  eapply sublist_NoDup; [exact ids_unique|apply fmap_sublist, sublist_filter].
Qed.
End Batch.

Lemma batch_affected rows :
  (deleteOldestBatch rows).2
  = Z.of_nat (length rows - length (deleteOldestBatch rows).1).
Proof. reflexivity. Qed.

Opaque deleteOldestBatch.

Lemma poll_sql_frame r f r' :
  poll_sql r = (f, r') →
  poll_results r' = poll_results r ∧ file_bytes r' = file_bytes r ∧
  sqlite_sequence r' = sqlite_sequence r.
Proof.
  unfold poll_sql. destruct (poll_faults r); intros [= <- <-]; done.
Qed.

Lemma GetDatabaseSize_frame r sz r' :
  GetDatabaseSize r = (sz, r') →
  poll_results r' = poll_results r ∧ file_bytes r' = file_bytes r ∧
  ∀ z, sz = Ok z → z = file_bytes r.
Proof.
  unfold GetDatabaseSize. destruct (poll_sql r) as [f r1] eqn:H1.
  apply poll_sql_frame in H1 as (? & ? & ?).
  destruct f; intros [= <- <-]; repeat split; try done.
  intros z [= <-]. done.
Qed.

(** The loop ends: fuel above the number of rows is never used up. *)
Lemma cleanupLoop_total pg fuel r cur maxSizeBytes :
  (length (poll_results r) < fuel)%nat →
  is_Some (cleanupLoop pg fuel r cur maxSizeBytes).
Proof.
  revert r cur. induction fuel as [|fuel IH]; intros r cur Hlen; [lia|]. simpl.
  case_decide; [|eauto].
  destruct (poll_sql r) as [f r1] eqn:H1.
  apply poll_sql_frame in H1 as (Hr1 & _ & _).
  destruct f; [eauto|].
  destruct (deleteOldestBatch (poll_results r1)) as [rest k] eqn:Hb.
  destruct (poll_sql _) as [f2 r2] eqn:H2.
  apply poll_sql_frame in H2 as (Hr2 & _ & _). simpl in Hr2.
  destruct f2; [eauto|]. case_decide as Hk; [eauto|].
  destruct (GetDatabaseSize r2) as [sz r3] eqn:H3.
  apply GetDatabaseSize_frame in H3 as (Hr3 & _ & _).
  destruct sz; [|eauto]. apply IH.
  assert (rest = (deleteOldestBatch (poll_results r1)).1) as Hrest by (by rewrite Hb).
  assert (k = Z.of_nat (length (poll_results r1) - length rest)) as Hk2.
  { rewrite Hrest, <-batch_affected. by rewrite Hb. }
  pose proof (batch_rest_length (poll_results r1)) as Hle. rewrite <-Hrest in Hle.
  rewrite Hr3, Hr2. rewrite Hr1 in Hk2, Hle. lia.
Qed.

(** What holds when the loop is left without an error: the size last
    measured is within budget, or the table is empty; and the rows left are
    what some number of batch deletions leave. *)
Lemma cleanupLoop_post pg fuel r cur maxSizeBytes r' :
  cur = file_bytes r →
  cleanupLoop pg fuel r cur maxSizeBytes = Some (None, r') →
  ((file_bytes r' <= maxSizeBytes)%Z ∨ poll_results r' = []) ∧
  ∃ n, poll_results r' = Nat.iter n (λ l, (deleteOldestBatch l).1) (poll_results r).
Proof.
  revert r cur. induction fuel as [|fuel IH]; intros r cur Hcur; [done|]. simpl.
  case_decide as Hgt.
  2:{ intros [= <-]. split; [left; lia|]. by exists 0%nat. }
  destruct (poll_sql r) as [f r1] eqn:H1.
  apply poll_sql_frame in H1 as (Hr1 & _ & _).
  destruct f; [done|].
  destruct (deleteOldestBatch (poll_results r1)) as [rest k] eqn:Hb.
  destruct (poll_sql _) as [f2 r2] eqn:H2.
  apply poll_sql_frame in H2 as (Hr2 & _ & _). simpl in Hr2.
  assert (rest = (deleteOldestBatch (poll_results r)).1) as Hrest by (by rewrite <-Hr1, Hb).
  destruct f2; [done|]. case_decide as Hk.
  - intros [= <-]. split.
    + right. rewrite Hr2, Hrest.
      assert (poll_results r = []) as ->; [|done].
      apply batch_zero. by rewrite <-Hr1, Hb.
    + exists 1%nat. simpl. congruence.
  - destruct (GetDatabaseSize r2) as [sz r3] eqn:H3.
    apply GetDatabaseSize_frame in H3 as (Hr3 & Hf3 & Hsz).
    destruct sz as [z|]; [|done]. intros Hloop.
    apply IH in Hloop as [Hpost [n Hn]]; [|rewrite Hf3; by apply Hsz].
    split; [done|]. exists (S n). rewrite Nat.iter_succ_r.
    rewrite Hn, Hr3, Hr2, Hrest. done.
Qed.

Lemma budget_bytes :
  wrap64 (wrap64 (wrap64 (MaxDatabaseSizeMB * 1024) * 1024)) = (10 * 1024 * 1024)%Z.
Proof. reflexivity. Qed.

Lemma batches_unique rows n :
  NoDup (pr_ID <$> rows) →
  NoDup (pr_ID <$> Nat.iter n (λ l, (deleteOldestBatch l).1) rows).
Proof. intros H. induction n as [|n IH]; simpl; [done|]. by apply batch_rest_unique. Qed.

(** C8. One run of the cleanup always returns.  When it returns without an
    error, the database file is at most 10 MB or the poll history is
    empty, and the history left is what [n] rounds of batch deletion leave
    of the history found; every round removes at most 1000 rows, none of
    them younger than a row it leaves.  The file size is the one
    [GetDatabaseSize] measures, the size of the whole database file, which
    bounds the size of the history from above.  Two facts of the storage
    are assumed: VACUUM does not grow the file, and the row ids of the
    history are distinct (they are the primary key). *)
Theorem cleanup_bounds_history (pg : Pager) (r : PollRepo) :
  (∀ sz rows, (size_after_vacuum pg sz rows <= sz)%Z) →
  NoDup (pr_ID <$> poll_results r) →
  ∃ e r', CleanupOldResults pg r MaxDatabaseSizeMB = Some (e, r') ∧
    (e = None →
     ((file_bytes r' <= 10 * 1024 * 1024)%Z ∨ poll_results r' = []) ∧
     ∃ n, poll_results r' = Nat.iter n (λ l, (deleteOldestBatch l).1) (poll_results r)) ∧
    ∀ i, let rows := Nat.iter i (λ l, (deleteOldestBatch l).1) (poll_results r) in
         (0 <= (deleteOldestBatch rows).2 <= 1000)%Z ∧
         ∀ d x, d ∈ rows → d ∉ (deleteOldestBatch rows).1 →
                x ∈ (deleteOldestBatch rows).1 →
                (pr_PollTime d <= pr_PollTime x)%Z.
Proof.
  intros Hvac Hnd.
  assert (Hbatch : ∀ i,
    let rows := Nat.iter i (λ l, (deleteOldestBatch l).1) (poll_results r) in
    (0 <= (deleteOldestBatch rows).2 <= 1000)%Z ∧
    ∀ d x, d ∈ rows → d ∉ (deleteOldestBatch rows).1 →
           x ∈ (deleteOldestBatch rows).1 → (pr_PollTime d <= pr_PollTime x)%Z).
  { intros i rows. pose proof (batches_unique _ i Hnd) as Hu. fold rows in Hu.
    split; [by apply batch_at_most_1000|]. intros d x. by apply batch_oldest_first. }
  unfold CleanupOldResults. rewrite budget_bytes.
  destruct (GetDatabaseSize r) as [sz r1] eqn:H1.
  apply GetDatabaseSize_frame in H1 as (Hr1 & Hf1 & Hsz).
  destruct sz as [cur|msg].
  2:{ eexists _, _. split; [reflexivity|]. split; [done|exact Hbatch]. }
  specialize (Hsz cur eq_refl).
  case_decide as Hle.
  { eexists _, _. split; [reflexivity|]. split; [|exact Hbatch].
    intros _. split; [left; lia|]. exists 0%nat. simpl. done. }
  destruct (cleanupLoop_total pg (S (length (poll_results r1))) r1 cur
              (10 * 1024 * 1024)%Z) as [[e r2] Hloop]; [lia|].
  rewrite Hloop. destruct e as [msg|].
  { eexists _, _. split; [reflexivity|]. split; [done|exact Hbatch]. }
  apply cleanupLoop_post in Hloop as [Hpost [n Hn]]; [|congruence].
  destruct (poll_sql r2) as [f r3] eqn:H3.
  apply poll_sql_frame in H3 as (Hr3 & Hf3 & _).
  destruct f as [msg|].
  { eexists _, _. split; [reflexivity|]. split; [done|exact Hbatch]. }
  eexists _, _. split; [reflexivity|]. split; [|exact Hbatch].
  intros _. simpl. split.
  - destruct Hpost as [Hsize|Hempty]; [left|right; congruence].
    specialize (Hvac (file_bytes r3) (poll_results r3)). lia.
  - exists n. congruence.
Qed.

Lemma cleanup_bounds_history_witness :
  (∀ sz rows, (size_after_vacuum ex_pager sz rows <= sz)%Z) ∧
  NoDup (pr_ID <$> poll_results ex_repo_full) ∧
  CleanupOldResults ex_pager ex_repo_full MaxDatabaseSizeMB
    = Some (None, mkPollRepo [] 3 4096 []) ∧
  ∃ e r', CleanupOldResults ex_pager ex_repo_full MaxDatabaseSizeMB = Some (e, r') ∧
    (e = None →
     ((file_bytes r' <= 10 * 1024 * 1024)%Z ∨ poll_results r' = []) ∧
     ∃ n, poll_results r'
          = Nat.iter n (λ l, (deleteOldestBatch l).1) (poll_results ex_repo_full)) ∧
    ∀ i, let rows := Nat.iter i (λ l, (deleteOldestBatch l).1)
                       (poll_results ex_repo_full) in
         (0 <= (deleteOldestBatch rows).2 <= 1000)%Z ∧
         ∀ d x, d ∈ rows → d ∉ (deleteOldestBatch rows).1 →
                x ∈ (deleteOldestBatch rows).1 →
                (pr_PollTime d <= pr_PollTime x)%Z.
Proof.
  assert (Hvac : ∀ sz rows, (size_after_vacuum ex_pager sz rows <= sz)%Z)
    by (intros sz rows; simpl; lia).
  assert (Hnd : NoDup (pr_ID <$> poll_results ex_repo_full))
    by (apply (bool_decide_unpack _); vm_compute; reflexivity).
  split; [exact Hvac|]. split; [exact Hnd|]. split; [vm_compute; reflexivity|].
  exact (cleanup_bounds_history ex_pager ex_repo_full Hvac Hnd).
Defined.

(** ** The scheduler *)

(** C4, with the runtime ranging over the registry in two different
    orders.  Two active peers [a] and [b], neither the process itself; two
    consecutive ticks; membership and liveness the same before, between and
    after; both probes go to [a] and none to [b]. *)
Lemma two_ticks_probe_same_peer :
  let ps1 := (pollNextNode ex_pager ex_ps2 ex_tick1).2 in
  let ps2 := (pollNextNode ex_pager ps1 ex_tick2).2 in
  iteration_order (knownNodes (nodeService ex_ps2)) (range_order ex_tick1) ∧
  iteration_order (knownNodes (nodeService ps1)) (range_order ex_tick2) ∧
  liveness ex_ps2 = {["a" := true; "b" := true]} ∧
  liveness ps1 = {["a" := true; "b" := true]} ∧
  liveness ps2 = {["a" := true; "b" := true]} ∧
  probed ex_ps2 = [] ∧
  probed ps2 = ["a"; "a"].
Proof.
  cbv zeta. unfold iteration_order.
  repeat split; try (apply (bool_decide_unpack _)); vm_compute; reflexivity.
Qed.

(** *** The rotation over a list that stays the same *)

Lemma picks_app n1 n2 idx len :
  picks (n1 + n2) idx len = (picks n1 idx len ++ picks n2 (cursor n1 idx len) len)%list.
Proof.
  revert idx. induction n1 as [|n1 IH]; intros idx; simpl; [done|]. by rewrite IH.
Qed.

Lemma picks_run n idx len :
  (0 <= idx)%Z → (idx + Z.of_nat n <= Z.of_nat len)%Z →
  picks n idx len = Z.of_nat <$> seq (Z.to_nat idx) n ∧
  cursor n idx len = (idx + Z.of_nat n)%Z.
Proof.
  revert idx. induction n as [|n IH]; intros idx H0 Hn; simpl.
  - split; [done|lia].
  - unfold rotate. rewrite decide_False by lia. simpl.
    destruct (IH (idx + 1)%Z) as [-> ->]; [lia..|].
    replace (Z.to_nat (idx + 1)) with (S (Z.to_nat idx)) by lia.
    split; [|lia]. f_equal. lia.
Qed.

Lemma picks_reset n idx len :
  (1 <= len)%nat → (idx >= Z.of_nat len)%Z → picks n idx len = picks n 0 len.
Proof.
  intros Hlen Hidx. destruct n as [|n]; simpl; [done|].
  unfold rotate. rewrite decide_True by done. by rewrite decide_False by lia.
Qed.

(** Over a list of [len >= 1] peers that does not change, [len]
    consecutive ticks take every position exactly once, from any cursor. *)
Lemma picks_complete len idx :
  (1 <= len)%nat → (0 <= idx)%Z →
  picks len idx len ≡ₚ Z.of_nat <$> seq 0 len.
Proof.
  intros Hlen Hidx.
  destruct (decide (idx >= Z.of_nat len)%Z) as [Hge|Hlt].
  - rewrite picks_reset by done.
    by destruct (picks_run len 0 len) as [-> _]; [lia..|].
  - set (k := Z.to_nat idx).
    replace len with ((len - k) + k)%nat at 1 by lia.
    rewrite picks_app.
    destruct (picks_run (len - k) idx len) as [-> ->]; [lia..|].
    rewrite picks_reset by lia.
    destruct (picks_run k 0 len) as [-> _]; [lia..|].
    fold k. simpl. rewrite <-fmap_app, Permutation_app_comm, <-seq_app.
    by replace (k + (len - k))%nat with len by lia.
Qed.

Lemma omap_lookup_seq {A} (pre l : list A) :
  omap (λ i, (pre ++ l)%list !! i) (seq (length pre) (length l)) = l.
Proof.
  revert pre. induction l as [|x l IH]; intros pre; simpl; [done|].
  rewrite lookup_app_r by lia. rewrite Nat.sub_diag. simpl. f_equal.
  specialize (IH (pre ++ [x])%list). rewrite length_app in IH. simpl in IH.
  rewrite <-app_assoc in IH. simpl in IH.
  by replace (length pre + 1)%nat with (S (length pre)) in IH by lia.
Qed.

Lemma omap_fmap {A B C} (f : B → option C) (g : A → B) (l : list A) :
  omap f (g <$> l) = omap (f ∘ g) l.
Proof. induction l as [|a l IH]; csimpl; [done|]. by rewrite IH. Qed.

(** So the peers probed are the peers of the list, each once. *)
Lemma round_robin_stable_list (L : list Node) (idx : Z) :
  L ≠ [] → (0 <= idx)%Z →
  omap (λ i, L !! Z.to_nat i) (picks (length L) idx (length L)) ≡ₚ L.
Proof.
  intros HL Hidx.
  rewrite picks_complete; [|destruct L; simpl; [done|lia]|done].
  rewrite omap_fmap.
  rewrite (list_omap_ext _ (λ i, ([] ++ L)%list !! i) _ (seq 0 (length L))).
  - assert (H : omap (λ i, ([] ++ L)%list !! i) (seq 0 (length L)) = L)
      by exact (omap_lookup_seq [] L).
    by rewrite H.
  - apply Forall2_same_length_lookup_2; [done|].
    intros i x y Hx Hy. simpl. rewrite Hx in Hy. injection Hy as <-.
    by rewrite Nat2Z.id.
Qed.

Lemma PollNode_frame ps t node :
  (PollNode ps t node).1.2 = None ∧
  pr_NodeID (PollNode ps t node).1.1 = ID node ∧
  pollRepo (PollNode ps t node).2 = pollRepo ps ∧
  nodeIndex (PollNode ps t node).2 = nodeIndex ps.
Proof.
  unfold PollNode.
  destruct (net_GetNodeInfo t (nodeURL node));
    [destruct (MergeNodeInfo _ _ _ _)|];
    (destruct (negb _); [destruct (TestPathMTU _ _) as [? []]|]); done.
Qed.

(** What one tick does with the list it computed: it probes the node
    under the clamped cursor and leaves the cursor one further.  With a
    healthy driver the probe shows in the poll history. *)
Lemma pollNextNode_selects pg ps t :
  let L := filteredNodes ps (range_order t) in
  L ≠ [] → (0 <= nodeIndex ps)%Z →
  nodeIndex (pollNextNode pg ps t).2 = (rotate (nodeIndex ps) (length L)).2 ∧
  ∃ n, L !! Z.to_nat (rotate (nodeIndex ps) (length L)).1 = Some n ∧
       (poll_faults (pollRepo ps) = [] →
        probed (pollNextNode pg ps t).2 = (probed ps ++ [ID n])%list).
Proof.
  intros L HL Hidx. unfold pollNextNode, GetNodeID.
  subst L. unfold filteredNodes in *.
  destruct (GetActiveNodes (nodeService ps) (range_order t)) as [|a nodes] eqn:Hact;
    [done|].
  set (L := filter _ (a :: nodes)) in *.
  destruct L as [|x L'] eqn:HLeq; [done|]. rewrite <-HLeq in *. clear HLeq.
  assert (Hin : (0 <= (rotate (nodeIndex ps) (length L)).1 < Z.of_nat (length L))%Z).
  { unfold rotate. assert (length L ≠ 0%nat) by (by destruct L).
    case_decide; simpl; lia. }
  destruct (rotate (nodeIndex ps) (length L)) as [i next] eqn:Hrot. simpl in *.
  destruct (L !! Z.to_nat i) as [n|] eqn:Hn.
  2:{ apply lookup_ge_None in Hn. lia. }
  set (ps0 := mkPS _ _ next _).
  destruct (PollNode_frame ps0 t n) as (Herr & Hid & Hrepo & Hni).
  destruct (PollNode ps0 t n) as [[res err] ps1]. simpl in *. subst err.
  destruct (CreatePollResult pg (pollRepo ps1) res) as [e repo] eqn:Hc.
  destruct (UpdateNodeStatus _ _ _) as [e2 ns2]. simpl.
  split; [done|]. exists n. split; [done|]. intros Hf.
  unfold probed. simpl. unfold CreatePollResult, poll_sql in Hc.
  rewrite Hrepo, Hf in Hc. injection Hc as _ <-. simpl.
  by rewrite fmap_app, Hid.
Qed.

(** A pushed report is always acknowledged: its merge returns no error,
    whatever happened to the single nodes. *)
Lemma mergeReport_acknowledged ns now snapshot :
  (mergeReport ns now snapshot).1 = None.
Proof. reflexivity. Qed.

(** * Further properties of the node service *)

(** ** Nothing is ever removed *)

Lemma grows_refl ns : grows ns ns.
Proof. by split. Qed.

Lemma grows_trans ns1 ns2 ns3 : grows ns1 ns2 → grows ns2 ns3 → grows ns1 ns3.
Proof. intros [? ?] [? ?]. split; set_solver. Qed.

Lemma grows_write ns k m : grows ns (with_known ns (<[k := m]> (knownNodes ns))).
Proof. split; simpl; [|done]. rewrite dom_insert_L. set_solver. Qed.

Lemma grows_upsert ns node e node' ns' :
  addOrUpdateNode ns node = (e, node', ns') → grows ns ns'.
Proof.
  intros H.
  apply addOrUpdateNode_cases in H as (_ & _ & _ & [(_ & _ & Hk & Hd)|(_ & Hk & Hd)]);
    split; rewrite ?Hk, ?Hd, ?dom_insert_L; set_solver.
Qed.

Lemma grows_mergeNode now self rep ns x : grows ns (mergeNode now self rep ns x).
Proof.
  rewrite mergeNode_eq. case_decide; [apply grows_refl|].
  destruct (knownNodes ns !! ID x) as [ex|].
  - destruct (addOrUpdateNode _ _) as [[e e2] ns2] eqn:Hup. cbv zeta. simpl.
    eapply grows_trans; [apply grows_write|].
    eapply grows_trans; [eapply grows_upsert, Hup|apply grows_write].
  - destruct (addOrUpdateNode _ _) as [[e e2] ns2] eqn:Hup.
    eapply grows_upsert, Hup.
Qed.

Lemma grows_fold {A} (f : NodeService → A → NodeService) l :
  (∀ ns a, grows ns (f ns a)) → ∀ ns, grows ns (foldl f ns l).
Proof.
  intros Hf. induction l as [|a l IH]; intros ns; simpl; [apply grows_refl|].
  eapply grows_trans; [apply Hf|apply IH].
Qed.

Lemma grows_Merge ns now info by_ : grows ns (MergeNodeInfo ns now info by_).2.
Proof.
  unfold MergeNodeInfo, GetNodeID. destruct info as [info|]; [|apply grows_refl].
  simpl. eapply grows_trans; [|apply grows_fold; intros; apply grows_mergeNode].
  case_decide; [apply grows_refl|].
  destruct (addOrUpdateNode _ _) as [[e e2] ns2] eqn:Hup. eapply grows_upsert, Hup.
Qed.

Lemma grows_loadSeedNode now self ns s : grows ns (loadSeedNode now self ns s).
Proof.
  unfold loadSeedNode. case_decide; [apply grows_refl|].
  destruct (knownNodes ns !! seedID s); [apply grows_refl|].
  destruct (addOrUpdateNode _ _) as [[e e2] ns2] eqn:Hup. eapply grows_upsert, Hup.
Qed.

Lemma grows_loadSeedNodes ns now cfg : grows ns (loadSeedNodes ns now cfg).2.
Proof.
  unfold loadSeedNodes, GetNodeID.
  destruct cfg as [[cfg|]|]; try apply grows_refl.
  destruct (seed_Nodes cfg) as [|s l] eqn:Hs; [apply grows_refl|]. cbn [snd].
  apply grows_fold. intros. apply grows_loadSeedNode.
Qed.

Lemma grows_UpdateNode ns n :
  dom (nodeRepo (UpdateNode ns n).2) = dom (nodeRepo ns) ∧
  knownNodes (UpdateNode ns n).2 = knownNodes ns.
Proof.
  destruct (UpdateNode ns n) as [e ns'] eqn:Hup.
  apply UpdateNode_cases in Hup as (_ & Hk & [(_ & Hs & Hd)|Hd]); simpl;
    rewrite Hd; split; try done.
  rewrite dom_insert_L. apply subseteq_union_1_L, singleton_subseteq_l.
  by apply elem_of_dom.
Qed.

Lemma grows_UpdateNodeStatus ns k b : grows ns (UpdateNodeStatus ns k b).2.
Proof.
  unfold UpdateNodeStatus. destruct (knownNodes ns !! k) as [n|]; [|apply grows_refl].
  eapply grows_trans; [apply (grows_write ns k (set_IsActive b n))|].
  pose proof (grows_UpdateNode
                (with_known ns (<[k := set_IsActive b n]> (knownNodes ns)))
                (set_IsActive b n)) as [Hd Hk].
  destruct (UpdateNode _ _) as [e ns2]. simpl in *.
  assert (grows (with_known ns (<[k := set_IsActive b n]> (knownNodes ns))) ns2).
  { split; [by rewrite Hk|by rewrite Hd]. }
  by destruct e.
Qed.

(** X1. No operation of the node service removes a node: after any
    sequence of merges, seed loads, direct upserts and liveness flips,
    whatever the driver does, every id the cache held is still in the
    cache and every id the table held is still in the table. *)
Theorem registry_never_shrinks (ns : NodeService) (ops : list op) :
  dom (knownNodes ns) ⊆ dom (knownNodes (run ops ns)) ∧
  dom (nodeRepo ns) ⊆ dom (nodeRepo (run ops ns)).
Proof.
  unfold run. apply (grows_fold apply_op ops). clear ns.
  intros ns [] ; simpl.
  - apply grows_Merge.
  - apply grows_loadSeedNodes.
  - destruct (addOrUpdateNode ns node) as [[e e2] ns2] eqn:Hup.
    eapply grows_upsert, Hup.
  - apply grows_UpdateNodeStatus.
Qed.

(** ** What a merge writes and what it leaves alone *)

Lemma registry_wf_write ns k m :
  registry_wf ns → ID m = k →
  registry_wf (with_known ns (<[k := m]> (knownNodes ns))).
Proof.
  intros Hwf Hk k' n'. simpl. rewrite lookup_insert.
  case_decide; [intros [= <-]; congruence|apply Hwf].
Qed.

Lemma upsert_frame ns node e node' ns' :
  addOrUpdateNode ns node = (e, node', ns') →
  (registry_wf ns → registry_wf ns') ∧
  ∀ k, k ≠ ID node → view k ns' = view k ns.
Proof.
  intros H.
  apply addOrUpdateNode_cases in H as (_ & Hid & _ & [(_ & _ & Hk & Hd)|(_ & Hk & Hd)]).
  - split.
    + intros Hwf k' m. rewrite Hk, lookup_insert.
      case_decide; [intros [= <-]; congruence|apply Hwf].
    + intros k Hne. unfold view. by rewrite Hk, Hd, !lookup_insert_ne.
  - split.
    + intros Hwf k' m. rewrite Hk. apply Hwf.
    + intros k _. unfold view. by rewrite Hk, Hd.
Qed.

Lemma mergeNode_frame now self rep ns x :
  registry_wf ns →
  registry_wf (mergeNode now self rep ns x) ∧
  ∀ k, (ID x = k → k = self) → view k (mergeNode now self rep ns x) = view k ns.
Proof.
  intros Hwf. rewrite mergeNode_eq. case_decide as Hs; [done|].
  destruct (knownNodes ns !! ID x) as [ex|] eqn:Hx.
  - pose proof (Hwf _ _ Hx) as Hid.
    destruct (addOrUpdateNode _ _) as [[e e2] ns2] eqn:Hup. cbv zeta. cbn [fst snd].
    pose proof Hup as Hup'.
    apply upsert_frame in Hup as [Hwf2 Hfr].
    apply addOrUpdateNode_cases in Hup' as (_ & Hid2 & _).
    simpl in Hid2.
    split.
    + apply registry_wf_write; [|congruence].
      apply Hwf2. by apply registry_wf_write.
    + intros k Hk. assert (k ≠ ID x) as Hne by (intros ->; by apply Hs, Hk).
      unfold view in *. simpl. rewrite lookup_insert_ne by done.
      specialize (Hfr k). simpl in Hfr. rewrite Hid in Hfr.
      specialize (Hfr Hne). injection Hfr as -> ->.
      by rewrite lookup_insert_ne.
  - destruct (addOrUpdateNode _ _) as [[e e2] ns2] eqn:Hup. cbn [snd].
    apply upsert_frame in Hup as [Hwf2 Hfr]. split; [by apply Hwf2|].
    intros k Hk. apply Hfr. simpl. intros ->. by apply Hs, Hk.
Qed.

Lemma merge_fold_frame now self rep xs ns :
  registry_wf ns →
  registry_wf (foldl (mergeNode now self rep) ns xs) ∧
  ∀ k, (k ∈ ID <$> xs → k = self) →
       view k (foldl (mergeNode now self rep) ns xs) = view k ns.
Proof.
  revert ns. induction xs as [|x xs IH]; intros ns Hwf; simpl; [done|].
  destruct (mergeNode_frame now self rep ns x Hwf) as [Hwf1 Hfr1].
  destruct (IH _ Hwf1) as [Hwf2 Hfr2]. split; [done|].
  intros k Hk. rewrite Hfr2, Hfr1; [done|..].
  - intros <-. apply Hk. by left.
  - intros Hin. apply Hk. by right.
Qed.

(** X2. A merge writes only the ids it names: the reporting node and the
    listed nodes, the process's own id excepted.  Every other entry of the
    cache and every other row of the table is the same after the merge,
    whatever the driver does. *)
Theorem merge_leaves_unnamed_nodes (ns : NodeService) (now : Z) (info : NodeInfo)
    (sourceID k : string) :
  registry_wf ns → ¬ touched (nodeID (configSvc ns)) info k →
  knownNodes (MergeNodeInfo ns now (Some info) sourceID).2 !! k = knownNodes ns !! k ∧
  nodeRepo (MergeNodeInfo ns now (Some info) sourceID).2 !! k = nodeRepo ns !! k.
Proof.
  intros Hwf Hk. unfold touched in Hk.
  set (self := nodeID (configSvc ns)) in *.
  assert (Hview : view k (MergeNodeInfo ns now (Some info) sourceID).2 = view k ns).
  { unfold MergeNodeInfo, GetNodeID. cbv zeta. cbn [snd]. fold self.
    assert (Hlist : k ∈ ID <$> ni_Nodes info → k = self).
    { intros Hin. destruct (decide (k = self)); [done|]. exfalso. apply Hk. tauto. }
    case_decide as Hs.
    - destruct (merge_fold_frame now self (ni_ID info) (ni_Nodes info) ns Hwf) as [_ Hfr].
      by apply Hfr.
    - destruct (addOrUpdateNode _ _) as [[e e2] ns2] eqn:Hup.
      apply upsert_frame in Hup as [Hwf2 Hfr0].
      destruct (merge_fold_frame now self (ni_ID info) (ni_Nodes info) ns2 (Hwf2 Hwf))
        as [_ Hfr].
      rewrite Hfr by done. apply Hfr0. simpl. intros ->.
      destruct (decide (ni_ID info = self)); [done|]. apply Hk. tauto. }
  unfold view in Hview. by injection Hview.
Qed.

Lemma merge_leaves_unnamed_nodes_witness :
  registry_wf ex_ns_flaky ∧ ¬ touched (nodeID (configSvc ex_ns_flaky)) ex_info "z" ∧
  knownNodes (MergeNodeInfo ex_ns_flaky 5 (Some ex_info) "p").2 !! "z"
    = knownNodes ex_ns_flaky !! "z" ∧
  nodeRepo (MergeNodeInfo ex_ns_flaky 5 (Some ex_info) "p").2 !! "z"
    = nodeRepo ex_ns_flaky !! "z".
Proof.
  assert (Hwf : registry_wf ex_ns_flaky) by (apply registry_wf_check; vm_compute; reflexivity).
  assert (Hk : ¬ touched (nodeID (configSvc ex_ns_flaky)) ex_info "z").
  { apply (bool_decide_eq_false_1 (touched _ _ _)). vm_compute. reflexivity. }
  split; [exact Hwf|]. split; [exact Hk|].
  exact (merge_leaves_unnamed_nodes ex_ns_flaky 5 ex_info "p" "z" Hwf Hk).
Defined.

(** The loop seen from one key, from a node unknown to cache and table. *)
Lemma fold_from_unknown k self rep now xs y :
  lastMatch k self xs = Some y →
  foldl (key_step k self now rep) (None, None) xs =
  (Some (mkNode k (FQDN y) (IP y) rep now now true),
   Some (mkNode k (FQDN y) (IP y) rep now now true)).
Proof.
  induction xs as [|x xs IH]; simpl; [done|].
  destruct (lastMatch k self xs) as [y'|] eqn:Hl.
  - intros [= ->]. unfold key_step at 2. case_decide as Hx.
    + unfold key_merge, key_upsert. simpl. rewrite fold_agreeing, Hl.
      destruct Hx as [-> _]. done.
    + by apply IH.
  - case_decide as Hx; [|done]. intros [= ->].
    unfold key_step at 2. rewrite decide_True by done.
    unfold key_merge, key_upsert. simpl. rewrite fold_agreeing, Hl.
    destruct Hx as [-> _]. done.
Qed.


Lemma lastMatch_listed k self xs :
  k ≠ self → k ∈ ID <$> xs → ∃ y, lastMatch k self xs = Some y ∧ y ∈ xs ∧ ID y = k.
Proof.
  intros Hs. induction xs as [|x xs IH]; simpl; [by intros ?%elem_of_nil|].
  intros Hin. destruct (lastMatch k self xs) as [y|] eqn:Hl.
  - destruct (decide (k ∈ ID <$> xs)) as [Hk|Hk].
    + destruct (IH Hk) as (y' & [= <-] & ? & ?). exists y. repeat split; [by right|done].
    + assert (lastMatch k self xs = None) by (apply lastMatch_None; tauto).
      congruence.
  - apply elem_of_cons in Hin as [->|Hin].
    + rewrite decide_True by done. exists x. repeat split. by left.
    + exfalso. apply (proj1 (lastMatch_None k self xs)) in Hl. tauto.
Qed.

(** X3. With a healthy driver, a listed node that is neither the process
    itself nor the reporting node and that neither cache nor table knows
    is created with [discovered_by] the id of the reporting node (the one
    inside the report, not [sourceID]), [first_seen = last_seen = now],
    [is_active = true], and the locators of its last entry in the list. *)
Theorem merge_creates_unknown_node (ns : NodeService) (now : Z) (info : NodeInfo)
    (sourceID k : string) :
  registry_wf ns → faults ns = [] →
  k ≠ nodeID (configSvc ns) → k ≠ ni_ID info → k ∈ ID <$> ni_Nodes info →
  knownNodes ns !! k = None → nodeRepo ns !! k = None →
  ∃ y, lastMatch k (nodeID (configSvc ns)) (ni_Nodes info) = Some y ∧
       y ∈ ni_Nodes info ∧ ID y = k ∧
       knownNodes (MergeNodeInfo ns now (Some info) sourceID).2 !! k
         = Some (mkNode k (FQDN y) (IP y) (ni_ID info) now now true) ∧
       nodeRepo (MergeNodeInfo ns now (Some info) sourceID).2 !! k
         = Some (mkNode k (FQDN y) (IP y) (ni_ID info) now now true).
Proof.
  intros Hwf Hf Hs Hr Hin Hc Hd.
  destruct (lastMatch_listed k _ _ Hs Hin) as (y & Hl & Hy & Hid).
  exists y. repeat split; try done.
  all: destruct (MergeNodeInfo_healthy ns now info sourceID Hwf Hf) as (_ & _ & _ & Hv);
    specialize (Hv k); rewrite decide_False in Hv by tauto;
    unfold view in Hv at 2; rewrite Hc, Hd in Hv;
    rewrite (fold_from_unknown _ _ _ _ _ y Hl) in Hv;
    unfold view in Hv; by injection Hv.
Qed.

Lemma merge_creates_unknown_node_witness :
  registry_wf ex_ns ∧ faults ex_ns = [] ∧
  "q1" ≠ nodeID (configSvc ex_ns) ∧ "q1" ≠ ni_ID ex_info ∧
  "q1" ∈ ID <$> ni_Nodes ex_info ∧
  knownNodes ex_ns !! "q1" = None ∧ nodeRepo ex_ns !! "q1" = None ∧
  ∃ y, lastMatch "q1" (nodeID (configSvc ex_ns)) (ni_Nodes ex_info) = Some y ∧
       y ∈ ni_Nodes ex_info ∧ ID y = "q1" ∧
       knownNodes (MergeNodeInfo ex_ns 5 (Some ex_info) "report").2 !! "q1"
         = Some (mkNode "q1" (FQDN y) (IP y) (ni_ID ex_info) 5 5 true) ∧
       nodeRepo (MergeNodeInfo ex_ns 5 (Some ex_info) "report").2 !! "q1"
         = Some (mkNode "q1" (FQDN y) (IP y) (ni_ID ex_info) 5 5 true).
Proof.
  assert (Hwf : registry_wf ex_ns) by (apply registry_wf_check; vm_compute; reflexivity).
  assert (H1 : "q1" ≠ nodeID (configSvc ex_ns)) by (simpl; discriminate).
  assert (H2 : "q1" ≠ ni_ID ex_info) by (simpl; discriminate).
  assert (H3 : "q1" ∈ ID <$> ni_Nodes ex_info) by (simpl; left).
  assert (H4 : knownNodes ex_ns !! "q1" = None) by (vm_compute; reflexivity).
  assert (H5 : nodeRepo ex_ns !! "q1" = None) by (vm_compute; reflexivity).
  repeat (split; [assumption || reflexivity|]).
  exact (merge_creates_unknown_node ex_ns 5 ex_info "report" "q1" Hwf eq_refl H1 H2 H3 H4 H5).
Defined.



(** ** Seed nodes *)

Lemma loadSeedNode_keeps now self ns s k n :
  knownNodes ns !! k = Some n → view k (loadSeedNode now self ns s) = view k ns.
Proof.
  intros Hk. unfold loadSeedNode. case_decide; [done|].
  destruct (knownNodes ns !! seedID s) eqn:Hs; [done|].
  destruct (addOrUpdateNode _ _) as [[e e2] ns2] eqn:Hup.
  apply upsert_frame in Hup as [_ Hfr]. apply Hfr. simpl. intros ->. congruence.
Qed.

Lemma loadSeedNode_other now self ns s k :
  seedID s ≠ k → view k (loadSeedNode now self ns s) = view k ns.
Proof.
  intros Hne. unfold loadSeedNode. case_decide; [done|].
  destruct (knownNodes ns !! seedID s) eqn:Hs; [done|].
  destruct (addOrUpdateNode _ _) as [[e e2] ns2] eqn:Hup.
  apply upsert_frame in Hup as [_ Hfr]. apply Hfr. simpl. congruence.
Qed.

Lemma loadSeedNode_healthy now self ns s :
  faults ns = [] →
  faults (loadSeedNode now self ns s) = [] ∧
  configSvc (loadSeedNode now self ns s) = configSvc ns ∧
  (seedID s ≠ self → is_Some (knownNodes (loadSeedNode now self ns s) !! seedID s)) ∧
  (seedID s ≠ self → knownNodes ns !! seedID s = None →
   view (seedID s) (loadSeedNode now self ns s) =
   key_upsert (mkNode (seedID s) (seed_FQDN s) (seed_IP s) "seed" now now true)
              (view (seedID s) ns)).
Proof.
  intros Hf. unfold loadSeedNode. case_decide as Hs; [done|].
  destruct (knownNodes ns !! seedID s) eqn:Hk; [by eauto|].
  destruct (addOrUpdateNode_healthy ns
              (mkNode (seedID s) (seed_FQDN s) (seed_IP s) "seed" now now true) Hf)
    as (n' & ns' & Hup & Hf' & Hc' & Hid' & Hk' & Hv).
  rewrite Hup. simpl in *. repeat split; try done.
  - intros _. rewrite Hk', lookup_insert_eq. eauto.
  - intros _ _. rewrite Hv. by rewrite decide_True.
Qed.

Lemma loadSeeds_keep now self seeds ns k n :
  knownNodes ns !! k = Some n →
  view k (foldl (loadSeedNode now self) ns seeds) = view k ns.
Proof.
  revert ns. induction seeds as [|s seeds IH]; intros ns Hk; simpl; [done|].
  pose proof (loadSeedNode_keeps now self ns s k n Hk) as H1.
  rewrite IH with (ns := loadSeedNode now self ns s); [done|].
  unfold view in H1. injection H1 as H1 _. by rewrite H1.
Qed.

(** X5. With a healthy driver, loading a seed list registers every seed
    whose id neither cache nor table knows (and which is not the process's
    own id) under the id ["seed-<fqdn>-<ip>"], with the locators of the
    first entry of the list that has this id, [discovered_by = "seed"],
    [first_seen = last_seen = now] and [is_active = true]. *)
Theorem seed_load_registers_seed (ns : NodeService) (now : Z)
    (seeds : list SeedNode) (k : string) (s : SeedNode) :
  faults ns = [] → firstSeed k seeds = Some s → k ≠ nodeID (configSvc ns) →
  knownNodes ns !! k = None → nodeRepo ns !! k = None →
  k = seedID s ∧
  knownNodes (loadSeedNodes ns now (Ok (Some (mkSeedConfig seeds)))).2 !! k
    = Some (mkNode k (seed_FQDN s) (seed_IP s) "seed" now now true) ∧
  nodeRepo (loadSeedNodes ns now (Ok (Some (mkSeedConfig seeds)))).2 !! k
    = Some (mkNode k (seed_FQDN s) (seed_IP s) "seed" now now true).
Proof.
  intros Hf Hfirst Hs Hc Hd. unfold loadSeedNodes, GetNodeID. simpl.
  destruct seeds as [|s0 seeds0] eqn:Hseeds; [done|]. rewrite <-Hseeds in *.
  clear Hseeds s0 seeds0. cbn [snd].
  set (self := nodeID (configSvc ns)) in *.
  assert (Hgen : ∀ ns, faults ns = [] → view k ns = (None, None) →
            k = seedID s ∧
            view k (foldl (loadSeedNode now self) ns seeds)
            = (Some (mkNode k (seed_FQDN s) (seed_IP s) "seed" now now true),
               Some (mkNode k (seed_FQDN s) (seed_IP s) "seed" now now true))).
  { clear Hf Hc Hd. induction seeds as [|s' seeds IH]; intros ns0 Hf0 Hv0; [done|].
    simpl in Hfirst. simpl.
    destruct (loadSeedNode_healthy now self ns0 s' Hf0) as (Hf1 & _ & _ & Hnew).
    case_decide as Hid.
    - injection Hfirst as ->. split; [done|]. subst k.
      injection Hv0 as Hc0 Hd0.
      specialize (Hnew Hs Hc0). rewrite loadSeeds_keep with
        (n := mkNode (seedID s) (seed_FQDN s) (seed_IP s) "seed" now now true).
      + rewrite Hnew. unfold key_upsert, view. simpl. by rewrite Hd0.
      + apply (f_equal fst) in Hnew. unfold view in Hnew at 1. simpl in Hnew.
        rewrite Hnew. unfold key_upsert, view. simpl. by rewrite Hd0.
    - apply IH; [done..|]. by rewrite loadSeedNode_other. }
  destruct (Hgen ns Hf) as [Hk Hv]; [unfold view; by rewrite Hc, Hd|].
  split; [done|]. unfold view in Hv. by injection Hv.
Qed.

Lemma seed_load_registers_seed_witness :
  faults ex_ns = [] ∧
  firstSeed "seed-b.example.com-10.0.0.2" (seed_Nodes ex_seeds)
    = Some (mkSeedNode "b.example.com" "10.0.0.2") ∧
  "seed-b.example.com-10.0.0.2" ≠ nodeID (configSvc ex_ns) ∧
  knownNodes ex_ns !! "seed-b.example.com-10.0.0.2" = None ∧
  nodeRepo ex_ns !! "seed-b.example.com-10.0.0.2" = None ∧
  "seed-b.example.com-10.0.0.2" = seedID (mkSeedNode "b.example.com" "10.0.0.2") ∧
  knownNodes (loadSeedNodes ex_ns 4 (Ok (Some (mkSeedConfig (seed_Nodes ex_seeds))))).2
    !! "seed-b.example.com-10.0.0.2"
    = Some (mkNode "seed-b.example.com-10.0.0.2" "b.example.com" "10.0.0.2"
                   "seed" 4 4 true) ∧
  nodeRepo (loadSeedNodes ex_ns 4 (Ok (Some (mkSeedConfig (seed_Nodes ex_seeds))))).2
    !! "seed-b.example.com-10.0.0.2"
    = Some (mkNode "seed-b.example.com-10.0.0.2" "b.example.com" "10.0.0.2"
                   "seed" 4 4 true).
Proof.
  assert (H1 : firstSeed "seed-b.example.com-10.0.0.2" (seed_Nodes ex_seeds)
               = Some (mkSeedNode "b.example.com" "10.0.0.2")) by (vm_compute; reflexivity).
  assert (H2 : "seed-b.example.com-10.0.0.2" ≠ nodeID (configSvc ex_ns))
    by (simpl; discriminate).
  assert (H3 : knownNodes ex_ns !! "seed-b.example.com-10.0.0.2" = None)
    by (vm_compute; reflexivity).
  assert (H4 : nodeRepo ex_ns !! "seed-b.example.com-10.0.0.2" = None)
    by (vm_compute; reflexivity).
  split; [reflexivity|]. split; [exact H1|]. split; [exact H2|].
  split; [exact H3|]. split; [exact H4|].
  exact (seed_load_registers_seed ex_ns 4 (seed_Nodes ex_seeds) _ _ eq_refl H1 H2 H3 H4).
Defined.

Lemma loadSeeds_healthy now self seeds ns :
  faults ns = [] →
  faults (foldl (loadSeedNode now self) ns seeds) = [] ∧
  configSvc (foldl (loadSeedNode now self) ns seeds) = configSvc ns ∧
  ∀ s, s ∈ seeds → seedID s ≠ self →
       is_Some (knownNodes (foldl (loadSeedNode now self) ns seeds) !! seedID s).
Proof.
  revert ns. induction seeds as [|s' seeds IH]; intros ns Hf; simpl.
  - repeat split; try done. by intros s ?%elem_of_nil.
  - destruct (loadSeedNode_healthy now self ns s' Hf) as (Hf1 & Hc1 & Hk1 & _).
    destruct (IH _ Hf1) as (Hf2 & Hc2 & Hk2). repeat split; [done|congruence|].
    intros s [->|Hin]%elem_of_cons Hs; [|by apply Hk2].
    destruct (Hk1 Hs) as [n Hn].
    pose proof (loadSeeds_keep now self seeds _ _ _ Hn) as Hv.
    apply (f_equal fst) in Hv. unfold view in Hv. simpl in Hv. rewrite Hv. eauto.
Qed.

Lemma loadSeeds_noop now self seeds ns :
  (∀ s, s ∈ seeds → seedID s ≠ self → is_Some (knownNodes ns !! seedID s)) →
  foldl (loadSeedNode now self) ns seeds = ns.
Proof.
  induction seeds as [|s seeds IH]; intros Hall; simpl; [done|].
  assert (loadSeedNode now self ns s = ns) as ->.
  { unfold loadSeedNode. case_decide as Hs; [done|].
    destruct (Hall s) as [n ->]; [by left|done..]. }
  apply IH. intros s' Hin. apply Hall. by right.
Qed.

(** X6. With a healthy driver, loading the same seed configuration a
    second time changes nothing: every seed is found in the cache and
    skipped, so no entry is duplicated or rewritten and no statement is
    issued. *)
Theorem seed_load_twice_is_once (ns : NodeService) (now1 now2 : Z)
    (seedConfig : result (option SeedConfig)) :
  faults ns = [] →
  (loadSeedNodes (loadSeedNodes ns now1 seedConfig).2 now2 seedConfig).2
  = (loadSeedNodes ns now1 seedConfig).2.
Proof.
  intros Hf. unfold loadSeedNodes at 2 3, GetNodeID.
  destruct seedConfig as [[cfg|]|]; try done.
  destruct (seed_Nodes cfg) as [|s0 l0] eqn:Hs; [by simpl; rewrite Hs|].
  rewrite <-Hs. cbn [snd].
  destruct (loadSeeds_healthy now1 (nodeID (configSvc ns)) (seed_Nodes cfg) ns Hf)
    as (Hf1 & Hc1 & Hk1).
  unfold loadSeedNodes, GetNodeID. rewrite Hs. rewrite <-Hs. cbn [snd].
  rewrite Hc1. by apply loadSeeds_noop.
Qed.

Lemma seed_load_twice_is_once_witness :
  faults ex_ns = [] ∧
  (loadSeedNodes (loadSeedNodes ex_ns 4 (Ok (Some ex_seeds))).2 8 (Ok (Some ex_seeds))).2
  = (loadSeedNodes ex_ns 4 (Ok (Some ex_seeds))).2.
Proof.
  split; [reflexivity|].
  exact (seed_load_twice_is_once ex_ns 4 8 (Ok (Some ex_seeds)) eq_refl).
Defined.

(** ** Reading the registry *)

Lemma iteration_order_elem m order k :
  iteration_order m order → k ∈ order ↔ is_Some (m !! k).
Proof.
  intros [_ Hdom]. rewrite <-elem_of_dom, <-Hdom. by rewrite elem_of_list_to_set.
Qed.

Lemma range_map_ids (m : gmap string Node) (order : list string) :
  map_Forall (λ k n, ID n = k) m →
  (∀ k, k ∈ order → is_Some (m !! k)) →
  ID <$> range_map m order = order.
Proof.
  intros Hwf. unfold range_map. induction order as [|k order IH]; intros Hall; csimpl; [done|].
  destruct (Hall k) as [n Hk]; [by left|]. rewrite Hk. csimpl.
  rewrite (Hwf _ _ Hk). f_equal. apply IH. intros k' ?. apply Hall. by right.
Qed.

Lemma range_map_elem ns order n :
  registry_wf ns → iteration_order (knownNodes ns) order →
  n ∈ range_map (knownNodes ns) order ↔ knownNodes ns !! ID n = Some n.
Proof.
  intros Hwf Hord. unfold range_map. rewrite list_elem_of_omap. split.
  - intros (k & _ & Hk). by rewrite (Hwf _ _ Hk).
  - intros Hn. exists (ID n). split; [|done].
    apply (iteration_order_elem _ _ _ Hord). eauto.
Qed.

Lemma active_nodes_ids ns order :
  registry_wf ns → iteration_order (knownNodes ns) order →
  (∀ n, n ∈ GetActiveNodes ns order ↔
        knownNodes ns !! ID n = Some n ∧ IsActive n = true) ∧
  NoDup (ID <$> GetActiveNodes ns order).
Proof.
  intros Hwf Hord. unfold GetActiveNodes. split.
  - intros n. rewrite list_elem_of_filter, range_map_elem by done. tauto.
  - eapply sublist_NoDup; [|apply fmap_sublist, sublist_filter].
    rewrite range_map_ids; [apply Hord|done|].
    intros k. by apply iteration_order_elem.
Qed.

(** X7. Whatever valid order the runtime picks for the range over the
    registry, [GetActiveNodes] returns exactly the cached nodes marked
    active, each once, and [GetKnownNodes] exactly the cached nodes, each
    once. *)
Theorem active_nodes_listed_once (ns : NodeService) (order : list string) :
  registry_wf ns → iteration_order (knownNodes ns) order →
  (∀ n, n ∈ GetActiveNodes ns order ↔
        knownNodes ns !! ID n = Some n ∧ IsActive n = true) ∧
  NoDup (ID <$> GetActiveNodes ns order) ∧
  (∀ n, n ∈ GetKnownNodes ns order ↔ knownNodes ns !! ID n = Some n) ∧
  NoDup (ID <$> GetKnownNodes ns order) ∧
  length (GetKnownNodes ns order) = size (knownNodes ns).
Proof.
  intros Hwf Hord.
  assert (Hids : ID <$> range_map (knownNodes ns) order = order).
  { apply range_map_ids; [done|]. intros k. by apply iteration_order_elem. }
  assert (Hnd : NoDup (ID <$> range_map (knownNodes ns) order)).
  { rewrite Hids. apply Hord. }
  unfold GetActiveNodes, GetKnownNodes.
  split; [|split; [|split; [|split]]].
  - intros n. rewrite list_elem_of_filter, range_map_elem by done. tauto.
  - eapply sublist_NoDup; [exact Hnd|]. apply fmap_sublist, sublist_filter.
  - intros n. by apply range_map_elem.
  - done.
  - rewrite <-(length_fmap ID), Hids, <-size_dom.
    destruct Hord as [Hnd' <-]. by rewrite size_list_to_set.
Qed.

Lemma active_nodes_listed_once_witness :
  registry_wf (nodeService ex_ps2) ∧
  iteration_order (knownNodes (nodeService ex_ps2)) ["b"; "a"] ∧
  (∀ n, n ∈ GetActiveNodes (nodeService ex_ps2) ["b"; "a"] ↔
        knownNodes (nodeService ex_ps2) !! ID n = Some n ∧ IsActive n = true) ∧
  NoDup (ID <$> GetActiveNodes (nodeService ex_ps2) ["b"; "a"]) ∧
  (∀ n, n ∈ GetKnownNodes (nodeService ex_ps2) ["b"; "a"] ↔
        knownNodes (nodeService ex_ps2) !! ID n = Some n) ∧
  NoDup (ID <$> GetKnownNodes (nodeService ex_ps2) ["b"; "a"]) ∧
  length (GetKnownNodes (nodeService ex_ps2) ["b"; "a"])
  = size (knownNodes (nodeService ex_ps2)).
Proof.
  assert (Hwf : registry_wf (nodeService ex_ps2))
    by (apply registry_wf_check; vm_compute; reflexivity).
  assert (Hord : iteration_order (knownNodes (nodeService ex_ps2)) ["b"; "a"]).
  { split; apply (bool_decide_unpack _); vm_compute; reflexivity. }
  split; [exact Hwf|]. split; [exact Hord|].
  exact (active_nodes_listed_once (nodeService ex_ps2) ["b"; "a"] Hwf Hord).
Defined.

(** X8. An upsert that succeeds can be read back: [GetNodeByID] returns
    the node as it was written, which is the node passed in except that
    [first_seen] is the stored one if the table already had a row; the
    table holds the same node.  An id the cache does not know is answered
    with an error. *)
Theorem upsert_then_get (ns ns' : NodeService) (node node' : Node) :
  addOrUpdateNode ns node = (None, node', ns') →
  GetNodeByID ns' (ID node) = Ok node' ∧
  nodeRepo ns' !! ID node = Some node' ∧
  node' = set_FirstSeen
            (match nodeRepo ns !! ID node with
             | Some existingNode => FirstSeen existingNode
             | None => FirstSeen node
             end) node ∧
  ∀ id, knownNodes ns' !! id = None →
        GetNodeByID ns' id = Err ("node " ++ id ++ " not found").
Proof.
  intros H.
  apply addOrUpdateNode_cases in H as (_ & _ & _ & [(_ & Hn & Hk & Hd)|([? [=]] & _)]).
  unfold GetNodeByID. rewrite Hk, Hd, !lookup_insert_eq. repeat split.
  - rewrite Hn. destruct (nodeRepo ns !! ID node); [done|].
    by rewrite set_FirstSeen_same.
  - intros id Hid. by rewrite Hid.
Qed.

Lemma upsert_then_get_witness :
  addOrUpdateNode ex_ns (mkNode "p" "p2.example.com" "10.0.0.7" "report" 7 7 true)
  = (None, mkNode "p" "p2.example.com" "10.0.0.7" "report" 1 7 true,
     (addOrUpdateNode ex_ns (mkNode "p" "p2.example.com" "10.0.0.7" "report" 7 7 true)).2) ∧
  GetNodeByID
    (addOrUpdateNode ex_ns (mkNode "p" "p2.example.com" "10.0.0.7" "report" 7 7 true)).2
    "p"
  = Ok (mkNode "p" "p2.example.com" "10.0.0.7" "report" 1 7 true).
Proof.
  assert (H : addOrUpdateNode ex_ns (mkNode "p" "p2.example.com" "10.0.0.7" "report" 7 7 true)
    = (None, mkNode "p" "p2.example.com" "10.0.0.7" "report" 1 7 true,
       (addOrUpdateNode ex_ns (mkNode "p" "p2.example.com" "10.0.0.7" "report" 7 7 true)).2))
    by (vm_compute; reflexivity).
  split; [exact H|].
  exact (proj1 (upsert_then_get _ _ _ _ H)).
Defined.

(** ** Start-up, continued *)

Lemma load_frame (l : list Node) (m : gmap string Node) k :
  k ∉ ID <$> l → foldl (λ m n, <[ID n := n]> m) m l !! k = m !! k.
Proof.
  revert m. induction l as [|a l IH]; intros m Hk; simpl; [done|].
  rewrite IH by (intros ?; apply Hk; by right).
  rewrite lookup_insert_ne; [done|]. intros Heq. apply Hk. rewrite <-Heq. by left.
Qed.

Lemma load_all (l : list Node) (m : gmap string Node) n :
  NoDup (ID <$> l) → n ∈ l → foldl (λ m n, <[ID n := n]> m) m l !! ID n = Some n.
Proof.
  revert m. induction l as [|a l IH]; intros m Hnd Hin; [by apply elem_of_nil in Hin|].
  simpl in *. apply NoDup_cons in Hnd as [Ha Hnd].
  apply elem_of_cons in Hin as [->|Hin].
  - rewrite load_frame by done. by rewrite lookup_insert_eq.
  - by apply IH.
Qed.

Lemma loadSeedNodes_keeps ns now cfg k n :
  knownNodes ns !! k = Some n → knownNodes (loadSeedNodes ns now cfg).2 !! k = Some n.
Proof.
  intros Hk. unfold loadSeedNodes, GetNodeID.
  destruct cfg as [[cfg|]|]; try done.
  destruct (seed_Nodes cfg) as [|s l] eqn:Hs; [done|]. cbn [snd].
  pose proof (loadSeeds_keep now (nodeID (configSvc ns)) (s :: l) ns k n Hk) as Hv.
  apply (f_equal fst) in Hv. unfold view in Hv. cbn [fst] in Hv. by rewrite Hv.
Qed.

(** X9. [Initialize] on a freshly constructed service, over a table whose
    rows carry their key as id: when the SELECT fails it returns the error
    and the cache stays empty; otherwise it returns no error (a failure to
    load the seeds is not one) and every row of the table is in the cache
    as stored.  Either way the registry files every node under its id and
    agrees with the table on [first_seen]. *)
Theorem Initialize_loads_table (ns : NodeService) (now : Z)
    (seedConfig : result (option SeedConfig)) :
  map_Forall (λ k n, ID n = k) (nodeRepo ns) → knownNodes ns = ∅ →
  registry_wf (Initialize ns now seedConfig).2 ∧
  consistent (Initialize ns now seedConfig).2 ∧
  match faults ns with
  | Some _ :: _ =>
      is_Some (Initialize ns now seedConfig).1 ∧
      knownNodes (Initialize ns now seedConfig).2 = ∅
  | _ =>
      (Initialize ns now seedConfig).1 = None ∧
      ∀ k r, nodeRepo ns !! k = Some r →
             knownNodes (Initialize ns now seedConfig).2 !! k = Some r
  end.
Proof.
  intros Hrows Hempty.
  destruct (Initialize_registry ns now seedConfig Hrows Hempty) as [Hwf Hco].
  split; [done|]. split; [done|]. clear Hwf Hco.
  assert (Hload : ∀ ns1, nodeRepo ns1 = nodeRepo ns → knownNodes ns1 = ∅ →
    ∀ k r, nodeRepo ns !! k = Some r →
      knownNodes
        (loadSeedNodes
           (with_known ns1
              (foldl (λ m n, <[ID n := n]> m) (knownNodes ns1)
                     (map_to_list (nodeRepo ns1)).*2)) now seedConfig).2 !! k = Some r).
  { intros ns1 Hd Hk k r Hr. apply loadSeedNodes_keeps. simpl. rewrite Hd.
    rewrite <-(Hrows _ _ Hr) at 1. apply load_all.
    - replace (ID <$> (map_to_list (nodeRepo ns)).*2)
        with ((map_to_list (nodeRepo ns)).*1); [apply NoDup_fst_map_to_list|].
      rewrite <-!list_fmap_compose. apply list_fmap_ext.
      intros i [k' r'] Hi. simpl. symmetry. apply Hrows.
      apply elem_of_map_to_list. by apply list_elem_of_lookup_2 in Hi.
    - apply list_elem_of_fmap. exists (k, r). split; [done|].
      by apply elem_of_map_to_list. }
  unfold Initialize, sql. destruct ns as [d c m fs]. simpl in *. subst m.
  destruct fs as [|[msg|] fs]; simpl.
  - specialize (Hload (mkNS d c ∅ []) eq_refl eq_refl). simpl in Hload.
    destruct (loadSeedNodes _ _ _) as [e ns2]. simpl in *. by split.
  - split; [eauto|done].
  - specialize (Hload (mkNS d c ∅ fs) eq_refl eq_refl). simpl in Hload.
    destruct (loadSeedNodes _ _ _) as [e ns2]. simpl in *. by split.
Qed.

Lemma Initialize_loads_table_witness :
  map_Forall (λ k n, ID n = k) (nodeRepo ex_ns_fresh) ∧ knownNodes ex_ns_fresh = ∅ ∧
  registry_wf (Initialize ex_ns_fresh 4 (Ok (Some ex_seeds))).2 ∧
  consistent (Initialize ex_ns_fresh 4 (Ok (Some ex_seeds))).2 ∧
  match faults ex_ns_fresh with
  | Some _ :: _ =>
      is_Some (Initialize ex_ns_fresh 4 (Ok (Some ex_seeds))).1 ∧
      knownNodes (Initialize ex_ns_fresh 4 (Ok (Some ex_seeds))).2 = ∅
  | _ =>
      (Initialize ex_ns_fresh 4 (Ok (Some ex_seeds))).1 = None ∧
      ∀ k r, nodeRepo ex_ns_fresh !! k = Some r →
             knownNodes (Initialize ex_ns_fresh 4 (Ok (Some ex_seeds))).2 !! k = Some r
  end.
Proof.
  assert (H1 : map_Forall (λ k n, ID n = k) (nodeRepo ex_ns_fresh))
    by (apply (bool_decide_unpack _); vm_compute; reflexivity).
  split; [exact H1|]. split; [reflexivity|].
  exact (Initialize_loads_table ex_ns_fresh 4 (Ok (Some ex_seeds)) H1 eq_refl).
Defined.

(** ** DiscoverNodes *)

Lemma UpdateNode_healthy ns n :
  faults ns = [] →
  faults (UpdateNode ns n).2 = [] ∧
  nodeRepo (UpdateNode ns n).2 =
    match nodeRepo ns !! ID n with
    | Some _ => <[ID n := n]> (nodeRepo ns)
    | None => nodeRepo ns
    end.
Proof.
  destruct ns as [d c m fs]. simpl. intros ->. unfold UpdateNode, sql. simpl.
  by destruct (d !! ID n).
Qed.

Lemma UpdateNode_other ns n k :
  k ≠ ID n → nodeRepo (UpdateNode ns n).2 !! k = nodeRepo ns !! k.
Proof.
  intros Hk. destruct (UpdateNode ns n) as [e ns'] eqn:Hup.
  apply UpdateNode_cases in Hup as (_ & _ & [(_ & _ & Hd)|Hd]); simpl; rewrite Hd; [|done].
  by rewrite lookup_insert_ne.
Qed.

Section Discover.
Variable now : Z.

Lemma discover_cache L ns :
  knownNodes (foldl (refreshRow now) ns L) = knownNodes ns ∧
  dom (nodeRepo (foldl (refreshRow now) ns L)) = dom (nodeRepo ns).
Proof.
  revert ns. induction L as [|a L IH]; intros ns; simpl; [done|].
  destruct (IH (refreshRow now ns a)) as [-> ->]. unfold refreshRow.
  destruct (grows_UpdateNode ns (set_LastSeen now a)) as [-> ->]. done.
Qed.

Lemma discover_other L ns k :
  k ∉ ID <$> L → nodeRepo (foldl (refreshRow now) ns L) !! k = nodeRepo ns !! k.
Proof.
  revert ns. induction L as [|a L IH]; intros ns Hk; simpl; [done|].
  rewrite IH by (intros ?; apply Hk; by right).
  unfold refreshRow. apply UpdateNode_other. simpl. intros ->. apply Hk. by left.
Qed.

Lemma discover_row L ns a r :
  faults ns = [] → NoDup (ID <$> L) → a ∈ L → nodeRepo ns !! ID a = Some r →
  nodeRepo (foldl (refreshRow now) ns L) !! ID a = Some (set_LastSeen now a).
Proof.
  revert ns r. induction L as [|b L IH]; intros ns r Hf Hnd Hin Hr;
    [by apply elem_of_nil in Hin|].
  simpl in *. apply NoDup_cons in Hnd as [Hb Hnd].
  destruct (UpdateNode_healthy ns (set_LastSeen now b) Hf) as [Hf1 Hd1].
  apply elem_of_cons in Hin as [->|Hin].
  - rewrite discover_other by done. unfold refreshRow. rewrite Hd1. simpl.
    by rewrite Hr, lookup_insert_eq.
  - assert (ID a ≠ ID b).
    { intros Heq. apply Hb. rewrite <-Heq. by apply list_elem_of_fmap_2. }
    eapply (IH (refreshRow now ns b)); [done..|].
    unfold refreshRow. by rewrite UpdateNode_other.
Qed.
End Discover.

(** X10. [DiscoverNodes] never fails and never touches the cache, and it
    neither adds a row to the table nor removes one.  With a healthy
    driver it rewrites exactly the rows of the cached nodes marked active:
    such a row becomes the cached node with [last_seen = now].  The
    cached [last_seen] itself is not refreshed. *)
Theorem DiscoverNodes_refreshes_rows (ns : NodeService) (order : list string) (now : Z) :
  registry_wf ns → iteration_order (knownNodes ns) order → faults ns = [] →
  (DiscoverNodes ns order now).1 = None ∧
  knownNodes (DiscoverNodes ns order now).2 = knownNodes ns ∧
  dom (nodeRepo (DiscoverNodes ns order now).2) = dom (nodeRepo ns) ∧
  ∀ k, nodeRepo (DiscoverNodes ns order now).2 !! k =
       match knownNodes ns !! k, nodeRepo ns !! k with
       | Some e, Some r => if IsActive e then Some (set_LastSeen now e) else Some r
       | _, _ => nodeRepo ns !! k
       end.
Proof.
  intros Hwf Hord Hf. unfold DiscoverNodes. cbn [fst snd].
  destruct (active_nodes_ids ns order Hwf Hord) as [Hin Hnd].
  destruct (discover_cache now (GetActiveNodes ns order) ns) as [Hc Hd].
  split; [done|]. split; [done|]. split; [done|]. intros k.
  destruct (knownNodes ns !! k) as [e|] eqn:Hk.
  - pose proof (Hwf _ _ Hk) as Hid.
    destruct (IsActive e) eqn:Ha.
    + assert (He : e ∈ GetActiveNodes ns order) by (apply Hin; by rewrite Hid).
      destruct (nodeRepo ns !! k) as [r|] eqn:Hr.
      * rewrite <-Hid. eapply discover_row; [done..|]. by rewrite Hid.
      * apply not_elem_of_dom. rewrite Hd. by apply not_elem_of_dom.
    + rewrite discover_other; [by destruct (nodeRepo ns !! k)|].
      intros (a & -> & [Ha1 Ha2]%Hin)%list_elem_of_fmap. congruence.
  - apply discover_other.
    intros (a & -> & [Ha1 Ha2]%Hin)%list_elem_of_fmap. congruence.
Qed.

Lemma DiscoverNodes_refreshes_rows_witness :
  registry_wf ex_ns ∧ iteration_order (knownNodes ex_ns) ["p"] ∧ faults ex_ns = [] ∧
  (DiscoverNodes ex_ns ["p"] 6).1 = None ∧
  knownNodes (DiscoverNodes ex_ns ["p"] 6).2 = knownNodes ex_ns ∧
  dom (nodeRepo (DiscoverNodes ex_ns ["p"] 6).2) = dom (nodeRepo ex_ns) ∧
  ∀ k, nodeRepo (DiscoverNodes ex_ns ["p"] 6).2 !! k =
       match knownNodes ex_ns !! k, nodeRepo ex_ns !! k with
       | Some e, Some r => if IsActive e then Some (set_LastSeen 6 e) else Some r
       | _, _ => nodeRepo ex_ns !! k
       end.
Proof.
  assert (Hwf : registry_wf ex_ns) by (apply registry_wf_check; vm_compute; reflexivity).
  assert (Hord : iteration_order (knownNodes ex_ns) ["p"]).
  { split; apply (bool_decide_unpack _); vm_compute; reflexivity. }
  split; [exact Hwf|]. split; [exact Hord|]. split; [reflexivity|].
  exact (DiscoverNodes_refreshes_rows ex_ns ["p"] 6 Hwf Hord eq_refl).
Defined.

(** ** Polling, continued *)

(** X11. Path discovery runs at most once per node: [PollNode] marks the
    node as polled, whatever the outcome, and leaves the marks of the other
    nodes alone; any later [PollNode] of the same node records no path MTU,
    whatever the network answers. *)
Theorem path_discovery_runs_once (ps : PollingService) (t t' : Tick) (node : Node) :
  firstPolls (PollNode ps t node).2 !! ID node = Some true ∧
  (∀ k, k ≠ ID node → firstPolls (PollNode ps t node).2 !! k = firstPolls ps !! k) ∧
  pr_PathMTU (PollNode (PollNode ps t node).2 t' node).1.1 = 0%Z.
Proof.
  assert (Hfp : ∀ ps t,
    firstPolls (PollNode ps t node).2 =
    if negb (default false (firstPolls ps !! ID node))
    then <[ID node := true]> (firstPolls ps) else firstPolls ps).
  { intros ps0 t0. unfold PollNode.
    destruct (net_GetNodeInfo t0 (nodeURL node)); [|done].
    by destruct (MergeNodeInfo _ _ _ _). }
  assert (Hmark : firstPolls (PollNode ps t node).2 !! ID node = Some true).
  { rewrite Hfp. destruct (firstPolls ps !! ID node) as [[]|] eqn:Hk; simpl;
      rewrite ?lookup_insert_eq; done. }
  split; [done|]. split.
  - intros k Hk. rewrite Hfp. destruct (negb _); [|done]. by rewrite lookup_insert_ne.
  - set (ps1 := (PollNode ps t node).2) in *. unfold PollNode. rewrite Hmark.
    destruct (net_GetNodeInfo t' (nodeURL node));
      [destruct (MergeNodeInfo _ _ _ _)|]; done.
Qed.

(** X12. A tick that finds no active node other than the process itself
    does nothing: no probe, no history row, cursor and registry as
    before. *)
Theorem tick_without_peers_is_noop (pg : Pager) (ps : PollingService) (t : Tick) :
  filteredNodes ps (range_order t) = [] → pollNextNode pg ps t = (None, ps).
Proof.
  unfold filteredNodes, pollNextNode, GetNodeID. intros H.
  destruct (GetActiveNodes (nodeService ps) (range_order t)) as [|a l]; [done|].
  by rewrite H.
Qed.

Lemma tick_without_peers_is_noop_witness :
  filteredNodes ex_ps_empty (range_order ex_tick1) = [] ∧
  pollNextNode ex_pager ex_ps_empty ex_tick1 = (None, ex_ps_empty).
Proof.
  assert (H : filteredNodes ex_ps_empty (range_order ex_tick1) = [])
    by (vm_compute; reflexivity).
  split; [exact H|].
  exact (tick_without_peers_is_noop ex_pager ex_ps_empty ex_tick1 H).
Defined.

Lemma filteredNodes_cached ps order n :
  registry_wf (nodeService ps) → n ∈ filteredNodes ps order →
  knownNodes (nodeService ps) !! ID n = Some n.
Proof.
  intros Hwf. unfold filteredNodes, GetActiveNodes, range_map.
  intros [_ [_ Hn]%list_elem_of_filter]%list_elem_of_filter.
  apply list_elem_of_omap in Hn as (k & _ & Hk). by rewrite (Hwf _ _ Hk).
Qed.

Lemma PollNode_registry ps t node :
  grows (nodeService ps) (nodeService (PollNode ps t node).2) ∧
  (probe_ok t node = false → nodeService (PollNode ps t node).2 = nodeService ps) ∧
  pr_Success (PollNode ps t node).1.1 = probe_ok t node ∧
  pr_PollTime (PollNode ps t node).1.1 = startTime t ∧
  pr_ResponseMs (PollNode ps t node).1.1 = (endTime t - startTime t)%Z.
Proof.
  unfold PollNode, probe_ok.
  destruct (net_GetNodeInfo t (nodeURL node)) as [info|msg].
  - pose proof (grows_Merge (nodeService ps) (mergeTime t) (Some info) (ID node)) as Hg.
    destruct (MergeNodeInfo _ _ _ _) as [e ns1].
    destruct (negb (default false (firstPolls ps !! ID node)));
      [destruct (TestPathMTU _ _) as [? []]|]; simpl in *;
      (split; [exact Hg|repeat split; done]).
  - destruct (negb (default false (firstPolls ps !! ID node)));
      [destruct (TestPathMTU _ _) as [? []]|]; simpl;
      (split; [apply grows_refl|repeat split; done]).
Qed.

(** X13. A tick over a registry with at least one eligible peer probes
    the node under the clamped cursor and returns no error.  Afterwards
    the liveness flag of that node in the cache is the outcome of the
    probe, also when the UPDATE of its row fails; after a failed probe the
    rest of the cache is as before.  With a healthy history driver exactly
    one row is appended to the poll history: for that node, with the time
    the probe started, the elapsed time and the outcome. *)
Theorem tick_records_outcome (pg : Pager) (ps : PollingService) (t : Tick) :
  registry_wf (nodeService ps) →
  filteredNodes ps (range_order t) ≠ [] → (0 <= nodeIndex ps)%Z →
  ∃ n row,
    filteredNodes ps (range_order t)
      !! Z.to_nat (rotate (nodeIndex ps) (length (filteredNodes ps (range_order t)))).1
      = Some n ∧
    (pollNextNode pg ps t).1 = None ∧
    IsActive <$> knownNodes (nodeService (pollNextNode pg ps t).2) !! ID n
      = Some (probe_ok t n) ∧
    (probe_ok t n = false →
     knownNodes (nodeService (pollNextNode pg ps t).2)
     = <[ID n := set_IsActive false n]> (knownNodes (nodeService ps))) ∧
    (poll_faults (pollRepo ps) = [] →
     poll_results (pollRepo (pollNextNode pg ps t).2)
     = (poll_results (pollRepo ps) ++ [row])%list) ∧
    pr_NodeID row = ID n ∧ pr_Success row = probe_ok t n ∧
    pr_PollTime row = startTime t ∧
    pr_ResponseMs row = (endTime t - startTime t)%Z.
Proof.
  intros Hwf HL Hidx. unfold pollNextNode, GetNodeID.
  pose proof (filteredNodes_cached ps (range_order t)) as Hcached.
  unfold filteredNodes in *.
  destruct (GetActiveNodes (nodeService ps) (range_order t)) as [|a nodes] eqn:Hact;
    [done|].
  set (L := filter _ (a :: nodes)) in *.
  destruct L as [|x L'] eqn:HLeq; [done|]. rewrite <-HLeq in *. clear HLeq.
  assert (Hin : (0 <= (rotate (nodeIndex ps) (length L)).1 < Z.of_nat (length L))%Z).
  { unfold rotate. assert (length L ≠ 0%nat) by (by destruct L).
    case_decide; simpl; lia. }
  destruct (rotate (nodeIndex ps) (length L)) as [i next] eqn:Hrot. simpl in *.
  destruct (L !! Z.to_nat i) as [n|] eqn:Hn.
  2:{ apply lookup_ge_None in Hn. lia. }
  assert (Hn_cached : knownNodes (nodeService ps) !! ID n = Some n).
  { apply Hcached; [done|]. by apply list_elem_of_lookup_2 in Hn. }
  set (ps0 := mkPS _ _ next _).
  destruct (PollNode_frame ps0 t n) as (Herr & Hid & Hrepo & Hni).
  destruct (PollNode_registry ps0 t n) as (Hgrow & Hfail & Hsucc & Htime & Hms).
  destruct (PollNode ps0 t n) as [[res err] ps1]. simpl in *. subst err.
  set (row := mkPollResult (sqlite_sequence (pollRepo ps) + 1) (pr_NodeID res)
                (pr_PollTime res) (pr_Success res) (pr_ResponseMs res)
                (pr_Error res) (pr_PathMTU res)).
  exists n, row.
  destruct (CreatePollResult pg (pollRepo ps1) res) as [e repo] eqn:Hc.
  assert (Hknown : is_Some (knownNodes (nodeService ps1) !! ID n)).
  { apply elem_of_dom. apply Hgrow. apply elem_of_dom. eauto. }
  destruct Hknown as [n1 Hn1].
  unfold UpdateNodeStatus. rewrite Hn1.
  pose proof (grows_UpdateNode
                (with_known (nodeService ps1)
                   (<[ID n := set_IsActive (pr_Success res) n1]>
                      (knownNodes (nodeService ps1))))
                (set_IsActive (pr_Success res) n1)) as [_ Hkn].
  destruct (UpdateNode _ _) as [e2 ns2]. simpl in Hkn.
  assert (Hrow : poll_faults (pollRepo ps) = [] →
            poll_results repo = (poll_results (pollRepo ps) ++ [row])%list).
  { intros Hf. unfold CreatePollResult, poll_sql in Hc.
    rewrite Hrepo, Hf in Hc. by injection Hc as _ <-. }
  assert (Hrest : probe_ok t n = false →
            <[ID n := set_IsActive (pr_Success res) n1]> (knownNodes (nodeService ps1))
            = <[ID n := set_IsActive false n]> (knownNodes (nodeService ps))).
  { intros Hf. specialize (Hfail Hf). rewrite Hsucc, Hf.
    rewrite Hfail in Hn1. rewrite Hn_cached in Hn1.
    injection Hn1 as <-. by rewrite Hfail. }
  destruct e2 as [msg|]; simpl; rewrite Hkn;
    (split; [done|]); (split; [done|]);
    (split; [rewrite lookup_insert_eq; simpl; by rewrite Hsucc|]);
    (split; [exact Hrest|]); (split; [exact Hrow|]);
    subst row; simpl; by rewrite Hid, Hsucc, Htime, Hms.
Qed.

Lemma tick_records_outcome_witness :
  registry_wf (nodeService ex_ps2) ∧
  filteredNodes ex_ps2 (range_order ex_tick_a_down) ≠ [] ∧
  (0 <= nodeIndex ex_ps2)%Z ∧
  ∃ n row,
    filteredNodes ex_ps2 (range_order ex_tick_a_down)
      !! Z.to_nat (rotate (nodeIndex ex_ps2)
                     (length (filteredNodes ex_ps2 (range_order ex_tick_a_down)))).1
      = Some n ∧
    (pollNextNode ex_pager ex_ps2 ex_tick_a_down).1 = None ∧
    IsActive <$> knownNodes (nodeService (pollNextNode ex_pager ex_ps2 ex_tick_a_down).2)
                   !! ID n
      = Some (probe_ok ex_tick_a_down n) ∧
    (probe_ok ex_tick_a_down n = false →
     knownNodes (nodeService (pollNextNode ex_pager ex_ps2 ex_tick_a_down).2)
     = <[ID n := set_IsActive false n]> (knownNodes (nodeService ex_ps2))) ∧
    (poll_faults (pollRepo ex_ps2) = [] →
     poll_results (pollRepo (pollNextNode ex_pager ex_ps2 ex_tick_a_down).2)
     = (poll_results (pollRepo ex_ps2) ++ [row])%list) ∧
    pr_NodeID row = ID n ∧ pr_Success row = probe_ok ex_tick_a_down n ∧
    pr_PollTime row = startTime ex_tick_a_down ∧
    pr_ResponseMs row = (endTime ex_tick_a_down - startTime ex_tick_a_down)%Z.
Proof.
  assert (Hwf : registry_wf (nodeService ex_ps2))
    by (apply registry_wf_check; vm_compute; reflexivity).
  assert (HL : filteredNodes ex_ps2 (range_order ex_tick_a_down) ≠ [])
    by (vm_compute; discriminate).
  assert (Hidx : (0 <= nodeIndex ex_ps2)%Z) by (simpl; lia).
  split; [exact Hwf|]. split; [exact HL|]. split; [exact Hidx|].
  exact (tick_records_outcome ex_pager ex_ps2 ex_tick_a_down Hwf HL Hidx).
Defined.

Lemma pollNextNode_no_error pg ps t :
  (0 <= nodeIndex ps)%Z → (pollNextNode pg ps t).1 = None.
Proof.
  intros Hidx. unfold pollNextNode, GetNodeID.
  destruct (GetActiveNodes (nodeService ps) (range_order t)) as [|a nodes]; [done|].
  set (L := filter _ (a :: nodes)).
  destruct L as [|x L'] eqn:HLeq; [done|].
  assert (HL : x :: L' ≠ []) by done. rewrite <-HLeq in *. clear HLeq.
  assert (Hin : (0 <= (rotate (nodeIndex ps) (length L)).1 < Z.of_nat (length L))%Z).
  { unfold rotate. assert (length L ≠ 0%nat) by (by destruct L).
    case_decide; simpl; lia. }
  destruct (rotate (nodeIndex ps) (length L)) as [i next]. simpl in *.
  destruct (L !! Z.to_nat i) as [n|] eqn:Hn.
  2:{ apply lookup_ge_None in Hn. lia. }
  destruct (PollNode_frame (mkPS (nodeService ps) (pollRepo ps) next (firstPolls ps)) t n)
    as (Herr & _).
  destruct (PollNode _ t n) as [[res err] ps1]. simpl in *. subst err.
  destruct (CreatePollResult _ _ _) as [e repo].
  by destruct (UpdateNodeStatus _ _ _) as [e2 ns2].
Qed.

(** X14. A tick from a non-negative cursor never fails and never indexes
    outside the list it computed: it returns no error and, when there is a
    peer to probe, leaves a cursor between 1 and the number of eligible
    peers; without one it leaves the cursor alone.  So the cursor stays
    non-negative over any number of ticks. *)
Theorem tick_keeps_cursor_in_range (pg : Pager) (ps : PollingService) (t : Tick) :
  (0 <= nodeIndex ps)%Z →
  (pollNextNode pg ps t).1 = None ∧
  (0 <= nodeIndex (pollNextNode pg ps t).2)%Z ∧
  (filteredNodes ps (range_order t) = [] →
   nodeIndex (pollNextNode pg ps t).2 = nodeIndex ps) ∧
  (filteredNodes ps (range_order t) ≠ [] →
   (1 <= nodeIndex (pollNextNode pg ps t).2
      <= Z.of_nat (length (filteredNodes ps (range_order t))))%Z).
Proof.
  intros Hidx. split; [by apply pollNextNode_no_error|].
  destruct (decide (filteredNodes ps (range_order t) = [])) as [Hnil|HL].
  - assert (Hnoop : pollNextNode pg ps t = (None, ps)).
    { revert Hnil. unfold filteredNodes, pollNextNode, GetNodeID. intros H.
      destruct (GetActiveNodes (nodeService ps) (range_order t)) as [|a l]; [done|].
      by rewrite H. }
    rewrite Hnoop. simpl. split; [done|]. split; [done|]. by intros [].
  - destruct (pollNextNode_selects pg ps t HL Hidx) as [Hnext _].
    assert (Hr : (1 <= (rotate (nodeIndex ps)
                          (length (filteredNodes ps (range_order t)))).2
                    <= Z.of_nat (length (filteredNodes ps (range_order t))))%Z).
    { unfold rotate.
      assert (length (filteredNodes ps (range_order t)) ≠ 0%nat)
        by (by destruct (filteredNodes ps (range_order t))).
      case_decide; simpl; lia. }
    rewrite Hnext. split; [lia|]. split; [done|]. by intros _.
Qed.

Lemma tick_keeps_cursor_in_range_witness :
  (0 <= nodeIndex ex_ps2)%Z ∧
  (pollNextNode ex_pager ex_ps2 ex_tick1).1 = None ∧
  (0 <= nodeIndex (pollNextNode ex_pager ex_ps2 ex_tick1).2)%Z ∧
  (filteredNodes ex_ps2 (range_order ex_tick1) = [] →
   nodeIndex (pollNextNode ex_pager ex_ps2 ex_tick1).2 = nodeIndex ex_ps2) ∧
  (filteredNodes ex_ps2 (range_order ex_tick1) ≠ [] →
   (1 <= nodeIndex (pollNextNode ex_pager ex_ps2 ex_tick1).2
      <= Z.of_nat (length (filteredNodes ex_ps2 (range_order ex_tick1))))%Z).
Proof.
  assert (Hidx : (0 <= nodeIndex ex_ps2)%Z) by (simpl; lia).
  split; [exact Hidx|].
  exact (tick_keeps_cursor_in_range ex_pager ex_ps2 ex_tick1 Hidx).
Defined.

Lemma pollNextNode_healthy_repo pg ps t :
  poll_faults (pollRepo ps) = [] →
  poll_faults (pollRepo (pollNextNode pg ps t).2) = [].
Proof.
  intros Hf. unfold pollNextNode, GetNodeID.
  destruct (GetActiveNodes (nodeService ps) (range_order t)) as [|a nodes]; [done|].
  destruct (filter _ (a :: nodes)) as [|x L']; [done|].
  destruct (rotate _ _) as [i next].
  destruct ((x :: L') !! Z.to_nat i) as [n|]; [|done].
  destruct (PollNode_frame (mkPS (nodeService ps) (pollRepo ps) next (firstPolls ps)) t n)
    as (Herr & _ & Hrepo & _).
  destruct (PollNode _ t n) as [[res err] ps1]. simpl in *. subst err.
  unfold CreatePollResult, poll_sql. rewrite Hrepo, Hf.
  by destruct (UpdateNodeStatus _ _ _) as [e2 ns2].
Qed.

Lemma run_ticks_stable pg ids ts :
  ids ≠ [] → ∀ ps,
  same_peers pg ids ps ts → (0 <= nodeIndex ps)%Z → poll_faults (pollRepo ps) = [] →
  probed (run_ticks pg ps ts)
  = (probed ps ++ omap (λ i, ids !! Z.to_nat i)
                    (picks (length ts) (nodeIndex ps) (length ids)))%list ∧
  nodeIndex (run_ticks pg ps ts) = cursor (length ts) (nodeIndex ps) (length ids).
Proof.
  intros Hids. induction ts as [|t ts IH]; intros ps Hsame Hidx Hf; simpl.
  - by rewrite app_nil_r.
  - destruct Hsame as [HL Hsame].
    assert (HLne : filteredNodes ps (range_order t) ≠ []).
    { intros Hnil. rewrite Hnil in HL. by subst ids. }
    assert (Hlen : length (filteredNodes ps (range_order t)) = length ids)
      by (by rewrite <-HL, length_fmap).
    destruct (pollNextNode_selects pg ps t HLne Hidx) as (Hnext & n & Hn & Hp).
    rewrite Hlen in Hnext, Hn.
    assert (Hidn : ids !! Z.to_nat (rotate (nodeIndex ps) (length ids)).1 = Some (ID n)).
    { replace (ids !! Z.to_nat (rotate (nodeIndex ps) (length ids)).1)
        with ((ID <$> filteredNodes ps (range_order t))
                !! Z.to_nat (rotate (nodeIndex ps) (length ids)).1)
        by (by rewrite HL).
      by rewrite list_lookup_fmap, Hn. }
    destruct (IH (pollNextNode pg ps t).2) as [Hpr Hcur]; [done| |by apply pollNextNode_healthy_repo|].
    { rewrite Hnext. unfold rotate. case_decide; simpl; lia. }
    rewrite Hpr, Hcur, Hnext, (Hp Hf). simpl in *. rewrite Hidn. by rewrite <-app_assoc.
Qed.

Lemma picks_visit_all {A} (L : list A) (idx : Z) :
  L ≠ [] → (0 <= idx)%Z →
  omap (λ i, L !! Z.to_nat i) (picks (length L) idx (length L)) ≡ₚ L.
Proof.
  intros HL Hidx.
  rewrite picks_complete; [|destruct L; simpl; [done|lia]|done].
  rewrite omap_fmap.
  rewrite (list_omap_ext _ (λ i, ([] ++ L)%list !! i) _ (seq 0 (length L))).
  - assert (H : omap (λ i, ([] ++ L)%list !! i) (seq 0 (length L)) = L)
      by exact (omap_lookup_seq [] L).
    by rewrite H.
  - apply Forall2_same_length_lookup_2; [done|].
    intros i x y Hx Hy. simpl. rewrite Hx in Hy. injection Hy as <-.
    by rewrite Nat2Z.id.
Qed.

(** X15. The rotation is fair as long as the list of eligible peers stays
    the same.  If each of as many consecutive ticks as there are eligible
    peers computes the same list (the same ids in the same order), the
    cursor starts non-negative and the history driver is healthy, then the
    ticks append one history row per tick and the nodes of these rows are
    the eligible peers, each exactly once. *)
Theorem stable_list_probes_each_peer_once
    (pg : Pager) (ps : PollingService) (ts : list Tick) (ids : list string) :
  ids ≠ [] → length ts = length ids →
  same_peers pg ids ps ts →
  (0 <= nodeIndex ps)%Z → poll_faults (pollRepo ps) = [] →
  ∃ new, probed (run_ticks pg ps ts) = (probed ps ++ new)%list ∧ new ≡ₚ ids.
Proof.
  intros Hids Hlen Hsame Hidx Hf.
  destruct (run_ticks_stable pg ids ts Hids ps Hsame Hidx Hf) as [Hpr _].
  eexists. split; [exact Hpr|]. rewrite Hlen. by apply picks_visit_all.
Qed.

Lemma stable_list_probes_each_peer_once_witness :
  ["a"; "b"] ≠ [] ∧ length [ex_tick1; ex_tick3] = length ["a"; "b"] ∧
  same_peers ex_pager ["a"; "b"] ex_ps2 [ex_tick1; ex_tick3] ∧
  (0 <= nodeIndex ex_ps2)%Z ∧ poll_faults (pollRepo ex_ps2) = [] ∧
  ∃ new, probed (run_ticks ex_pager ex_ps2 [ex_tick1; ex_tick3])
         = (probed ex_ps2 ++ new)%list ∧ new ≡ₚ ["a"; "b"].
Proof.
  assert (H1 : ["a"; "b"] ≠ @nil string) by discriminate.
  assert (H2 : length [ex_tick1; ex_tick3] = length ["a"; "b"]) by reflexivity.
  assert (H3 : same_peers ex_pager ["a"; "b"] ex_ps2 [ex_tick1; ex_tick3])
    by (repeat split; vm_compute; reflexivity).
  assert (H4 : (0 <= nodeIndex ex_ps2)%Z) by (simpl; lia).
  assert (H5 : poll_faults (pollRepo ex_ps2) = []) by reflexivity.
  split; [exact H1|]. split; [exact H2|]. split; [exact H3|].
  split; [exact H4|]. split; [exact H5|].
  exact (stable_list_probes_each_peer_once ex_pager ex_ps2 [ex_tick1; ex_tick3]
           ["a"; "b"] H1 H2 H3 H4 H5).
Defined.

(** ** Path discovery, continued *)

Lemma find_app_first {A} (f : A → bool) (pre post : list A) (x : A) :
  Forall (λ y, f y = false) pre → f x = true →
  List.find f (pre ++ x :: post)%list = Some x.
Proof.
  intros Hpre Hx. induction Hpre as [|a pre Ha _ IH]; simpl.
  - by rewrite Hx.
  - by rewrite Ha.
Qed.

Lemma discoverPathMTU_range test :
  (576 <= (discoverPathMTU test).1 <= 1500)%Z.
Proof.
  unfold discoverPathMTU. destruct (List.find test mtuSizes) as [mtu|] eqn:Hf.
  - apply find_first in Hf as (pre & post & Heq & _ & _).
    assert (Hin : mtu ∈ mtuSizes) by (rewrite Heq; apply elem_of_app; right; by left).
    unfold mtuSizes in Hin. simpl.
    repeat (apply elem_of_cons in Hin as [->|Hin]; [lia|]).
    by apply elem_of_nil in Hin.
  - destruct (binarySearchMTU_bounds test 576 1500); lia.
Qed.

(** X16. Path discovery cannot fail and cannot leave its range: for every
    URL and every network [TestPathMTU] returns a [nil] error and a size
    between 576 and 1500. *)
Theorem TestPathMTU_total_in_range (test : string → Z → bool) (url : string) :
  (TestPathMTU test url).2 = None ∧
  (576 <= (TestPathMTU test url).1 <= 1500)%Z.
Proof.
  unfold TestPathMTU.
  set (host := match String.index 0 ":" _ with Some _ => _ | None => _ end).
  pose proof (discoverPathMTU_never_fails (test host)) as He.
  pose proof (discoverPathMTU_range (test host)) as Hr.
  destruct (discoverPathMTU (test host)) as [mtu [e|]]; simpl in *; done.
Qed.

(** X17. The fixed candidates are tried from the largest down, and the
    first one that gets through is the answer, whatever the smaller ones
    would do: they are not tried. *)
Theorem first_passing_candidate_is_reported
    (test : Z → bool) (pre post : list Z) (mtu : Z) :
  mtuSizes = (pre ++ mtu :: post)%list →
  Forall (λ m, test m = false) pre → test mtu = true →
  discoverPathMTU test = (mtu, None).
Proof.
  intros Heq Hpre Hm. unfold discoverPathMTU. rewrite Heq.
  by rewrite find_app_first.
Qed.

Lemma first_passing_candidate_is_reported_witness :
  mtuSizes = ([1500; 1472; 1460] ++ 1400 :: [1300; 1200; 1000; 800; 576])%list%Z ∧
  Forall (λ m, (m <=? 1400)%Z = false) [1500; 1472; 1460]%Z ∧
  (1400 <=? 1400)%Z = true ∧
  discoverPathMTU (λ m, (m <=? 1400)%Z) = (1400, None)%Z.
Proof.
  assert (H1 : mtuSizes
               = ([1500; 1472; 1460] ++ 1400 :: [1300; 1200; 1000; 800; 576])%list%Z)
    by reflexivity.
  assert (H2 : Forall (λ m, (m <=? 1400)%Z = false) [1500; 1472; 1460]%Z)
    by (repeat constructor).
  assert (H3 : (1400 <=? 1400)%Z = true) by reflexivity.
  split; [exact H1|]. split; [exact H2|]. split; [exact H3|].
  exact (first_passing_candidate_is_reported (λ m, (m <=? 1400)%Z)
           [1500; 1472; 1460]%Z [1300; 1200; 1000; 800; 576]%Z 1400%Z H1 H2 H3).
Defined.

Lemma binarySearchMTU_range_fail test lo hi :
  (∀ m, (lo <= m <= hi)%Z → test m = false) →
  binarySearchMTU test lo hi = (lo, None).
Proof.
  funelim (binarySearchMTU test lo hi); intros Hall; [done|].
  pose proof (Z.quot_rem' (lo + hi) 2).
  pose proof (Z.rem_bound_abs (lo + hi) 2).
  rewrite Hall by lia. apply H0. intros m Hm. apply Hall. lia.
Qed.

(** X18. On a path that lets through exactly the sizes up to [M]:
    discovery reports the largest fixed candidate that is not above [M]
    when [M] is at least 576; below that it reports 576, a size that did
    not get through. *)
Theorem monotone_path_mtu (test : Z → bool) (M : Z) :
  (∀ m, test m = true ↔ (m <= M)%Z) →
  (discoverPathMTU test).2 = None ∧
  ((576 <= M)%Z →
   (discoverPathMTU test).1 ∈ mtuSizes ∧
   ((discoverPathMTU test).1 <= M)%Z ∧
   ∀ c, c ∈ mtuSizes → (c <= M)%Z → (c <= (discoverPathMTU test).1)%Z) ∧
  ((M < 576)%Z →
   (discoverPathMTU test).1 = 576%Z ∧ test (discoverPathMTU test).1 = false).
Proof.
  intros Hmono.
  assert (Hfalse : ∀ m, test m = false ↔ (M < m)%Z).
  { intros m. specialize (Hmono m). destruct (test m); split; intros H.
    - done.
    - destruct Hmono as [Hm _]. specialize (Hm eq_refl). lia.
    - destruct (decide (m <= M)%Z) as [Hle|]; [|lia].
      destruct Hmono as [_ Hm]. by specialize (Hm Hle).
    - done. }
  split; [apply discoverPathMTU_never_fails|].
  destruct (decide (576 <= M)%Z) as [Hge|Hlt].
  - split; [intros _|lia].
    unfold discoverPathMTU.
    destruct (List.find test mtuSizes) as [mtu|] eqn:Hf.
    + apply find_first in Hf as (pre & post & Heq & Hm & Hpre). simpl.
      apply Hmono in Hm.
      split; [rewrite Heq; apply elem_of_app; right; by left|]. split; [done|].
      intros c Hc HcM.
      assert (Hsorted : StronglySorted Z.ge mtuSizes).
      { unfold mtuSizes. repeat constructor; lia. }
      rewrite Heq in Hc, Hsorted.
      apply elem_of_app in Hc as [Hc|Hc].
      * apply (proj1 (Forall_forall _ _) Hpre) in Hc. apply Hfalse in Hc. lia.
      * apply elem_of_cons in Hc as [->|Hc]; [lia|].
        apply StronglySorted_app_1_r, StronglySorted_inv in Hsorted as [_ Hall].
        apply (proj1 (Forall_forall _ _) Hall) in Hc. lia.
    + apply find_none in Hf. exfalso.
      assert (H576 : test 576%Z = false).
      { apply (proj1 (Forall_forall _ _) Hf). unfold mtuSizes.
        do 8 (apply elem_of_cons; right). by left. }
      apply Hfalse in H576. lia.
  - split; [lia|intros _].
    assert (Hd : discoverPathMTU test = (576, None)%Z).
    { unfold discoverPathMTU.
      replace (List.find test mtuSizes) with (@None Z).
      - apply binarySearchMTU_range_fail. intros m Hm. apply Hfalse. lia.
      - symmetry. apply find_none. unfold mtuSizes.
        repeat constructor; apply Hfalse; lia. }
    rewrite Hd. simpl. split; [done|]. apply Hfalse. lia.
Qed.

Lemma monotone_path_mtu_witness :
  (∀ m, (m <=? 1450)%Z = true ↔ (m <= 1450)%Z) ∧
  (discoverPathMTU (λ m, (m <=? 1450)%Z)).2 = None ∧
  ((576 <= 1450)%Z →
   (discoverPathMTU (λ m, (m <=? 1450)%Z)).1 ∈ mtuSizes ∧
   ((discoverPathMTU (λ m, (m <=? 1450)%Z)).1 <= 1450)%Z ∧
   ∀ c, c ∈ mtuSizes → (c <= 1450)%Z →
        (c <= (discoverPathMTU (λ m, (m <=? 1450)%Z)).1)%Z) ∧
  ((1450 < 576)%Z →
   (discoverPathMTU (λ m, (m <=? 1450)%Z)).1 = 576%Z ∧
   ((discoverPathMTU (λ m, (m <=? 1450)%Z)).1 <=? 1450)%Z = false).
Proof.
  assert (H : ∀ m, (m <=? 1450)%Z = true ↔ (m <= 1450)%Z)
    by (intros m; apply Z.leb_le).
  split; [exact H|].
  exact (monotone_path_mtu (λ m, (m <=? 1450)%Z) 1450%Z H).
Defined.

(** ** Retention, continued *)

Lemma batch_rest_sublist rows : (deleteOldestBatch rows).1 `sublist_of` rows.
Proof.
  with_strategy transparent [deleteOldestBatch] (unfold deleteOldestBatch).
  apply sublist_filter.
Qed.

Lemma GetDatabaseSize_sequence r sz r' :
  GetDatabaseSize r = (sz, r') → sqlite_sequence r' = sqlite_sequence r.
Proof.
  unfold GetDatabaseSize. destruct (poll_sql r) as [f r1] eqn:H1.
  apply poll_sql_frame in H1 as (_ & _ & ?). by destruct f; intros [= <- <-].
Qed.

Lemma cleanupLoop_only_deletes pg fuel r cur maxB e r' :
  cleanupLoop pg fuel r cur maxB = Some (e, r') →
  poll_results r' `sublist_of` poll_results r ∧
  sqlite_sequence r' = sqlite_sequence r.
Proof.
  revert r cur. induction fuel as [|fuel IH]; intros r cur; [done|]. simpl.
  case_decide as Hgt; [|by intros [= <- <-]].
  destruct (poll_sql r) as [f r1] eqn:H1.
  apply poll_sql_frame in H1 as (Hr1 & _ & Hs1).
  destruct f; [intros [= <- <-]; by rewrite Hr1, Hs1|].
  pose proof (batch_rest_sublist (poll_results r1)) as Hsub. rewrite Hr1 in Hsub at 2.
  destruct (deleteOldestBatch (poll_results r1)) as [rest k] eqn:Hb.
  destruct (poll_sql _) as [f2 r2] eqn:H2.
  apply poll_sql_frame in H2 as (Hr2 & _ & Hs2). simpl in Hr2, Hs2, Hsub.
  destruct f2; [intros [= <- <-]; by rewrite Hr2, Hs2, Hs1|].
  case_decide as Hk; [intros [= <- <-]; by rewrite Hr2, Hs2, Hs1|].
  destruct (GetDatabaseSize r2) as [sz r3] eqn:H3.
  pose proof (GetDatabaseSize_sequence _ _ _ H3) as Hs3.
  apply GetDatabaseSize_frame in H3 as (Hr3 & _ & _).
  destruct sz as [z|msg]; [|intros [= <- <-]; by rewrite Hr3, Hr2, Hs3, Hs2, Hs1].
  intros [Hsub' Hseq]%IH. split.
  - etrans; [exact Hsub'|]. by rewrite Hr3, Hr2.
  - by rewrite Hseq, Hs3, Hs2, Hs1.
Qed.

Lemma CleanupOldResults_sublist pg r maxSizeMB e r' :
  CleanupOldResults pg r maxSizeMB = Some (e, r') →
  poll_results r' `sublist_of` poll_results r ∧
  sqlite_sequence r' = sqlite_sequence r.
Proof.
  unfold CleanupOldResults.
  destruct (GetDatabaseSize r) as [sz r1] eqn:H1.
  pose proof (GetDatabaseSize_sequence _ _ _ H1) as Hs1.
  apply GetDatabaseSize_frame in H1 as (Hr1 & _ & _).
  destruct sz as [cur|msg]; [|intros [= <- <-]; by rewrite Hr1, Hs1].
  case_decide as Hle; [intros [= <- <-]; by rewrite Hr1, Hs1|].
  destruct (cleanupLoop _ _ _ _ _) as [[e2 r2]|] eqn:Hloop; [|done].
  apply cleanupLoop_only_deletes in Hloop as [Hsub Hseq].
  rewrite Hr1 in Hsub. rewrite Hs1 in Hseq.
  destruct e2 as [msg|]; [by intros [= <- <-]|].
  destruct (poll_sql r2) as [f r3] eqn:H3.
  apply poll_sql_frame in H3 as (Hr3 & _ & Hs3).
  destruct f; intros [= <- <-]; simpl; by rewrite Hr3, Hs3.
Qed.

(** X19. The cleanup only deletes.  Whenever [CleanupOldResults] returns,
    with or without an error, the history it leaves is a part of the
    history it found, in the same order, and the AUTOINCREMENT counter is
    as before.  If the file is within the budget, it leaves every row and
    the file as they were. *)
Theorem cleanup_only_deletes
    (pg : Pager) (r r' : PollRepo) (maxSizeMB : Z) (e : option string) :
  CleanupOldResults pg r maxSizeMB = Some (e, r') →
  poll_results r' `sublist_of` poll_results r ∧
  sqlite_sequence r' = sqlite_sequence r ∧
  ((file_bytes r <= maxSizeBytes maxSizeMB)%Z →
   poll_results r' = poll_results r ∧ file_bytes r' = file_bytes r).
Proof.
  intros Hc. destruct (CleanupOldResults_sublist _ _ _ _ _ Hc) as [Hsub Hseq].
  split; [done|]. split; [done|]. intros Hle.
  revert Hc. unfold CleanupOldResults. fold (maxSizeBytes maxSizeMB).
  destruct (GetDatabaseSize r) as [sz r1] eqn:H1.
  apply GetDatabaseSize_frame in H1 as (Hr1 & Hf1 & Hsz).
  destruct sz as [cur|msg]; [|intros [= <- <-]; by rewrite Hr1, Hf1].
  specialize (Hsz cur eq_refl). subst cur.
  rewrite decide_True by done. intros [= <- <-]. by rewrite Hr1, Hf1.
Qed.

Lemma cleanup_only_deletes_witness :
  CleanupOldResults ex_pager ex_repo_full MaxDatabaseSizeMB
    = Some (None, mkPollRepo [] 3 4096 []) ∧
  poll_results (mkPollRepo [] 3 4096 []) `sublist_of` poll_results ex_repo_full ∧
  sqlite_sequence (mkPollRepo [] 3 4096 []) = sqlite_sequence ex_repo_full ∧
  ((file_bytes ex_repo_full <= maxSizeBytes MaxDatabaseSizeMB)%Z →
   poll_results (mkPollRepo [] 3 4096 []) = poll_results ex_repo_full ∧
   file_bytes (mkPollRepo [] 3 4096 []) = file_bytes ex_repo_full).
Proof.
  assert (H : CleanupOldResults ex_pager ex_repo_full MaxDatabaseSizeMB
              = Some (None, mkPollRepo [] 3 4096 [])) by (vm_compute; reflexivity).
  split; [exact H|].
  exact (cleanup_only_deletes ex_pager ex_repo_full (mkPollRepo [] 3 4096 [])
           MaxDatabaseSizeMB None H).
Defined.

Lemma poll_sql_healthy r : poll_faults r = [] → poll_sql r = (None, r).
Proof. unfold poll_sql. by intros ->. Qed.

Lemma cleanupLoop_nonshrinking pg fuel r maxB :
  (∀ sz k, (sz <= size_after_delete pg sz k)%Z) →
  poll_faults r = [] → (file_bytes r > maxB)%Z →
  (length (poll_results r) < fuel)%nat →
  ∃ r', cleanupLoop pg fuel r (file_bytes r) maxB = Some (None, r') ∧
        poll_results r' = [] ∧ poll_faults r' = [] ∧
        sqlite_sequence r' = sqlite_sequence r.
Proof.
  intros Hpg. revert r. induction fuel as [|fuel IH]; intros r Hf Hgt Hlen; [lia|].
  simpl. rewrite decide_True by done. rewrite poll_sql_healthy by done.
  pose proof (batch_affected (poll_results r)) as Hk.
  pose proof (batch_rest_length (poll_results r)) as Hle.
  pose proof (batch_zero (poll_results r)) as Hz.
  destruct (deleteOldestBatch (poll_results r)) as [rest k]. simpl in Hk, Hle, Hz.
  rewrite poll_sql_healthy by done.
  case_decide as Hk0.
  - specialize (Hz Hk0). rewrite Hz in Hk. simpl in Hk.
    eexists. split; [done|]. simpl. split; [|done].
    rewrite Hz in Hle. simpl in Hle. destruct rest; [done|simpl in Hle; lia].
  - unfold GetDatabaseSize. rewrite poll_sql_healthy by done.
    set (r1 := mkPollRepo rest _ _ _).
    destruct (IH r1) as (r' & Hloop & ? & ? & ?); [done|simpl; specialize (Hpg (file_bytes r) (Z.to_nat k)); lia|simpl; lia|].
    exists r'. by split.
Qed.

(** X20. With an engine that does not shrink the file when rows are
    deleted (freed pages stay in the file until VACUUM) and a healthy
    driver, a cleanup that finds the file above the budget deletes the
    whole poll history: the size it measures after each batch is never
    below the budget, so the loop goes on until a batch removes nothing. *)
Theorem cleanup_over_budget_empties_history
    (pg : Pager) (r : PollRepo) (maxSizeMB : Z) :
  (∀ sz k, (sz <= size_after_delete pg sz k)%Z) →
  poll_faults r = [] → (file_bytes r > maxSizeBytes maxSizeMB)%Z →
  ∃ r', CleanupOldResults pg r maxSizeMB = Some (None, r') ∧
        poll_results r' = [] ∧ sqlite_sequence r' = sqlite_sequence r.
Proof.
  intros Hpg Hf Hgt. unfold CleanupOldResults, GetDatabaseSize.
  rewrite poll_sql_healthy by done. fold (maxSizeBytes maxSizeMB).
  rewrite decide_False by lia.
  destruct (cleanupLoop_nonshrinking pg (S (length (poll_results r))) r
              (maxSizeBytes maxSizeMB)) as (r1 & -> & Hrows & Hf1 & Hs1); [done..|lia|].
  rewrite poll_sql_healthy by done. eexists. split; [done|]. simpl. done.
Qed.

Lemma cleanup_over_budget_empties_history_witness :
  (∀ sz k, (sz <= size_after_delete ex_pager sz k)%Z) ∧
  poll_faults ex_repo_full = [] ∧
  (file_bytes ex_repo_full > maxSizeBytes MaxDatabaseSizeMB)%Z ∧
  ∃ r', CleanupOldResults ex_pager ex_repo_full MaxDatabaseSizeMB = Some (None, r') ∧
        poll_results r' = [] ∧ sqlite_sequence r' = sqlite_sequence ex_repo_full.
Proof.
  assert (H1 : ∀ sz k, (sz <= size_after_delete ex_pager sz k)%Z)
    by (intros sz k; simpl; lia).
  assert (H2 : poll_faults ex_repo_full = []) by reflexivity.
  assert (H3 : (file_bytes ex_repo_full > maxSizeBytes MaxDatabaseSizeMB)%Z)
    by (vm_compute; reflexivity).
  split; [exact H1|]. split; [exact H2|]. split; [exact H3|].
  exact (cleanup_over_budget_empties_history ex_pager ex_repo_full MaxDatabaseSizeMB
           H1 H2 H3).
Defined.

Lemma history_ids_fresh_sub r r' :
  poll_results r' `sublist_of` poll_results r →
  sqlite_sequence r' = sqlite_sequence r →
  history_ids_fresh r → history_ids_fresh r'.
Proof.
  intros Hsub Hseq [Hnd Hle]. split.
  - eapply sublist_NoDup; [exact Hnd|by apply fmap_sublist].
  - rewrite Hseq. apply Forall_forall. intros x Hx.
    apply (proj1 (Forall_forall _ _) Hle). by eapply elem_of_sublist.
Qed.

Lemma CreatePollResult_fresh pg r res :
  history_ids_fresh r → history_ids_fresh (CreatePollResult pg r res).2.
Proof.
  intros Hwf. unfold CreatePollResult.
  destruct (poll_sql r) as [f r1] eqn:H1.
  apply poll_sql_frame in H1 as (Hr1 & _ & Hs1).
  assert (Hwf1 : history_ids_fresh r1).
  { apply (history_ids_fresh_sub r); [by rewrite Hr1|done|done]. }
  destruct f; [done|]. simpl. destruct Hwf1 as [Hnd Hle]. split; simpl.
  - rewrite fmap_app. simpl. apply NoDup_app. split; [done|]. split.
    + intros i (x & -> & Hx)%list_elem_of_fmap Hi.
      apply list_elem_of_singleton in Hi.
      apply (proj1 (Forall_forall _ _) Hle) in Hx. rewrite Hs1 in Hx. lia.
    + apply NoDup_singleton.
  - apply Forall_app. split.
    + eapply Forall_impl; [exact Hle|]. simpl. intros; lia.
    + constructor; [simpl; lia|constructor].
Qed.

(** X21. Row ids of the poll history are never reused.  If the ids in the
    table are distinct and none is above the AUTOINCREMENT counter, as in
    an empty table, the same holds after an INSERT (failed or not), after
    a cleanup (failed or not) and after a tick of the poller; a row that an
    INSERT adds carries an id above every id the counter has seen, also
    those of rows the cleanup deleted. *)
Theorem history_ids_never_reused
    (pg : Pager) (r : PollRepo) :
  history_ids_fresh r →
  (∀ res, history_ids_fresh (CreatePollResult pg r res).2 ∧
          ∀ row, row ∈ poll_results (CreatePollResult pg r res).2 →
                 row ∉ poll_results r → (sqlite_sequence r < pr_ID row)%Z) ∧
  (∀ maxSizeMB e r', CleanupOldResults pg r maxSizeMB = Some (e, r') →
                     history_ids_fresh r') ∧
  (∀ ps t, pollRepo ps = r → history_ids_fresh (pollRepo (pollNextNode pg ps t).2)).
Proof.
  intros Hwf. split; [|split].
  - intros res. split; [by apply CreatePollResult_fresh|].
    unfold CreatePollResult. destruct (poll_sql r) as [f r1] eqn:H1.
    apply poll_sql_frame in H1 as (Hr1 & _ & Hs1).
    destruct f; simpl; intros row Hin Hnot.
    + by rewrite Hr1 in Hin.
    + rewrite Hr1 in Hin. apply elem_of_app in Hin as [?|Hin]; [done|].
      apply list_elem_of_singleton in Hin as ->. simpl. lia.
  - intros mb e r' Hc. apply CleanupOldResults_sublist in Hc as [Hsub Hseq].
    by apply (history_ids_fresh_sub r).
  - intros ps t <-. unfold pollNextNode, GetNodeID.
    destruct (GetActiveNodes (nodeService ps) (range_order t)) as [|a nodes]; [done|].
    destruct (filter _ (a :: nodes)) as [|x L']; [done|].
    destruct (rotate _ _) as [i next].
    destruct ((x :: L') !! Z.to_nat i) as [n|]; [|done].
    destruct (PollNode_frame (mkPS (nodeService ps) (pollRepo ps) next (firstPolls ps)) t n)
      as (Herr & _ & Hrepo & _).
    destruct (PollNode _ t n) as [[res err] ps1]. simpl in *. subst err.
    assert (Hwf1 : history_ids_fresh (pollRepo ps1)) by (by rewrite Hrepo).
    pose proof (CreatePollResult_fresh pg (pollRepo ps1) res Hwf1) as Hc.
    destruct (CreatePollResult pg (pollRepo ps1) res) as [e repo].
    by destruct (UpdateNodeStatus _ _ _) as [e2 ns2].
Qed.

Lemma history_ids_never_reused_witness :
  history_ids_fresh ex_repo_full ∧
  (∀ res, history_ids_fresh (CreatePollResult ex_pager ex_repo_full res).2 ∧
          ∀ row, row ∈ poll_results (CreatePollResult ex_pager ex_repo_full res).2 →
                 row ∉ poll_results ex_repo_full →
                 (sqlite_sequence ex_repo_full < pr_ID row)%Z) ∧
  (∀ maxSizeMB e r', CleanupOldResults ex_pager ex_repo_full maxSizeMB = Some (e, r') →
                     history_ids_fresh r') ∧
  (∀ ps t, pollRepo ps = ex_repo_full →
           history_ids_fresh (pollRepo (pollNextNode ex_pager ps t).2)).
Proof.
  assert (H : history_ids_fresh ex_repo_full).
  { split.
    - apply (bool_decide_unpack _). vm_compute. reflexivity.
    - repeat constructor; simpl; lia. }
  split; [exact H|].
  exact (history_ids_never_reused ex_pager ex_repo_full H).
Defined.

(** ** Reports *)

Lemma key_step_both k self now rep s x :
  is_Some s.1 ∧ is_Some s.2 →
  is_Some (key_step k self now rep s x).1 ∧ is_Some (key_step k self now rep s x).2.
Proof.
  intros Hs. unfold key_step. case_decide; [|done].
  unfold key_merge, key_upsert. destruct s.1; simpl; eauto.
Qed.

Lemma fold_both k self now rep xs s :
  is_Some s.1 ∧ is_Some s.2 →
  is_Some (foldl (key_step k self now rep) s xs).1 ∧
  is_Some (foldl (key_step k self now rep) s xs).2.
Proof.
  revert s. induction xs as [|x xs IH]; intros s Hs; simpl; [done|].
  by apply IH, key_step_both.
Qed.

Lemma fold_listed k self now rep xs s :
  k ≠ self → k ∈ ID <$> xs →
  is_Some (foldl (key_step k self now rep) s xs).1 ∧
  is_Some (foldl (key_step k self now rep) s xs).2.
Proof.
  intros Hk. revert s. induction xs as [|x xs IH]; intros s; simpl.
  { by intros ?%elem_of_nil. }
  intros Hin. destruct (decide (ID x = k)) as [Hx|Hx].
  - apply fold_both. unfold key_step. rewrite decide_True by (split; congruence).
    unfold key_merge, key_upsert. destruct s.1; simpl; eauto.
  - apply IH. apply elem_of_cons in Hin as [?|?]; [congruence|done].
Qed.

(** With a healthy driver, every id a merge touches is in cache and table
    afterwards. *)
Lemma merge_registers_touched ns now info by_ k :
  registry_wf ns → faults ns = [] → touched (nodeID (configSvc ns)) info k →
  k ∈ dom (knownNodes (MergeNodeInfo ns now (Some info) by_).2) ∧
  k ∈ dom (nodeRepo (MergeNodeInfo ns now (Some info) by_).2).
Proof.
  intros Hwf Hf [Hself Hk].
  destruct (MergeNodeInfo_healthy ns now info by_ Hwf Hf) as (_ & _ & _ & Hv).
  specialize (Hv k). unfold view in Hv.
  rewrite !elem_of_dom.
  change (is_Some (knownNodes (MergeNodeInfo ns now (Some info) by_).2 !! k,
                   nodeRepo (MergeNodeInfo ns now (Some info) by_).2 !! k).1 ∧
          is_Some (knownNodes (MergeNodeInfo ns now (Some info) by_).2 !! k,
                   nodeRepo (MergeNodeInfo ns now (Some info) by_).2 !! k).2).
  rewrite Hv.
  destruct (decide (k ∈ ID <$> ni_Nodes info)) as [Hin|Hnin].
  - by apply fold_listed.
  - destruct Hk as [->|?]; [|done]. apply fold_both.
    rewrite decide_True by done. unfold key_upsert. simpl. eauto.
Qed.

Lemma handleReport_post ws snapshot now :
  (handleReport ws (mkRequest "POST" (Some snapshot)) now).1 = 200%Z ∧
  ws_nodeService (handleReport ws (mkRequest "POST" (Some snapshot)) now).2
  = (mergeReport (ws_nodeService ws) now snapshot).2.
Proof.
  unfold handleReport. cbn [req_Method req_Body].
  rewrite decide_False by (intros H; by apply H).
  by destruct (mergeReport _ _ _).
Qed.

(** X22. A report that was sent spreads membership.  The snapshot that
    [SendReport] builds lists every node the sender has cached; when the
    receiver's [/report] handler gets that snapshot and its driver is
    healthy, it answers 200, and the sender itself and every node the
    sender knew are in the receiver's cache and table afterwards, the
    receiver's own id apart. *)
Theorem report_spreads_membership
    (sender : NodeService) (order : list string) (cfg : ReportingConfig)
    (me : NodeInfo) (sent : Z) (send : string → NetworkSnapshot → option string)
    (ws : WebServer) (now : Z)
    (e : option string) (url : string) (snapshot : NetworkSnapshot) :
  registry_wf sender → iteration_order (knownNodes sender) order →
  registry_wf (ws_nodeService ws) → faults (ws_nodeService ws) = [] →
  SendReport (Ok (Some cfg)) (Ok me) sender order sent send = (e, Some (url, snapshot)) →
  url = reportingURL cfg ∧
  (handleReport ws (mkRequest "POST" (Some snapshot)) now).1 = 200%Z ∧
  ∀ k, k = ni_ID me ∨ k ∈ dom (knownNodes sender) →
       k ≠ nodeID (configSvc (ws_nodeService ws)) →
       k ∈ dom (knownNodes
                  (ws_nodeService (handleReport ws (mkRequest "POST" (Some snapshot)) now).2)) ∧
       k ∈ dom (nodeRepo
                  (ws_nodeService (handleReport ws (mkRequest "POST" (Some snapshot)) now).2)).
Proof.
  intros HwfS Hord Hwf Hf Hsend.
  assert (Hsnap : url = reportingURL cfg ∧
                  snapshot = mkNetworkSnapshot sent (ni_ID me) (GetKnownNodes sender order)).
  { revert Hsend. unfold SendReport. destruct (send _ _); by intros [= <- <- <-]. }
  destruct Hsnap as [-> ->]. split; [done|].
  destruct (handleReport_post ws
              (mkNetworkSnapshot sent (ni_ID me) (GetKnownNodes sender order)) now)
    as [-> ->].
  split; [done|]. unfold mergeReport. cbn [snap_NodeID snap_Nodes].
  set (info := mkNodeInfo (ni_ID me) "" "" (GetKnownNodes sender order)).
  intros k Hk Hself.
  apply (merge_registers_touched (ws_nodeService ws) now info "report"); [done..|].
  split; [done|]. destruct Hk as [->|Hk]; [by left|right]. subst info. cbn [ni_Nodes].
  unfold GetKnownNodes. rewrite range_map_ids.
  - apply (iteration_order_elem _ _ _ Hord). by apply elem_of_dom.
  - exact HwfS.
  - intros k'. by apply iteration_order_elem.
Qed.

Lemma report_spreads_membership_witness :
  registry_wf ex_sender ∧ iteration_order (knownNodes ex_sender) ["a"; "b"] ∧
  registry_wf (ws_nodeService ex_ws) ∧ faults (ws_nodeService ex_ws) = [] ∧
  SendReport (Ok (Some ex_reporting)) (Ok (mkNodeInfo "s" "s.example.com" "10.0.0.7" []))
    ex_sender ["a"; "b"] 50 (λ _ _, None)
  = (None, Some ("https://10.0.0.9:443", ex_snapshot)) ∧
  "https://10.0.0.9:443" = reportingURL ex_reporting ∧
  (handleReport ex_ws (mkRequest "POST" (Some ex_snapshot)) 60).1 = 200%Z ∧
  ∀ k, k = ni_ID (mkNodeInfo "s" "s.example.com" "10.0.0.7" []) ∨
       k ∈ dom (knownNodes ex_sender) →
       k ≠ nodeID (configSvc (ws_nodeService ex_ws)) →
       k ∈ dom (knownNodes
                  (ws_nodeService
                     (handleReport ex_ws (mkRequest "POST" (Some ex_snapshot)) 60).2)) ∧
       k ∈ dom (nodeRepo
                  (ws_nodeService
                     (handleReport ex_ws (mkRequest "POST" (Some ex_snapshot)) 60).2)).
Proof.
  assert (H1 : registry_wf ex_sender) by (apply registry_wf_check; vm_compute; reflexivity).
  assert (H2 : iteration_order (knownNodes ex_sender) ["a"; "b"]).
  { split; apply (bool_decide_unpack _); vm_compute; reflexivity. }
  assert (H3 : registry_wf (ws_nodeService ex_ws))
    by (apply registry_wf_check; vm_compute; reflexivity).
  assert (H4 : faults (ws_nodeService ex_ws) = []) by reflexivity.
  assert (H5 : SendReport (Ok (Some ex_reporting))
                 (Ok (mkNodeInfo "s" "s.example.com" "10.0.0.7" []))
                 ex_sender ["a"; "b"] 50 (λ _ _, None)
               = (None, Some ("https://10.0.0.9:443", ex_snapshot)))
    by (vm_compute; reflexivity).
  split; [exact H1|]. split; [exact H2|]. split; [exact H3|]. split; [exact H4|].
  split; [exact H5|].
  exact (report_spreads_membership ex_sender ["a"; "b"] ex_reporting
           (mkNodeInfo "s" "s.example.com" "10.0.0.7" []) 50 (λ _ _, None) ex_ws 60
           None "https://10.0.0.9:443" ex_snapshot H1 H2 H3 H4 H5).
Defined.

Lemma handleReport_buffer ws r now :
  receivedReports (handleReport ws r now).2
  = match (if decide (req_Method r ≠ "POST") then None else req_Body r) with
    | None => receivedReports ws
    | Some snapshot =>
        if decide (100 < length (receivedReports ws ++ [snapshot]))%nat
        then drop 1 (receivedReports ws ++ [snapshot])%list
        else (receivedReports ws ++ [snapshot])%list
    end.
Proof.
  unfold handleReport. case_decide; [done|].
  destruct (req_Body r) as [snapshot|]; [|done].
  by destruct (mergeReport _ _ _).
Qed.

Lemma accepted_cons r now reqs :
  accepted ((r, now) :: reqs)
  = match (if decide (req_Method r ≠ "POST") then None else req_Body r) with
    | Some snapshot => snapshot :: accepted reqs
    | None => accepted reqs
    end.
Proof. reflexivity. Qed.

Lemma serve_cons ws r now reqs :
  serve ws ((r, now) :: reqs) = serve (handleReport ws r now).2 reqs.
Proof. reflexivity. Qed.

Lemma last_100_step {A} (l acc : list A) (x : A) :
  (length l <= 100)%nat →
  let l' := if decide (100 < length (l ++ [x]))%nat
            then drop 1 (l ++ [x])%list else (l ++ [x])%list in
  (length l' <= 100)%nat ∧
  drop (length (l' ++ acc) - 100) (l' ++ acc)%list
  = drop (length (l ++ x :: acc) - 100) (l ++ x :: acc)%list.
Proof.
  intros Hlen. cbv zeta. case_decide as Hgt; rewrite length_app in Hgt; simpl in Hgt.
  - split; [rewrite length_drop, length_app; simpl; lia|].
    rewrite <-drop_app_le by (rewrite length_app; simpl; lia).
    rewrite drop_drop, <-app_assoc. simpl. f_equal.
    rewrite length_drop, !length_app. simpl. lia.
  - split; [rewrite length_app; simpl; lia|].
    rewrite <-app_assoc. done.
Qed.

(** X23. The server keeps the last 100 snapshots it accepted.  Over any
    sequence of requests to [/report] served one after the other, starting
    with at most 100 stored reports, the stored reports are the stored
    and the accepted snapshots in order of arrival, cut to the newest 100;
    requests with another method or a body that does not decode leave no
    trace. *)
Theorem report_buffer_keeps_last_100 (ws : WebServer) (reqs : list (Request * Z)) :
  (length (receivedReports ws) <= 100)%nat →
  receivedReports (serve ws reqs)
  = drop (length (receivedReports ws ++ accepted reqs) - 100)
         (receivedReports ws ++ accepted reqs)%list ∧
  (length (receivedReports (serve ws reqs)) <= 100)%nat.
Proof.
  revert ws. induction reqs as [|[r now] reqs IH]; intros ws Hlen.
  - simpl. rewrite app_nil_r. replace (_ - 100)%nat with 0%nat by lia. done.
  - rewrite serve_cons, accepted_cons.
    pose proof (handleReport_buffer ws r now) as Hb.
    destruct (if decide (req_Method r ≠ "POST") then None else req_Body r)
      as [snapshot|].
    + destruct (last_100_step (receivedReports ws) (accepted reqs) snapshot Hlen)
        as [Hlen' Hdrop].
      rewrite <-Hb in Hlen', Hdrop.
      destruct (IH _ Hlen') as [Heq Hle]. split; [|done]. by rewrite Heq.
    + rewrite <-Hb in Hlen. destruct (IH _ Hlen) as [Heq Hle].
      split; [|done]. by rewrite Heq, Hb.
Qed.

Lemma report_buffer_keeps_last_100_witness :
  (length (receivedReports ex_ws) <= 100)%nat ∧
  receivedReports
    (serve ex_ws [(mkRequest "GET" (Some ex_snapshot), 60%Z);
                  (mkRequest "POST" None, 61%Z);
                  (mkRequest "POST" (Some ex_snapshot), 62%Z)])
  = drop (length (receivedReports ex_ws
                  ++ accepted [(mkRequest "GET" (Some ex_snapshot), 60%Z);
                               (mkRequest "POST" None, 61%Z);
                               (mkRequest "POST" (Some ex_snapshot), 62%Z)]) - 100)
         (receivedReports ex_ws
          ++ accepted [(mkRequest "GET" (Some ex_snapshot), 60%Z);
                       (mkRequest "POST" None, 61%Z);
                       (mkRequest "POST" (Some ex_snapshot), 62%Z)])%list ∧
  (length (receivedReports
             (serve ex_ws [(mkRequest "GET" (Some ex_snapshot), 60%Z);
                           (mkRequest "POST" None, 61%Z);
                           (mkRequest "POST" (Some ex_snapshot), 62%Z)])) <= 100)%nat.
Proof.
  assert (H : (length (receivedReports ex_ws) <= 100)%nat) by (simpl; lia).
  split; [exact H|].
  exact (report_buffer_keeps_last_100 ex_ws
           [(mkRequest "GET" (Some ex_snapshot), 60%Z);
            (mkRequest "POST" None, 61%Z);
            (mkRequest "POST" (Some ex_snapshot), 62%Z)] H).
Defined.

(** ** Starting and stopping *)

Lemma closed_stays_closed name l c :
  stopChan_closed l = true → stopChan_closed (do_call name l c).2 = true.
Proof.
  intros Hc. destruct c; simpl; unfold Start, Stop.
  - by destruct (running l).
  - destruct (running l); simpl; [|done]. by rewrite Hc.
Qed.

Lemma no_clean_stop_once_closed name cs l :
  stopChan_closed l = true → filter (λ co, clean_stop co = true) (calls name l cs) = [].
Proof.
  revert l. induction cs as [|c cs IH]; intros l Hc; simpl; [done|].
  pose proof (closed_stays_closed name l c Hc) as Hc'.
  assert (Hno : clean_stop (c, (do_call name l c).1) = false).
  { destruct c; simpl; unfold Start, Stop.
    - by destruct (running l).
    - destruct (running l); simpl; [|done]. by rewrite Hc. }
  destruct (do_call name l c) as [o l']. cbn [fst snd] in Hc', Hno.
  destruct o as [err|msg]; rewrite filter_cons_False by (by rewrite Hno);
    [by apply IH|done].
Qed.

Lemma clean_stop_closes name l c :
  clean_stop (c, (do_call name l c).1) = true →
  stopChan_closed (do_call name l c).2 = true.
Proof.
  destruct c; simpl; unfold Start, Stop.
  - by destruct (running l).
  - destruct (running l); simpl; [|done]. by destruct (stopChan_closed l).
Qed.

(** X24. A service can be stopped cleanly only once.  Over any sequence of
    [Start] and [Stop] calls on a new polling or reporting service, at most
    one [Stop] returns [nil]: [Stop] closes [stopChan], nothing reopens
    it, and every later [Stop] either finds the service not running or
    panics on closing the closed channel. *)
Theorem stop_succeeds_at_most_once (name : string) (cs : list call) :
  (length (filter (λ co, clean_stop co = true) (calls name NewLifecycle cs)) <= 1)%nat.
Proof.
  generalize NewLifecycle. induction cs as [|c cs IH]; intros l; simpl; [lia|].
  pose proof (clean_stop_closes name l c) as Hcl.
  destruct (do_call name l c) as [o l']. cbn [fst snd] in Hcl.
  destruct o as [err|msg].
  - destruct (clean_stop (c, Returns err)) eqn:Hcs.
    + rewrite filter_cons_True by done. simpl.
      rewrite no_clean_stop_once_closed by auto. simpl. lia.
    + rewrite filter_cons_False by (by rewrite Hcs). apply IH.
  - rewrite filter_cons_False; [simpl; lia|]. by destruct c.
Qed.

(** ** Nodes marked inactive *)

Lemma flag_upsert k b ns node e node' ns' :
  addOrUpdateNode ns node = (e, node', ns') →
  (ID node = k → IsActive node = b) →
  IsActive <$> knownNodes ns !! k = Some b →
  IsActive <$> knownNodes ns' !! k = Some b.
Proof.
  intros H Hnode Hflag.
  apply addOrUpdateNode_cases in H as (_ & _ & Hn' & [(_ & _ & Hk & _)|(_ & Hk & _)]);
    rewrite Hk; [|done].
  rewrite lookup_insert. case_decide as Hid; [|done]. simpl.
  destruct Hn' as [->|(ex & _ & ->)]; simpl; f_equal; by apply Hnode.
Qed.

Lemma flag_mergeNode k b now self rep ns x :
  registry_wf ns → IsActive <$> knownNodes ns !! k = Some b →
  IsActive <$> knownNodes (mergeNode now self rep ns x) !! k = Some b.
Proof.
  intros Hwf Hflag. rewrite mergeNode_eq. case_decide as Hs; [done|].
  destruct (knownNodes ns !! ID x) as [ex|] eqn:Hx.
  - pose proof (Hwf _ _ Hx) as Hid.
    assert (Hex : ID x = k → IsActive ex = b).
    { intros <-. rewrite Hx in Hflag. simpl in Hflag. by injection Hflag. }
    destruct (addOrUpdateNode _ _) as [[e e2] ns2] eqn:Hup. cbv zeta. cbn [fst snd].
    pose proof Hup as Hup'.
    apply addOrUpdateNode_cases in Hup' as (_ & _ & Hn' & _).
    apply (flag_upsert k b) in Hup.
    + simpl. rewrite lookup_insert. case_decide as Hk; [|done]. simpl. f_equal.
      destruct Hn' as [->|(? & _ & ->)]; simpl; by apply Hex.
    + simpl. rewrite Hid. exact Hex.
    + simpl. rewrite lookup_insert. case_decide as Hk; [|done]. simpl. f_equal.
      by apply Hex.
  - destruct (addOrUpdateNode _ _) as [[e e2] ns2] eqn:Hup. cbn [snd].
    apply (flag_upsert k b) in Hup; [done| |done].
    simpl. intros <-. rewrite Hx in Hflag. done.
Qed.

Lemma flag_Merge k b ns now info by_ :
  registry_wf ns → (∀ i, info = Some i → ni_ID i ≠ k) →
  IsActive <$> knownNodes ns !! k = Some b →
  registry_wf (MergeNodeInfo ns now info by_).2 ∧
  IsActive <$> knownNodes (MergeNodeInfo ns now info by_).2 !! k = Some b.
Proof.
  intros Hwf Hrep Hflag. unfold MergeNodeInfo, GetNodeID.
  destruct info as [info|]; [|done]. specialize (Hrep info eq_refl). cbn [snd].
  set (ns0 := if decide (ni_ID info = nodeID (configSvc ns)) then ns else _).
  assert (H0 : registry_wf ns0 ∧ IsActive <$> knownNodes ns0 !! k = Some b).
  { subst ns0. case_decide; [done|].
    destruct (addOrUpdateNode _ _) as [[e e2] ns2] eqn:Hup.
    split.
    - apply upsert_frame in Hup as [Hw _]. by apply Hw.
    - apply (flag_upsert k b) in Hup; [done| |done]. simpl. by intros ?. }
  destruct H0 as [Hwf0 Hflag0]. clearbody ns0.
  generalize (nodeID (configSvc ns)) as self. intros self.
  revert ns0 Hwf0 Hflag0.
  induction (ni_Nodes info) as [|x xs IH]; intros ns0 Hwf0 Hflag0; simpl; [done|].
  apply IH.
  - by apply mergeNode_frame.
  - by apply flag_mergeNode.
Qed.

Lemma flag_UpdateNodeStatus k b ns id isActive :
  registry_wf ns → id ≠ k →
  IsActive <$> knownNodes ns !! k = Some b →
  registry_wf (UpdateNodeStatus ns id isActive).2 ∧
  IsActive <$> knownNodes (UpdateNodeStatus ns id isActive).2 !! k = Some b.
Proof.
  intros Hwf Hid Hflag. unfold UpdateNodeStatus.
  destruct (knownNodes ns !! id) as [node|] eqn:Hn; [|done].
  destruct (UpdateNode _ _) as [e ns'] eqn:Hup.
  apply UpdateNode_cases in Hup as (_ & Hk & _). simpl in Hk.
  assert (Hwf' : registry_wf ns').
  { intros k' m. rewrite Hk, lookup_insert. case_decide; [|apply Hwf].
    intros [= <-]. simpl. subst. by apply (Hwf _ _ Hn). }
  assert (Hflag' : IsActive <$> knownNodes ns' !! k = Some b)
    by (by rewrite Hk, lookup_insert_ne).
  by destruct e.
Qed.

Lemma CreatePollResult_probed pg r res :
  ∃ new, pr_NodeID <$> poll_results (CreatePollResult pg r res).2
         = ((pr_NodeID <$> poll_results r) ++ new)%list ∧
         (new = [] ∨ new = [pr_NodeID res]).
Proof.
  unfold CreatePollResult. destruct (poll_sql r) as [f r1] eqn:H1.
  apply poll_sql_frame in H1 as (Hr1 & _ & _).
  destruct f; simpl.
  - exists []. rewrite Hr1, app_nil_r. auto.
  - exists [pr_NodeID res]. rewrite Hr1, fmap_app. auto.
Qed.

Lemma tick_keeps_inactive pg ps t k :
  registry_wf (nodeService ps) →
  IsActive <$> knownNodes (nodeService ps) !! k = Some false →
  no_answer_from k t →
  registry_wf (nodeService (pollNextNode pg ps t).2) ∧
  IsActive <$> knownNodes (nodeService (pollNextNode pg ps t).2) !! k = Some false ∧
  ∃ new, probed (pollNextNode pg ps t).2 = (probed ps ++ new)%list ∧ k ∉ new.
Proof.
  intros Hwf Hflag Hans.
  assert (Hstay : ∃ new, probed ps = (probed ps ++ new)%list ∧ k ∉ new).
  { exists []. rewrite app_nil_r. split; [done|]. by intros ?%elem_of_nil. }
  pose proof (filteredNodes_cached ps (range_order t) ) as Hcached.
  unfold pollNextNode, GetNodeID. unfold filteredNodes in Hcached.
  destruct (GetActiveNodes (nodeService ps) (range_order t)) as [|a nodes] eqn:Hact;
    [done|].
  set (L := filter _ (a :: nodes)) in *.
  assert (Hactive : ∀ n, n ∈ L → IsActive n = true).
  { intros n [_ Hn]%list_elem_of_filter. rewrite <-Hact in Hn.
    unfold GetActiveNodes in Hn. by apply list_elem_of_filter in Hn as [? _]. }
  destruct L as [|x L'] eqn:HLeq; [done|]. rewrite <-HLeq in *. clear HLeq.
  destruct (rotate (nodeIndex ps) (length L)) as [i next].
  destruct (L !! Z.to_nat i) as [n|] eqn:Hn; [|done].
  apply list_elem_of_lookup_2 in Hn.
  assert (Hnk : ID n ≠ k).
  { intros <-. rewrite (Hcached n Hwf Hn) in Hflag. simpl in Hflag.
    rewrite (Hactive n Hn) in Hflag. done. }
  set (ps0 := mkPS _ _ next _).
  destruct (PollNode_frame ps0 t n) as (Herr & Hid & Hrepo & _).
  assert (Hpoll : registry_wf (nodeService (PollNode ps0 t n).2) ∧
                  IsActive <$> knownNodes (nodeService (PollNode ps0 t n).2) !! k
                  = Some false).
  { unfold PollNode. destruct (net_GetNodeInfo t (nodeURL n)) as [info|msg] eqn:Hnet.
    - pose proof (flag_Merge k false (nodeService ps0) (mergeTime t) (Some info) (ID n))
        as Hm.
      destruct (MergeNodeInfo _ _ _ _) as [em ns1]. simpl in *. apply Hm; [done| |done].
      intros ? [= <-]. by eapply Hans.
    - done. }
  destruct Hpoll as [Hwf1 Hflag1].
  destruct (PollNode ps0 t n) as [[res err] ps1]. simpl in *. subst err.
  destruct (CreatePollResult_probed pg (pollRepo ps1) res) as (new & Hnew & Hcase).
  destruct (CreatePollResult pg (pollRepo ps1) res) as [e repo].
  destruct (flag_UpdateNodeStatus k false (nodeService ps1) (ID n) (pr_Success res)
              Hwf1 Hnk Hflag1) as [Hwf2 Hflag2].
  destruct (UpdateNodeStatus _ _ _) as [e2 ns2]. simpl in *.
  split; [done|]. split; [done|]. exists new. unfold probed. simpl.
  rewrite Hnew, Hrepo. split; [done|].
  destruct Hcase as [->| ->]; [by intros ?%elem_of_nil|].
  rewrite Hid. intros ?%list_elem_of_singleton. congruence.
Qed.

(** X25. A node marked inactive is not probed again.  Over any number of
    ticks, whatever the two drivers and the network do, a cached node that
    is marked inactive stays marked inactive and no history row is written
    for it, as long as no peer that answers a probe claims that node's id
    as its own: ticks select among the active nodes only, and a merge
    changes the flag of no node it lists. *)
Theorem inactive_node_is_not_probed_again
    (pg : Pager) (ps : PollingService) (ts : list Tick) (k : string) :
  registry_wf (nodeService ps) →
  IsActive <$> knownNodes (nodeService ps) !! k = Some false →
  Forall (no_answer_from k) ts →
  IsActive <$> knownNodes (nodeService (run_ticks pg ps ts)) !! k = Some false ∧
  ∃ new, probed (run_ticks pg ps ts) = (probed ps ++ new)%list ∧ k ∉ new.
Proof.
  intros Hwf Hflag Hts. revert ps Hwf Hflag.
  induction Hts as [|t ts Ht _ IH]; intros ps Hwf Hflag; simpl.
  - split; [done|]. exists []. rewrite app_nil_r. split; [done|]. by intros ?%elem_of_nil.
  - destruct (tick_keeps_inactive pg ps t k Hwf Hflag Ht) as (Hwf1 & Hflag1 & new1 & Hp1 & Hk1).
    destruct (IH _ Hwf1 Hflag1) as (Hflag2 & new2 & Hp2 & Hk2).
    split; [done|]. exists (new1 ++ new2)%list. rewrite Hp2, Hp1, app_assoc.
    split; [done|]. rewrite elem_of_app. tauto.
Qed.

Lemma inactive_node_is_not_probed_again_witness :
  registry_wf (nodeService ex_ps_b_down) ∧
  IsActive <$> knownNodes (nodeService ex_ps_b_down) !! "b" = Some false ∧
  Forall (no_answer_from "b") [ex_tick_a_lists_b; ex_tick_a_lists_b] ∧
  probed (run_ticks ex_pager ex_ps_b_down [ex_tick_a_lists_b; ex_tick_a_lists_b])
  = ["a"; "a"] ∧
  IsActive <$> knownNodes
                 (nodeService
                    (run_ticks ex_pager ex_ps_b_down
                       [ex_tick_a_lists_b; ex_tick_a_lists_b])) !! "b" = Some false ∧
  ∃ new, probed (run_ticks ex_pager ex_ps_b_down [ex_tick_a_lists_b; ex_tick_a_lists_b])
         = (probed ex_ps_b_down ++ new)%list ∧ "b" ∉ new.
Proof.
  assert (H1 : registry_wf (nodeService ex_ps_b_down))
    by (apply registry_wf_check; vm_compute; reflexivity).
  assert (H2 : IsActive <$> knownNodes (nodeService ex_ps_b_down) !! "b" = Some false)
    by (vm_compute; reflexivity).
  assert (H3 : Forall (no_answer_from "b") [ex_tick_a_lists_b; ex_tick_a_lists_b]).
  { repeat constructor; intros url info [= <-]; discriminate. }
  split; [exact H1|]. split; [exact H2|]. split; [exact H3|].
  split; [vm_compute; reflexivity|].
  exact (inactive_node_is_not_probed_again ex_pager ex_ps_b_down
           [ex_tick_a_lists_b; ex_tick_a_lists_b] "b" H1 H2 H3).
Defined.

(** ** The cache and the table *)

(** X26. Every cached node is persisted.  From start-up on, whatever
    the driver does: after [Initialize] on a freshly constructed service
    (over a table whose rows carry their key as id) and any sequence of
    merges, seed loads, direct upserts and liveness flips, every node in
    the cache is filed under its own id and has a row in the table with
    the same [first_seen]; the cache never holds an id the table lacks. *)
Theorem cached_nodes_are_persisted
    (ns : NodeService) (now : Z) (seedConfig : result (option SeedConfig))
    (ops : list op) :
  map_Forall (λ k n, ID n = k) (nodeRepo ns) → knownNodes ns = ∅ →
  registry_wf (run ops (Initialize ns now seedConfig).2) ∧
  consistent (run ops (Initialize ns now seedConfig).2) ∧
  dom (knownNodes (run ops (Initialize ns now seedConfig).2))
    ⊆ dom (nodeRepo (run ops (Initialize ns now seedConfig).2)).
Proof.
  intros Hrows Hempty.
  destruct (Initialize_registry ns now seedConfig Hrows Hempty) as [Hwf Hco].
  assert (H : created_at None (run ops (Initialize ns now seedConfig).2)).
  { apply created_at_run. by split. }
  destruct H as (Hwf' & Hco' & _). split; [done|]. split; [done|].
  intros k [n Hn]%elem_of_dom. destruct (Hco' _ _ Hn) as (r & Hr & _).
  apply elem_of_dom. eauto.
Qed.

Lemma cached_nodes_are_persisted_witness :
  map_Forall (λ k n, ID n = k) (nodeRepo ex_ns_fresh) ∧ knownNodes ex_ns_fresh = ∅ ∧
  registry_wf (run ex_ops (Initialize ex_ns_fresh 3 (Ok (Some ex_seeds))).2) ∧
  consistent (run ex_ops (Initialize ex_ns_fresh 3 (Ok (Some ex_seeds))).2) ∧
  dom (knownNodes (run ex_ops (Initialize ex_ns_fresh 3 (Ok (Some ex_seeds))).2))
    ⊆ dom (nodeRepo (run ex_ops (Initialize ex_ns_fresh 3 (Ok (Some ex_seeds))).2)).
Proof.
  assert (H1 : map_Forall (λ k n, ID n = k) (nodeRepo ex_ns_fresh))
    by (apply (bool_decide_unpack _); vm_compute; reflexivity).
  assert (H2 : knownNodes ex_ns_fresh = ∅) by reflexivity.
  split; [exact H1|]. split; [exact H2|].
  exact (cached_nodes_are_persisted ex_ns_fresh 3 (Ok (Some ex_seeds)) ex_ops H1 H2).
Defined.

(** ** What a probe brings home *)

Lemma PollNode_merges ps t node info :
  net_GetNodeInfo t (nodeURL node) = Ok info →
  nodeService (PollNode ps t node).2
  = (MergeNodeInfo (nodeService ps) (mergeTime t) (Some info) (ID node)).2.
Proof.
  intros Hnet. unfold PollNode. rewrite Hnet.
  by destruct (MergeNodeInfo _ _ _ _).
Qed.

(** X27. A probe that is answered spreads membership.  When the node
    driver is healthy and the peer under the cursor answers, then after
    the tick the peer (under the id it answered with) and every node it
    listed are in the cache and in the table, the process's own id
    apart. *)
Theorem probe_spreads_membership (pg : Pager) (ps : PollingService) (t : Tick) :
  registry_wf (nodeService ps) → faults (nodeService ps) = [] →
  filteredNodes ps (range_order t) ≠ [] → (0 <= nodeIndex ps)%Z →
  ∃ n, filteredNodes ps (range_order t)
         !! Z.to_nat (rotate (nodeIndex ps) (length (filteredNodes ps (range_order t)))).1
       = Some n ∧
       ∀ info k, net_GetNodeInfo t (nodeURL n) = Ok info →
                 touched (nodeID (configSvc (nodeService ps))) info k →
                 k ∈ dom (knownNodes (nodeService (pollNextNode pg ps t).2)) ∧
                 k ∈ dom (nodeRepo (nodeService (pollNextNode pg ps t).2)).
Proof.
  intros Hwf Hf HL Hidx. unfold pollNextNode, GetNodeID. unfold filteredNodes in *.
  destruct (GetActiveNodes (nodeService ps) (range_order t)) as [|a nodes] eqn:Hact;
    [done|].
  set (L := filter _ (a :: nodes)) in *.
  destruct L as [|x L'] eqn:HLeq; [done|]. rewrite <-HLeq in *. clear HLeq.
  assert (Hin : (0 <= (rotate (nodeIndex ps) (length L)).1 < Z.of_nat (length L))%Z).
  { unfold rotate. assert (length L ≠ 0%nat) by (by destruct L).
    case_decide; simpl; lia. }
  destruct (rotate (nodeIndex ps) (length L)) as [i next] eqn:Hrot. simpl in *.
  destruct (L !! Z.to_nat i) as [n|] eqn:Hn.
  2:{ apply lookup_ge_None in Hn. lia. }
  exists n. split; [done|]. intros info k Hnet Htouched.
  set (ps0 := mkPS _ _ next _).
  destruct (PollNode_frame ps0 t n) as (Herr & _).
  destruct (merge_registers_touched (nodeService ps0) (mergeTime t) info (ID n) k
              Hwf Hf Htouched) as [Hk1 Hd1].
  rewrite <-(PollNode_merges ps0 t n info Hnet) in Hk1, Hd1.
  destruct (PollNode ps0 t n) as [[res err] ps1]. cbn [fst snd] in *. subst err.
  destruct (CreatePollResult pg (pollRepo ps1) res) as [e repo].
  pose proof (grows_UpdateNodeStatus (nodeService ps1) (ID n) (pr_Success res))
    as [Hk Hd].
  destruct (UpdateNodeStatus _ _ _) as [e2 ns2]. cbn [fst snd nodeService] in *.
  split; [by apply Hk|by apply Hd].
Qed.

Lemma probe_spreads_membership_witness :
  registry_wf (nodeService ex_ps2) ∧ faults (nodeService ex_ps2) = [] ∧
  filteredNodes ex_ps2 (range_order ex_tick_a_lists_c) ≠ [] ∧
  (0 <= nodeIndex ex_ps2)%Z ∧
  knownNodes (nodeService ex_ps2) !! "c" = None ∧
  is_Some (knownNodes (nodeService (pollNextNode ex_pager ex_ps2 ex_tick_a_lists_c).2)
             !! "c") ∧
  ∃ n, filteredNodes ex_ps2 (range_order ex_tick_a_lists_c)
         !! Z.to_nat (rotate (nodeIndex ex_ps2)
                        (length (filteredNodes ex_ps2 (range_order ex_tick_a_lists_c)))).1
       = Some n ∧
       ∀ info k, net_GetNodeInfo ex_tick_a_lists_c (nodeURL n) = Ok info →
                 touched (nodeID (configSvc (nodeService ex_ps2))) info k →
                 k ∈ dom (knownNodes
                            (nodeService (pollNextNode ex_pager ex_ps2 ex_tick_a_lists_c).2)) ∧
                 k ∈ dom (nodeRepo
                            (nodeService (pollNextNode ex_pager ex_ps2 ex_tick_a_lists_c).2)).
Proof.
  assert (H1 : registry_wf (nodeService ex_ps2))
    by (apply registry_wf_check; vm_compute; reflexivity).
  assert (H2 : faults (nodeService ex_ps2) = []) by reflexivity.
  assert (H3 : filteredNodes ex_ps2 (range_order ex_tick_a_lists_c) ≠ [])
    by (vm_compute; discriminate).
  assert (H4 : (0 <= nodeIndex ex_ps2)%Z) by (simpl; lia).
  split; [exact H1|]. split; [exact H2|]. split; [exact H3|]. split; [exact H4|].
  split; [vm_compute; reflexivity|].
  split; [vm_compute; eauto|].
  exact (probe_spreads_membership ex_pager ex_ps2 ex_tick_a_lists_c H1 H2 H3 H4).
Defined.
